(** * smolcc: the LS tool (src/smolcc/tools/ls_tool.py)

    A shallow embedding of [LSTool] and of the Python library functions it
    calls, and the properties of the directory listing proved on it.

    Conventions.  Python [str] is [string] (a sequence of bytes; the order
    of [str] is the order of code points, which on UTF-8 bytes is
    [String.compare]).  The host is POSIX: [os.path] is [posixpath] and
    [os.path.sep] is [/].  The file system the tool reads is a finite tree
    of [fsnode]s; [os.listdir] of a directory either returns the names of
    its children or raises an [OSError].  The queue of the scan holds
    each path with the node found there, which answers [os.path.isdir]
    and [os.listdir] for that path. *)

From Stdlib Require Import String Ascii List Bool Arith Lia.
From Stdlib Require Import Permutation Sorted DecimalString.
Import ListNotations.

Local Open Scope string_scope.
Local Open Scope nat_scope.
Local Open Scope list_scope.

Set Warnings "-register-all".

(** ** Python [str] methods *)

Module Str.

(** [s.startswith(p)] *)
Definition startswith (s p : string) : bool := String.prefix p s.

(** [s.endswith(p)] *)
Fixpoint endswith (s p : string) : bool :=
  (s =? p)%string ||
  match s with
  | EmptyString => false
  | String _ s' => endswith s' p
  end.

(** [needle in s] *)
Fixpoint contains (needle s : string) : bool :=
  String.prefix needle s ||
  match s with
  | EmptyString => false
  | String _ s' => contains needle s'
  end.

(** [s.rstrip(c)] for a one-character [c] *)
Fixpoint rstrip (c : ascii) (s : string) : string :=
  match s with
  | EmptyString => EmptyString
  | String a s' =>
      match rstrip c s' with
      | EmptyString => if Ascii.eqb a c then EmptyString else String a EmptyString
      | r => String a r
      end
  end.

(** [s.replace(old, new)] for one-character [old] and [new] *)
Fixpoint replace (old new : ascii) (s : string) : string :=
  match s with
  | EmptyString => EmptyString
  | String a s' => String (if Ascii.eqb a old then new else a) (replace old new s')
  end.

(** [s.split(c)] for a one-character separator: never the empty list *)
Fixpoint split (c : ascii) (s : string) : list string :=
  match s with
  | EmptyString => [EmptyString]
  | String a s' =>
      if Ascii.eqb a c then EmptyString :: split c s'
      else match split c s' with
           | [] => [String a EmptyString]
           | h :: t => String a h :: t
           end
  end.

(** [sep.join(l)] *)
Definition join (sep : string) (l : list string) : string := String.concat sep l.

(** [str(n)] for a natural number *)
Definition of_nat (n : nat) : string := NilZero.string_of_uint (Nat.to_uint n).

(** the one-character string ["\n"] *)
Definition nl : string := String (ascii_of_nat 10) EmptyString.

End Str.

(** ** [posixpath] *)

Module posixpath.

Definition sep : ascii := "/"%char.
Definition sep_str : string := "/".

Definition isabs (p : string) : bool := Str.startswith p sep_str.

(** [os.path.join(a, b)] *)
Definition join (a b : string) : string :=
  if Str.startswith b sep_str then b
  else if (a =? "")%string || Str.endswith a sep_str then (a ++ b)%string
  else (a ++ sep_str ++ b)%string.

(** [os.path.basename(p)]: what follows the last separator *)
Definition basename (p : string) : string := last (Str.split sep p) EmptyString.

(** One round of the loop of [normpath] over the components, [comps]
    being [new_comps]. *)
Definition norm_step (initial_slashes : bool) (comps : list string) (comp : string)
  : list string :=
  if (comp =? "")%string || (comp =? ".")%string then comps
  else if negb (comp =? "..")%string
          || (negb initial_slashes && match comps with [] => true | _ => false end)
          || match comps with [] => false | _ => (last comps EmptyString =? "..")%string end
       then comps ++ [comp]
       else removelast comps.

Definition norm_comps (initial_slashes : bool) (l : list string) : list string :=
  fold_left (norm_step initial_slashes) l [].

(** [os.path.normpath(path)] *)
Definition normpath (path : string) : string :=
  if (path =? "")%string then "." else
  let initial_slashes := Str.startswith path "/" in
  let two := Str.startswith path "//" && negb (Str.startswith path "///") in
  let comps := norm_comps initial_slashes (Str.split sep path) in
  let body := Str.join sep_str comps in
  let res := if initial_slashes then ((if two then "//" else "/") ++ body)%string else body in
  if (res =? "")%string then "." else res.

(** [os.path.abspath(path)], the current directory being [cwd] *)
Definition abspath (cwd path : string) : string :=
  normpath (if isabs path then path else join cwd path).

(** [os.path.commonprefix([a, b])] on two lists of components: their
    longest common prefix. *)
Fixpoint commonprefix (a b : list string) : list string :=
  match a, b with
  | x :: a', y :: b' => if (x =? y)%string then x :: commonprefix a' b' else []
  | _, _ => []
  end.

Definition nonempty (s : string) : bool := negb (s =? "")%string.

(** [join] applied to all the elements of a non-empty [l] *)
Definition join_all (l : list string) : string :=
  match l with
  | [] => EmptyString
  | x :: l' => fold_left join l' x
  end.

(** [os.path.relpath(path, start)] *)
Definition relpath (cwd path start : string) : string :=
  let start_list := filter nonempty (Str.split sep (abspath cwd start)) in
  let path_list := filter nonempty (Str.split sep (abspath cwd path)) in
  let i := length (commonprefix start_list path_list) in
  let rel_list := repeat ".." (length start_list - i) ++ skipn i path_list in
  match rel_list with
  | [] => "."
  | _ => join_all rel_list
  end.

End posixpath.

(** ** [fnmatch] *)

Module fnmatch.

(** A member of a bracket expression. *)
Inductive item :=
| Single (c : ascii)
| Range (lo hi : ascii).

(** What [translate] turns a pattern into. *)
Inductive token :=
| Star
| AnyChar
| Lit (c : ascii)
| Class (negated : bool) (items : list item)
| Never.

Definition char_leb (a b : ascii) : bool := Nat.leb (nat_of_ascii a) (nat_of_ascii b).

(** The text between the brackets and what follows the closing bracket:
    the closing bracket is the first one after an optional [!] and an
    optional [\]]; [None] when there is none. *)
Fixpoint until_bracket (s : string) : option (string * string) :=
  match s with
  | EmptyString => None
  | String c s' =>
      if Ascii.eqb c "]" then Some (EmptyString, s')
      else match until_bracket s' with
           | Some (stuff, rest) => Some (String c stuff, rest)
           | None => None
           end
  end.

Definition bracket (s : string) : option (string * string) :=
  let keep (c : ascii) (r : option (string * string)) :=
    match r with Some (stuff, rest) => Some (String c stuff, rest) | None => None end in
  let after_bang (s : string) :=
    match s with
    | String c s' => if Ascii.eqb c "]" then keep c (until_bracket s') else until_bracket s
    | EmptyString => None
    end in
  match s with
  | String c s' => if Ascii.eqb c "!" then keep c (after_bang s') else after_bang s
  | EmptyString => None
  end.

(** The members of a bracket expression, as [translate] reads them: a
    hyphen between two characters makes a range (the first character of
    the text, and the one after a leading [!], cannot be that hyphen),
    any other character stands for itself. *)
Fixpoint items_of (s : string) : list item :=
  match s with
  | EmptyString => []
  | String c s' =>
      match s' with
      | String h (String d rest) =>
          if Ascii.eqb h "-" then Range c d :: items_of rest
          else Single c :: items_of s'
      | _ => Single c :: items_of s'
      end
  end.

(** The members of the text between the brackets; a leading [!] is kept
    as a member, as [translate] keeps it in the text. *)
Definition chunks (stuff : string) : list item :=
  match stuff with
  | String c s' => if Ascii.eqb c "!" then Single c :: items_of s' else items_of stuff
  | EmptyString => []
  end.

(** [translate] removes the ranges whose ends are out of order. *)
Definition proper (i : item) : bool :=
  match i with
  | Single _ => true
  | Range lo hi => char_leb lo hi
  end.

(** The regular expression's set for the remaining text: empty, it never
    matches; reduced to [!], it matches any character; starting with [!],
    it is the complement of the rest. *)
Definition class_of (stuff : string) : token :=
  match filter proper (chunks stuff) with
  | [] => Never
  | [Single c] => if Ascii.eqb c "!" then AnyChar else Class false [Single c]
  | Single c :: l => if Ascii.eqb c "!" then Class true l else Class false (Single c :: l)
  | Range lo hi :: l =>
      if Ascii.eqb lo "!" then Class true (Single "-" :: Single hi :: l)
      else Class false (Range lo hi :: l)
  end.

(** [translate(pat)], consecutive stars compressed into one; [fuel]
    bounds the number of tokens, and the length of the pattern is
    enough. *)
Fixpoint translate_fuel (fuel : nat) (pat : string) : list token :=
  match fuel with
  | 0 => []
  | S fuel' =>
      match pat with
      | EmptyString => []
      | String c rest =>
          if Ascii.eqb c "*" then
            match translate_fuel fuel' rest with
            | Star :: r => Star :: r
            | r => Star :: r
            end
          else if Ascii.eqb c "?" then AnyChar :: translate_fuel fuel' rest
          else if Ascii.eqb c "[" then
            match bracket rest with
            | None => Lit c :: translate_fuel fuel' rest
            | Some (stuff, rest') => class_of stuff :: translate_fuel fuel' rest'
            end
          else Lit c :: translate_fuel fuel' rest
      end
  end.

Definition translate (pat : string) : list token :=
  translate_fuel (String.length pat) pat.

Definition in_item (c : ascii) (i : item) : bool :=
  match i with
  | Single d => Ascii.eqb c d
  | Range lo hi => char_leb lo c && char_leb c hi
  end.

(** Whether the whole of [s] matches the tokens. *)
Fixpoint matches (toks : list token) (s : string) : bool :=
  match toks with
  | [] => match s with EmptyString => true | _ => false end
  | Star :: toks' =>
      (fix star (t : string) : bool :=
         matches toks' t ||
         match t with
         | EmptyString => false
         | String _ t' => star t'
         end) s
  | AnyChar :: toks' =>
      match s with String _ s' => matches toks' s' | EmptyString => false end
  | Lit c :: toks' =>
      match s with String d s' => Ascii.eqb d c && matches toks' s' | EmptyString => false end
  | Class negated items :: toks' =>
      match s with
      | String d s' => xorb negated (existsb (in_item d) items) && matches toks' s'
      | EmptyString => false
      end
  | Never :: _ => false
  end.

(** [fnmatch.fnmatch(name, pat)]; [os.path.normcase] is the identity. *)
Definition fnmatch (name pat : string) : bool := matches (translate pat) name.

End fnmatch.

(** ** The file system *)

(** The subclasses of [OSError] that [os.listdir] raises. *)
Inductive oserror :=
| PermissionError
| FileNotFoundError
| NotADirectoryError
| OSError.

(** What is found at a path: a non-directory, or a directory with the
    outcome of [os.listdir] on it: [raises = Some e] when it raises [e],
    the names of [children] otherwise.  [os.path.isdir] is true of a
    [Dir]. *)
Inductive fsnode :=
| File (name : string)
| Dir (name : string) (raises : option oserror) (children : list fsnode).

Definition node_name (n : fsnode) : string :=
  match n with
  | File name => name
  | Dir name _ _ => name
  end.

Definition isdir (n : fsnode) : bool :=
  match n with
  | File _ => false
  | Dir _ _ _ => true
  end.

Fixpoint node_size (n : fsnode) : nat :=
  match n with
  | File _ => 1
  | Dir _ _ children => S (fold_right (fun c acc => node_size c + acc) 0 children)
  end.

(** The process's view of the file system: the current directory and what
    [os.path.exists] and [os.path.isdir] find at a path. *)
Record filesystem := {
  getcwd : string;
  stat : string -> option fsnode
}.

(** What a call does: it returns, it raises, or (for the model's loop
    only) it runs out of fuel. *)
Inductive outcome (A : Type) : Type :=
| Returns (a : A)
| Raises (e : oserror)
| OutOfFuel.
Arguments Returns {A} a.
Arguments Raises {A} e.
Arguments OutOfFuel {A}.

(** [list.sort()] on the keys [key x]: a stable insertion sort. *)
Section Sort.
Context {A : Type} (key : A -> string).

Fixpoint insert_sorted (x : A) (l : list A) : list A :=
  match l with
  | [] => [x]
  | y :: l' => if String.leb (key x) (key y) then x :: l else y :: insert_sorted x l'
  end.

Fixpoint sort_by (l : list A) : list A :=
  match l with
  | [] => []
  | x :: l' => insert_sorted x (sort_by l')
  end.
End Sort.

Definition sort_strings : list string -> list string := sort_by (fun s => s).

(** ** [LSTool] *)

Definition MAX_FILES : nat := 1000.

Definition TRUNCATED_MESSAGE : string :=
  ("There are more than " ++ Str.of_nat MAX_FILES
   ++ " files in the repository. Use the LS tool (passing a specific path), Bash tool, and other tools to explore nested directories. The first "
   ++ Str.of_nat MAX_FILES ++ " files and directories are included below:" ++ Str.nl ++ Str.nl)%string.

(** [LSTool._should_skip] *)
Definition should_skip (path : string) (ignore_patterns : list string) : bool :=
  let basename := posixpath.basename (Str.rstrip posixpath.sep path) in
  if Str.startswith basename "." && negb (basename =? ".")%string then true
  else if (basename =? "__pycache__")%string
          || Str.contains "__pycache__/" (Str.replace posixpath.sep "/" path) then true
  else if existsb (fun pattern => fnmatch.fnmatch path pattern) ignore_patterns then true
  else false.

(** The state of the loop of [_list_directory]. *)
Record scan_state := {
  results : list string;
  queue : list (string * fsnode);
  file_count : nat
}.

Section ListDirectory.
Variables (cwd initial_path : string) (ignore_patterns : list string).

(** The entry recorded for [path]: its path relative to the root, with a
    final [/] for a directory. *)
Definition rel_entry (path : string) (n : fsnode) : string :=
  let rel_path := Str.replace posixpath.sep "/" (posixpath.relpath cwd path initial_path) in
  if isdir n then
    if Str.endswith rel_path "/" then rel_path else (rel_path ++ "/")%string
  else rel_path.

(** The children of a listed directory that are put in the queue. *)
Definition enqueued (path : string) (children : list fsnode) : list (string * fsnode) :=
  let entries := map (fun c => (posixpath.join path (node_name c), c)) children in
  let entries := sort_by fst entries in
  filter (fun e => negb (should_skip (fst e) ignore_patterns)) entries.

(** One round of the loop, [(path, n)] being the path taken from the
    front of the queue, with what is found there, and [rest] what is
    left of the queue.  The listing of a directory is inside [try]: a
    [PermissionError] or a [FileNotFoundError] goes on to the next round
    with nothing added to the queue, any other error leaves the call. *)
Definition scan_step (path : string) (n : fsnode) (rest : list (string * fsnode))
           (st : scan_state) : outcome scan_state :=
  if should_skip path ignore_patterns then
    Returns {| results := results st; queue := rest; file_count := file_count st |}
  else
    let '(results', file_count') :=
      if negb (path =? initial_path)%string then
        if isdir n then (results st ++ [rel_entry path n], file_count st)
        else (results st ++ [rel_entry path n], file_count st + 1)
      else (results st, file_count st) in
    match n with
    | File _ =>
        Returns {| results := results'; queue := rest; file_count := file_count' |}
    | Dir _ (Some PermissionError) _ | Dir _ (Some FileNotFoundError) _ =>
        Returns {| results := results'; queue := rest; file_count := file_count' |}
    | Dir _ (Some e) _ => Raises e
    | Dir _ None children =>
        Returns {| results := results';
                   queue := rest ++ enqueued path children;
                   file_count := file_count' |}
    end.

(** [while queue and file_count < MAX_FILES: ...] *)
Fixpoint scan_loop (fuel : nat) (st : scan_state) : outcome scan_state :=
  match queue st with
  | [] => Returns st
  | (path, n) :: rest =>
      if file_count st <? MAX_FILES then
        match fuel with
        | 0 => OutOfFuel
        | S fuel' =>
            match scan_step path n rest st with
            | Returns st' => scan_loop fuel' st'
            | Raises e => Raises e
            | OutOfFuel => OutOfFuel
            end
        end
      else Returns st
  end.

(** [LSTool._list_directory], on the directory [root] found at
    [initial_path]. *)
Definition list_directory (root : fsnode) : outcome (list string) :=
  match scan_loop (node_size root)
          {| results := []; queue := [(initial_path, root)]; file_count := 0 |} with
  | Returns st => Returns (sort_strings (results st))
  | Raises e => Raises e
  | OutOfFuel => OutOfFuel
  end.
End ListDirectory.

(** A node of the tree of [_create_file_tree]: the dictionary with keys
    [name], [path] and [type], and the key [children] when [type] is
    [directory]. *)
Inductive tree_node :=
| FileNode (name path : string)
| DirNode (name path : string) (children : list tree_node).

Definition tree_name (n : tree_node) : string :=
  match n with
  | FileNode name _ => name
  | DirNode name _ _ => name
  end.

(** The first node of [level] named [part] has its children replaced by
    [f] of them; [None] when no node has that name.  A file node has no
    list of children: what is added below it is lost. *)
Fixpoint descend (part : string) (f : list tree_node -> list tree_node)
         (level : list tree_node) : option (list tree_node) :=
  match level with
  | [] => None
  | node :: level' =>
      if (tree_name node =? part)%string then
        Some (match node with
              | FileNode _ _ => node
              | DirNode name path children => DirNode name path (f children)
              end :: level')
      else match descend part f level' with
           | Some l => Some (node :: l)
           | None => None
           end
  end.

Section CreateFileTree.
Variable path : string.
Variable nparts : nat.

(** The inner loop of [_create_file_tree] over the parts of [path] from
    index [i] on, [current_level] being the list the parts are added to. *)
Fixpoint add_parts (i : nat) (parts : list string) (current_path : string)
         (current_level : list tree_node) : list tree_node :=
  match parts with
  | [] => current_level
  | part :: parts' =>
      if (part =? "")%string then add_parts (S i) parts' current_path current_level
      else
        let current_path :=
          if (current_path =? "")%string then part
          else (current_path ++ "/" ++ part)%string in
        let is_directory := (i <? nparts - 1) || Str.endswith path "/" in
        match descend part (add_parts (S i) parts' current_path) current_level with
        | Some level => level
        | None =>
            current_level ++
              [if is_directory
               then DirNode part current_path (add_parts (S i) parts' current_path [])
               else FileNode part current_path]
        end
  end.
End CreateFileTree.

(** One round of the outer loop of [_create_file_tree]. *)
Definition add_path (root : list tree_node) (path : string) : list tree_node :=
  let parts := Str.split "/" path in
  add_parts path (length parts) 0 parts EmptyString root.

(** [LSTool._create_file_tree] *)
Definition create_file_tree (sorted_paths : list string) : list tree_node :=
  fold_left add_path sorted_paths [].

(** What [_print_tree] starts with: the line of the root at level 0. *)
Definition root_line (root_path : string) (level : nat) : string :=
  if level =? 0
  then ("- " ++ Str.rstrip posixpath.sep root_path ++ "/" ++ Str.nl)%string
  else "".

(** The prefix [_print_tree] writes its nodes with. *)
Definition level_prefix (level : nat) (prefix : string) : string :=
  if level =? 0 then "  " else prefix.

(** The line of a node and, for a directory with children, what
    [_print_tree] gives on them one level down. *)
Fixpoint print_node (root_path : string) (level : nat) (prefix : string)
         (node : tree_node) : string :=
  match node with
  | FileNode name _ => (prefix ++ "- " ++ name ++ "" ++ Str.nl)%string
  | DirNode name _ children =>
      (prefix ++ "- " ++ name ++ "/" ++ Str.nl ++
       match children with
       | [] => ""
       | _ =>
           root_line root_path (level + 1) ++
           (fix nodes (l : list tree_node) : string :=
              match l with
              | [] => ""
              | c :: l' =>
                  print_node root_path (level + 1)
                    (level_prefix (level + 1) (prefix ++ "  ")) c ++ nodes l'
              end) children
       end)%string
  end.

(** [LSTool._print_tree] *)
Definition print_tree (tree : list tree_node) (root_path : string) (level : nat)
           (prefix : string) : string :=
  (root_line root_path level
   ++ String.concat "" (map (print_node root_path level (level_prefix level prefix)) tree))%string.

(** The path [forward] works on: [path], made absolute when it is not. *)
Definition resolved (fs : filesystem) (path : string) : string :=
  if posixpath.isabs path then path else posixpath.abspath (getcwd fs) path.

(** [ignore or []], [ignore] being [None] for Python's [None]. *)
Definition patterns_of (ignore : option (list string)) : list string :=
  match ignore with Some l => l | None => [] end.

(** [LSTool.forward] *)
Definition forward (fs : filesystem) (path : string) (ignore : option (list string))
  : outcome string :=
  let path := resolved fs path in
  match stat fs path with
  | None => Returns ("Error: Path '" ++ path ++ "' does not exist")%string
  | Some (File _) => Returns ("Error: Path '" ++ path ++ "' is not a directory")%string
  | Some (Dir _ _ _ as root) =>
      match list_directory (getcwd fs) path (patterns_of ignore) root with
      | Returns all_paths =>
          let tree := create_file_tree all_paths in
          let truncated := MAX_FILES <=? length all_paths in
          let prefix := if truncated then TRUNCATED_MESSAGE else "" in
          let tree_output := print_tree tree path 0 "" in
          Returns (prefix ++ tree_output)%string
      | Raises e => Raises e
      | OutOfFuel => OutOfFuel
      end
  end.

(** ** The entries of the file system *)

(** A name that [os.listdir] can return: not empty, neither [.] nor [..],
    and without a separator. *)
Definition valid_name (name : string) : bool :=
  negb (name =? "")%string && negb (name =? ".")%string && negb (name =? "..")%string
  && negb (Str.contains "/" name).

Fixpoint nodupb (l : list string) : bool :=
  match l with
  | [] => true
  | x :: l' => negb (existsb (String.eqb x) l') && nodupb l'
  end.

(** A tree that a file system can hold: in every directory the names are
    valid and no two children have the same name. *)
Fixpoint valid_tree (n : fsnode) : bool :=
  match n with
  | File _ => true
  | Dir _ _ children =>
      forallb (fun c => valid_name (node_name c)) children
      && nodupb (map node_name children)
      && forallb valid_tree children
  end.

(** The path the scan builds for the entry reached from [initial_path]
    through the children named [names]. *)
Definition path_of (initial_path : string) (names : list string) : string :=
  fold_left posixpath.join names initial_path.

(** [reaches root names n]: [n] is the entry found from [root] through the
    children named [names], each a child of a directory that can be
    listed. *)
Inductive reaches : fsnode -> list string -> fsnode -> Prop :=
| reaches_here (n : fsnode) : reaches n [] n
| reaches_child (name : string) (children : list fsnode) (c : fsnode)
    (names : list string) (n : fsnode) :
    In c children -> reaches c names n ->
    reaches (Dir name None children) (node_name c :: names) n.

(** The node found from [n] through the children named [names]. *)
Fixpoint lookup (n : fsnode) (names : list string) : option fsnode :=
  match names with
  | [] => Some n
  | x :: names' =>
      match n with
      | Dir _ None children =>
          match find (fun c => (node_name c =? x)%string) children with
          | Some c => lookup c names'
          | None => None
          end
      | _ => None
      end
  end.

(** The number of non-directory entries below a node. *)
Fixpoint count_files (n : fsnode) : nat :=
  match n with
  | File _ => 1
  | Dir _ _ children => fold_right (fun c acc => count_files c + acc) 0 children
  end.

(** A component kept by [normpath]: not empty and without separator. *)
Definition comp_ok (x : string) : Prop := x <> "" /\ Str.contains "/" x = false.

(** The entry of the listing for the names from the root down. *)
Definition entry_of (names : list string) (is_dir : bool) : string :=
  (Str.join "/" names ++ if is_dir then "/" else "")%string.

(** A string that is the entry of some names. *)
Definition is_entry (e : string) : Prop :=
  exists ns d, Forall comp_ok ns /\ ns <> [] /\ e = entry_of ns d.

(** [os.path.isdir] at a path. *)
Definition isdir_at (fs : filesystem) (path : string) : bool :=
  match stat fs path with
  | Some n => isdir n
  | None => false
  end.

(** ** Errors of the listing *)

(** The failures of [os.listdir] that [_list_directory] catches. *)
Definition caught (e : oserror) : bool :=
  match e with
  | PermissionError | FileNotFoundError => true
  | NotADirectoryError | OSError => false
  end.

(** No listing in the tree raises anything but what is caught. *)
Fixpoint only_caught (n : fsnode) : bool :=
  match n with
  | File _ => true
  | Dir _ (Some e) _ => caught e
  | Dir _ None children => forallb only_caught children
  end.

(** The part of the tree that can be read: a directory whose listing
    raises is an empty directory. *)
Fixpoint readable (n : fsnode) : fsnode :=
  match n with
  | File name => File name
  | Dir name (Some _) _ => Dir name None []
  | Dir name None children => Dir name None (map readable children)
  end.

(** The queue and the state of the scan of the readable part. *)
Definition readable_queue (q : list (string * fsnode)) : list (string * fsnode) :=
  map (fun e => (fst e, readable (snd e))) q.

Definition readable_state (st : scan_state) : scan_state :=
  {| results := results st; queue := readable_queue (queue st); file_count := file_count st |}.

(** ** What the scan records *)

Section Walk.
Variables (cwd initial_path : string) (ignore_patterns : list string).

(** What one round of the loop records for [path], and by how much it
    moves the counter. *)
Definition own_entry (path : string) (n : fsnode) : list string :=
  if negb (path =? initial_path)%string then [rel_entry cwd initial_path path n] else [].

Definition counted (path : string) (n : fsnode) : nat :=
  if negb (path =? initial_path)%string && negb (isdir n) then 1 else 0.

(** What one round of the loop adds to the queue for [path], or the error
    it lets through. *)
Definition listed (path : string) (n : fsnode) : outcome (list (string * fsnode)) :=
  match n with
  | File _ => Returns []
  | Dir _ None children => Returns (enqueued ignore_patterns path children)
  | Dir _ (Some e) _ => if caught e then Returns [] else Raises e
  end.

(** What the scan records for [path] and below when nothing stops it, in
    depth-first order. *)
Fixpoint walk (path : string) (n : fsnode) : list string :=
  if should_skip path ignore_patterns then []
  else
    own_entry path n
    ++ match n with
       | Dir _ None children =>
           (fix walk_children (l : list fsnode) : list string :=
              match l with
              | [] => []
              | c :: l' => walk (posixpath.join path (node_name c)) c ++ walk_children l'
              end) children
       | _ => []
       end.

Definition walk_queue (q : list (string * fsnode)) : list string :=
  flat_map (fun e => walk (fst e) (snd e)) q.

(** The number of files among what the scan records for [path] and
    below when nothing stops it: the files under the root that are
    neither hidden nor excluded. *)
Fixpoint walk_count (path : string) (n : fsnode) : nat :=
  if should_skip path ignore_patterns then 0
  else
    counted path n
    + match n with
      | Dir _ None children =>
          (fix count_children (l : list fsnode) : nat :=
             match l with
             | [] => 0
             | c :: l' => walk_count (posixpath.join path (node_name c)) c + count_children l'
             end) children
      | _ => 0
      end.

Definition queue_count (q : list (string * fsnode)) : nat :=
  fold_right (fun e acc => walk_count (fst e) (snd e) + acc) 0 q.

(** Whether none of the paths from [path] (excluded) down through [names]
    is skipped. *)
Fixpoint visible (path : string) (names : list string) : bool :=
  match names with
  | [] => true
  | name :: names' =>
      negb (should_skip (posixpath.join path name) ignore_patterns)
      && visible (posixpath.join path name) names'
  end.

(** An element of the queue that is a file the scan records. *)
Definition recorded_file (e : string * fsnode) : Prop :=
  isdir (snd e) = false
  /\ should_skip (fst e) ignore_patterns = false
  /\ fst e <> initial_path.
End Walk.

(** What the loop has left to do: the size of the trees in the queue. *)
Definition queue_weight (q : list (string * fsnode)) : nat :=
  fold_right (fun e acc => node_size (snd e) + acc) 0 q.

(** What the paths of the children of [initial_path] start with. *)
Definition child_prefix (initial_path : string) : string :=
  if Str.endswith initial_path "/" then initial_path else (initial_path ++ "/")%string.

(** A pattern that starts with an ordinary character other than the
    separator, or is empty: no wildcard and no bracket comes first. *)
Definition starts_literal (pattern : string) : bool :=
  match pattern with
  | EmptyString => true
  | String c _ =>
      negb (Ascii.eqb c "*") && negb (Ascii.eqb c "?") && negb (Ascii.eqb c "[")
      && negb (Ascii.eqb c "/")
  end.

(** ** The order of the listing and of the tree *)

Definition str_lt (a b : string) : Prop := String.ltb a b = true.
Definition str_le (a b : string) : Prop := String.leb a b = true.

(** What a node is printed as: its name, with [/] for a directory. *)
Definition label (x : tree_node) : string :=
  match x with
  | FileNode name _ => name
  | DirNode name _ _ => (name ++ "/")%string
  end.

(** [each_level P forest]: [P] holds of the forest and of the children of
    every node in it. *)
Fixpoint each_node (P : list tree_node -> Prop) (x : tree_node) : Prop :=
  match x with
  | FileNode _ _ => True
  | DirNode _ _ children =>
      P children /\
      (fix all (l : list tree_node) : Prop :=
         match l with
         | [] => True
         | c :: l' => each_node P c /\ all l'
         end) children
  end.

Definition each_level (P : list tree_node -> Prop) (forest : list tree_node) : Prop :=
  P forest /\ Forall (each_node P) forest.

(** The names of the nodes of a level are pairwise different. *)
Definition unique_names (level : list tree_node) : Prop :=
  NoDup (map tree_name level).

(** The nodes of a level are in increasing order of their names. *)
Definition names_ordered (level : list tree_node) : Prop :=
  StronglySorted str_lt (map tree_name level).

(** The nodes of a level are in increasing order of what they are printed
    as. *)
Definition labels_ordered (level : list tree_node) : Prop :=
  StronglySorted str_lt (map label level).

(** What the entries below the node of path [cur] start with. *)
Definition under (cur : string) : string :=
  if (cur =? "")%string then "" else (cur ++ "/")%string.

Definition suffix_of (d : bool) : string := if d then "/" else "".

(** What [descend] makes of the node it finds. *)
Definition descended (f : list tree_node -> list tree_node) (x : tree_node) : tree_node :=
  match x with
  | FileNode _ _ => x
  | DirNode name path children => DirNode name path (f children)
  end.

(** [add_parts] on the entry of the names [names]: the names are added one
    below the other, each a directory but the last one of a file. *)
Fixpoint insert_chain (is_dir : bool) (names : list string) (cur : string)
         (level : list tree_node) : list tree_node :=
  match names with
  | [] => level
  | n :: names' =>
      let cur' := (under cur ++ n)%string in
      match descend n (insert_chain is_dir names' cur') level with
      | Some l => l
      | None =>
          level ++
            [if is_dir || match names' with [] => false | _ => true end
             then DirNode n cur' (insert_chain is_dir names' cur' [])
             else FileNode n cur']
      end
  end.

(** [node_ok seen cur x]: the node [x], below the node of path [cur], was
    made for an entry of [seen], and so were the nodes below it; at every
    level below it the names are unique and the labels in order. *)
Fixpoint node_ok (seen : list string) (cur : string) (x : tree_node) : Prop :=
  match x with
  | FileNode n p =>
      comp_ok n /\ p = (under cur ++ n)%string /\ In p seen
  | DirNode n p children =>
      comp_ok n /\ p = (under cur ++ n)%string
      /\ (exists r, In (p ++ "/" ++ r)%string seen)
      /\ unique_names children /\ labels_ordered children
      /\ (fix all (l : list tree_node) : Prop :=
            match l with
            | [] => True
            | c :: l' => node_ok seen p c /\ all l'
            end) children
  end.

Definition level_ok (seen : list string) (cur : string) (level : list tree_node) : Prop :=
  unique_names level /\ labels_ordered level /\ Forall (node_ok seen cur) level.

(** The line of a file at the first level. *)
Definition file_line (name : string) : string := ("  - " ++ name ++ Str.nl)%string.

(** What [forward] returns starts with the banner. *)
Definition has_banner (r : outcome string) : bool :=
  match r with
  | Returns out => Str.startswith out TRUNCATED_MESSAGE
  | _ => false
  end.

(** ** File systems for the scenarios *)

(** The file system that holds the tree [root] at [root_path] and nothing
    else, the current directory being [cwd]. *)
Definition mount (cwd root_path : string) (root : fsnode) : filesystem :=
  {| getcwd := cwd;
     stat := fun p =>
       if (p =? root_path)%string then Some root
       else if Str.startswith p (root_path ++ "/") then
         lookup root
           (Str.split "/"
              (String.substring (String.length root_path + 1)
                 (String.length p - (String.length root_path + 1)) p))
       else None |}.

(** Scenario A: [a.txt], [b/] and [b/c.txt]. *)
Definition scenario_a : fsnode :=
  Dir "repo" None [File "a.txt"; Dir "b" None [File "c.txt"]].

(** Scenario B: [.git/] and [README.md]. *)
Definition scenario_b : fsnode :=
  Dir "repo" None [Dir ".git" None [File "HEAD"; Dir "objects" None []]; File "README.md"].

(** Scenario C: [app.log] and [app.py]. *)
Definition scenario_c : fsnode :=
  Dir "repo" None [File "app.log"; File "app.py"].

(** A log file one directory down. *)
Definition nested_log : fsnode :=
  Dir "repo" None [Dir "sub" None [File "app.log"; File "app.py"]; File "main.py"].

(** A directory whose name ends with the name of the cache directory. *)
Definition longer_segment : fsnode :=
  Dir "repo" None [Dir "foo__pycache__" None [File "mod.py"]; File "main.py"].

(** [count] names that start with [stem], in increasing order. *)
Definition numbered (stem : string) (count : nat) : list string :=
  map (fun i => (stem ++ Str.of_nat (1000 + i))%string) (seq 0 count).

(** Scenario E: 1200 files in one directory. *)
Definition scenario_e : fsnode := Dir "repo" None (map File (numbered "f" 1200)).

(** One file and 999 empty directories. *)
Definition many_directories : fsnode :=
  Dir "repo" None (File "a.txt" :: map (fun name => Dir name None []) (numbered "d" 999)).

(** The listing of [many_directories]. *)
Definition many_directories_listing : list string :=
  "a.txt" :: map (fun name => (name ++ "/")%string) (numbered "d" 999).

(** A directory that cannot be read and one that is gone. *)
Definition partly_readable : fsnode :=
  Dir "repo" None
    [File "a.txt";
     Dir "locked" (Some PermissionError) [];
     Dir "gone" (Some FileNotFoundError) [];
     Dir "open" None [File "b.txt"]].

(** A directory replaced by a file after it was put in the queue. *)
Definition replaced_directory : fsnode :=
  Dir "repo" None [File "a.txt"; Dir "sub" (Some NotADirectoryError) []].

(** A directory and a file whose name starts with the directory's. *)
Definition docs_and_file : fsnode :=
  Dir "repo" None [Dir "docs" None [File "index.md"]; File "docs.md"].

(** ** Measures of the listing *)

(** An entry that is not the entry of a directory. *)
Definition is_file_entry (e : string) : bool := negb (Str.endswith e "/").

(** The number of names in an entry: 1 for a child of the root. *)
Definition entry_depth (e : string) : nat :=
  length (filter posixpath.nonempty (Str.split "/" e)).

(** ** The state of the loop *)

Section ScanInvariant.
Variables (initial_path : string) (root : fsnode).

(** The entry of the directory that holds the entry of [ns] is among
    [res], when that directory is not the root. *)
Definition parent_listed (res : list string) (ns : list string) : Prop :=
  2 <= length ns -> In (entry_of (removelast ns) true) res.

(** An element of the queue found [depth] names below the root. *)
Definition queued (res : list string) (depth : nat) (e : string * fsnode) : Prop :=
  exists ns, length ns = depth /\ fst e = path_of initial_path ns
             /\ reaches root ns (snd e) /\ parent_listed res ns.

(** An entry recorded for a node at most [depth] names below the root. *)
Definition recorded (res : list string) (depth : nat) (e : string) : Prop :=
  exists ns n, reaches root ns n /\ ns <> [] /\ length ns <= depth
               /\ e = entry_of ns (isdir n) /\ parent_listed res ns.

(** What every round of the loop keeps: the queue holds nodes of one
    depth and then nodes one level down, nothing recorded lies deeper
    than the front of the queue, and the counter is the number of
    entries of files recorded. *)
Definition scan_invariant (st : scan_state) : Prop :=
  exists depth front back,
    queue st = front ++ back
    /\ Forall (queued (results st) depth) front
    /\ Forall (queued (results st) (S depth)) back
    /\ Forall (recorded (results st) depth) (results st)
    /\ file_count st = length (filter is_file_entry (results st))
    /\ file_count st <= MAX_FILES.
End ScanInvariant.

(** A thousand files at the first level and one more a level down. *)
Definition wide_and_deep : fsnode :=
  Dir "repo" None (Dir "d" None [File "x"] :: map File (numbered "f" 1000)).

(** ** The tree *)

(** A node below the node of path [cur] as [_create_file_tree] makes it:
    its name is a part of a path, its path is the path of the node above
    and its name, and no two of its children have the same name. *)
Fixpoint well_formed_node (cur : string) (x : tree_node) : Prop :=
  match x with
  | FileNode n p => comp_ok n /\ p = (under cur ++ n)%string
  | DirNode n p children =>
      comp_ok n /\ p = (under cur ++ n)%string
      /\ unique_names children
      /\ (fix all (l : list tree_node) : Prop :=
            match l with
            | [] => True
            | c :: l' => well_formed_node p c /\ all l'
            end) children
  end.

Definition well_formed (cur : string) (level : list tree_node) : Prop :=
  unique_names level /\ Forall (well_formed_node cur) level.

(** The entries a tree stands for, in the order [_print_tree] goes
    through its nodes: the path of a node, with [/] for a directory, and
    then the entries of its children. *)
Fixpoint tree_entries (x : tree_node) : list string :=
  match x with
  | FileNode _ path => [path]
  | DirNode _ path children =>
      (path ++ "/")%string
        :: (fix entries (l : list tree_node) : list string :=
              match l with
              | [] => []
              | c :: l' => tree_entries c ++ entries l'
              end) children
  end.

Definition forest_entries (level : list tree_node) : list string :=
  flat_map tree_entries level.

(** [k] times two spaces. *)
Definition indent (k : nat) : string := String.concat "" (repeat "  " k).

(** The line of an entry: two spaces for each of its names, the marker,
    its last name, and [/] when it is the entry of a directory. *)
Definition entry_line (e : string) : string :=
  let parts := filter posixpath.nonempty (Str.split "/" e) in
  (indent (length parts) ++ "- " ++ last parts "" ++ (if Str.endswith e "/" then "/" else "")
   ++ Str.nl)%string.

(** ** The order of [os.listdir] *)

(** The tree with the children of every directory in the order of their
    names. *)
Fixpoint by_name (n : fsnode) : fsnode :=
  match n with
  | File name => File name
  | Dir name raises children => Dir name raises (sort_by node_name (map by_name children))
  end.

Definition named_queue (q : list (string * fsnode)) : list (string * fsnode) :=
  map (fun e => (fst e, by_name (snd e))) q.

Definition named_state (st : scan_state) : scan_state :=
  {| results := results st; queue := named_queue (queue st); file_count := file_count st |}.

(** The same tree, with [os.listdir] returning the names of directories
    in another order. *)
Inductive reordered : fsnode -> fsnode -> Prop :=
| reordered_file (name : string) : reordered (File name) (File name)
| reordered_dir (name : string) (raises : option oserror) (cs1 cs cs2 : list fsnode) :
    Forall2 reordered cs1 cs -> Permutation cs cs2 ->
    reordered (Dir name raises cs1) (Dir name raises cs2).

(** Scenario A, the directory before the file. *)
Definition scenario_a_reordered : fsnode :=
  Dir "repo" None [Dir "b" None [File "c.txt"]; File "a.txt"].

(** A hidden directory given as the root. *)
Definition hidden_root : fsnode :=
  Dir ".config" None [File "settings.json"; Dir "app" None [File "app.ini"]].


(** Exactly as many files as the cap, in one directory. *)
Definition just_full : fsnode := Dir "repo" None (map File (numbered "f" 1000)).

(** ** [main.py]: the rounds of the interactive mode *)

(** [str] methods on the line read.  They are Python's on strings of
    ASCII characters: [lower] turns [A] to [Z] into [a] to [z], and the
    whitespace [strip] removes is the characters 9 to 13, 28 to 31 and
    the space. *)
Module Line.

Fixpoint is_ascii (s : string) : bool :=
  match s with
  | EmptyString => true
  | String c s' => (nat_of_ascii c <? 128) && is_ascii s'
  end.

Definition isspace (c : ascii) : bool :=
  let n := nat_of_ascii c in
  ((9 <=? n) && (n <=? 13)) || ((28 <=? n) && (n <=? 32)).

Definition lower_char (c : ascii) : ascii :=
  let n := nat_of_ascii c in
  if (65 <=? n) && (n <=? 90) then ascii_of_nat (n + 32) else c.

(** [s.lower()] *)
Fixpoint lower (s : string) : string :=
  match s with
  | EmptyString => EmptyString
  | String c s' => String (lower_char c) (lower s')
  end.

(** [s.lstrip()] *)
Fixpoint lstrip (s : string) : string :=
  match s with
  | EmptyString => EmptyString
  | String c s' => if isspace c then lstrip s' else s
  end.

(** [s.rstrip()] *)
Fixpoint rstrip (s : string) : string :=
  match s with
  | EmptyString => EmptyString
  | String c s' =>
      match rstrip s' with
      | EmptyString => if isspace c then EmptyString else String c EmptyString
      | r => String c r
      end
  end.

(** [s.strip()] *)
Definition strip (s : string) : string := rstrip (lstrip s).

(** Whether [s] is whitespace only: [not s.strip()] *)
Fixpoint blank (s : string) : bool :=
  match s with
  | EmptyString => true
  | String c s' => isspace c && blank s'
  end.

(** [s[n:]] *)
Fixpoint drop (n : nat) (s : string) : string :=
  match n, s with
  | 0, _ => s
  | S n', String _ s' => drop n' s'
  | S _, EmptyString => EmptyString
  end.

End Line.

(** What [os.path.expanduser] reads: [HOME] in the environment when it is
    set, the home directory of the user of the process and that of a
    user by name, [None] where [pwd] raises [KeyError]. *)
Record userdb := {
  environ_home : option string;
  pw_dir : option string;
  pw_dir_of : string -> option string
}.

(** The text before the first [/] and the text from it on. *)
Fixpoint break_at_sep (s : string) : string * string :=
  match s with
  | EmptyString => (EmptyString, EmptyString)
  | String c s' =>
      if Ascii.eqb c "/" then (EmptyString, s)
      else let '(name, rest) := break_at_sep s' in (String c name, rest)
  end.

(** [os.path.expanduser(path)] *)
Definition expanduser (users : userdb) (path : string) : string :=
  match path with
  | String "~" after =>
      let '(name, rest) := break_at_sep after in
      let userhome :=
        if (name =? "")%string then
          match environ_home users with
          | Some home => Some home
          | None => pw_dir users
          end
        else pw_dir_of users name in
      match userhome with
      | None => path
      | Some home =>
          let expanded := (Str.rstrip "/" home ++ rest)%string in
          if (expanded =? "")%string then "/" else expanded
      end
  | _ => path
  end.

(** What a round of the loop of [run_interactive_mode] does with the
    line it has read. *)
Inductive round :=
| Goodbye
| Blank
| Help
| ChangeDirectory (new_path : string)
| Usage
| Ask (query : string).

(** The round for the line [query]: the loop ends, goes on at once,
    prints the help, calls [recreate_agent_with_cwd] on [new_path],
    prints the usage of [cd], or calls [agent.run] on the line. *)
Definition round_of (fs : filesystem) (users : userdb) (query : string) : round :=
  if existsb (String.eqb (Line.lower query)) ["exit"; "quit"] then Goodbye
  else if (Line.strip query =? "")%string then Blank
  else if (Line.lower query =? "help")%string then Help
  else if Str.startswith (Line.lower (Line.strip query)) "cd " then
    let new_path := Line.strip (Line.drop 3 (Line.strip query)) in
    if negb (new_path =? "")%string then
      let new_path := expanduser users new_path in
      let new_path :=
        if negb (posixpath.isabs new_path) then posixpath.join (getcwd fs) new_path
        else new_path in
      ChangeDirectory (posixpath.normpath new_path)
    else Usage
  else Ask query.

(** A process whose user has the home directory [/home/u]. *)
Definition one_user : userdb :=
  {| environ_home := Some "/home/u"; pw_dir := Some "/home/u"; pw_dir_of := fun _ => None |}.

(** * Properties of the model *)

(** ** Strings *)

Lemma append_nil_r (s : string) : (s ++ "")%string = s.
Proof. induction s as [|a s IH]; simpl; [reflexivity | now rewrite IH]. Qed.

Lemma append_assoc (a b c : string) : ((a ++ b) ++ c)%string = (a ++ (b ++ c))%string.
Proof. induction a as [|x a IH]; simpl; [reflexivity | now rewrite IH]. Qed.

Lemma prefix_nil (s : string) : String.prefix "" s = true.
Proof. destruct s; reflexivity. Qed.

Lemma prefix_cons (a b : ascii) (p s : string) :
  String.prefix (String a p) (String b s) = Ascii.eqb a b && String.prefix p s.
Proof.
  simpl. destruct (ascii_dec a b) as [->|Hne].
  - now rewrite Ascii.eqb_refl.
  - apply Ascii.eqb_neq in Hne. now rewrite Hne.
Qed.

Lemma prefix_iff (p s : string) :
  String.prefix p s = true <-> exists r, s = (p ++ r)%string.
Proof.
  revert s. induction p as [|a p IH]; intros s.
  - rewrite prefix_nil. split; [intros _; now exists s | reflexivity].
  - destruct s as [|b s].
    + simpl. split; [discriminate | intros [r Hr]; discriminate].
    + rewrite prefix_cons, andb_true_iff, Ascii.eqb_eq, IH. split.
      * intros [-> [r ->]]. now exists r.
      * intros [r Hr]. simpl in Hr. injection Hr as -> ->. split; [reflexivity | now exists r].
Qed.

Lemma startswith_app (p r : string) : Str.startswith (p ++ r) p = true.
Proof. apply prefix_iff. now exists r. Qed.

Lemma endswith_iff (s p : string) :
  Str.endswith s p = true <-> exists q, s = (q ++ p)%string.
Proof.
  induction s as [|a s IH]; cbn [Str.endswith].
  - rewrite orb_false_r, String.eqb_eq. split.
    + intros <-. now exists "".
    + intros [q Hq]. destruct q; simpl in Hq; [assumption | discriminate].
  - rewrite orb_true_iff, String.eqb_eq, IH. split.
    + intros [<- | [q ->]]; [now exists "" | now exists (String a q)].
    + intros [q Hq]. destruct q as [|b q]; simpl in Hq.
      * now left.
      * injection Hq as -> ->. right. now exists q.
Qed.

(** [has c s]: the character [c] occurs in [s]. *)
Lemma contains_char_cons (c a : ascii) (s : string) :
  Str.contains (String c "") (String a s)
  = Ascii.eqb a c || Str.contains (String c "") s.
Proof.
  cbn [Str.contains]. rewrite prefix_cons, prefix_nil, andb_true_r.
  now rewrite Ascii.eqb_sym.
Qed.

Lemma contains_char_nil (c : ascii) : Str.contains (String c "") "" = false.
Proof. reflexivity. Qed.

Lemma contains_char_app (c : ascii) (a b : string) :
  Str.contains (String c "") (a ++ b)
  = Str.contains (String c "") a || Str.contains (String c "") b.
Proof.
  induction a as [|x a IH].
  - reflexivity.
  - change (String x a ++ b)%string with (String x (a ++ b)).
    rewrite !contains_char_cons, IH. now rewrite orb_assoc.
Qed.

Lemma split_nonnil (c : ascii) (s : string) : Str.split c s <> [].
Proof.
  destruct s as [|a s]; simpl; [discriminate|].
  destruct (Ascii.eqb a c); [discriminate|].
  destruct (Str.split c s); discriminate.
Qed.

Lemma split_without (c : ascii) (s : string) :
  Str.contains (String c "") s = false -> Str.split c s = [s].
Proof.
  induction s as [|a s IH]; [reflexivity|].
  rewrite contains_char_cons. intros H. apply orb_false_iff in H as [Ha Hs].
  simpl. rewrite Ha, (IH Hs). reflexivity.
Qed.

Lemma split_app_sep (c : ascii) (a b : string) :
  Str.split c (a ++ String c b) = Str.split c a ++ Str.split c b.
Proof.
  induction a as [|x a IH]; simpl.
  - now rewrite Ascii.eqb_refl.
  - destruct (Ascii.eqb x c).
    + now rewrite IH.
    + rewrite IH. destruct (Str.split c a) as [|h t] eqn:E.
      * now apply split_nonnil in E.
      * reflexivity.
Qed.

Lemma split_parts_without (c : ascii) (s : string) :
  Forall (fun x => Str.contains (String c "") x = false) (Str.split c s).
Proof.
  induction s as [|a s IH]; simpl.
  - now constructor.
  - destruct (Ascii.eqb a c) eqn:E.
    + now constructor.
    + destruct (Str.split c s) as [|h t]; [repeat constructor; now rewrite contains_char_cons, E|].
      inversion IH; subst. constructor; [|assumption].
      now rewrite contains_char_cons, E.
Qed.

Lemma split_join (c : ascii) (l : list string) :
  Forall (fun x => Str.contains (String c "") x = false) l -> l <> [] ->
  Str.split c (Str.join (String c "") l) = l.
Proof.
  intros H Hne. induction l as [|x l IH]; [easy|].
  inversion H as [|? ? Hx Hl]; subst. destruct l as [|y l].
  - simpl. now apply split_without.
  - change (Str.join (String c "") (x :: y :: l))
      with (x ++ String c (Str.join (String c "") (y :: l)))%string.
    rewrite split_app_sep, (split_without _ _ Hx), IH; [reflexivity | assumption | discriminate].
Qed.

Lemma rstrip_app (c : ascii) (a b : string) :
  Str.rstrip c b <> "" -> Str.rstrip c (a ++ b) = (a ++ Str.rstrip c b)%string.
Proof.
  intros Hb. induction a as [|x a IH]; [reflexivity|].
  simpl. rewrite IH. destruct (a ++ Str.rstrip c b)%string eqn:E; [|reflexivity].
  destruct a; simpl in E; [contradiction | discriminate].
Qed.

Lemma rstrip_without (c : ascii) (s : string) :
  Str.contains (String c "") s = false -> Str.rstrip c s = s.
Proof.
  induction s as [|a s IH]; [reflexivity|].
  rewrite contains_char_cons. intros H. apply orb_false_iff in H as [Ha Hs].
  simpl. rewrite (IH Hs), Ha. now destruct s.
Qed.

Lemma replace_same (c : ascii) (s : string) : Str.replace c c s = s.
Proof.
  induction s as [|a s IH]; simpl; [reflexivity|].
  rewrite IH. destruct (Ascii.eqb a c) eqn:E; [|reflexivity].
  apply Ascii.eqb_eq in E. now subst.
Qed.

Lemma ascii_compare_refl (a : ascii) : Ascii.compare a a = Eq.
Proof. unfold Ascii.compare. apply BinNat.N.compare_refl. Qed.

Lemma compare_app (p a b : string) :
  String.compare (p ++ a) (p ++ b) = String.compare a b.
Proof.
  induction p as [|x p IH]; simpl; [reflexivity|].
  now rewrite ascii_compare_refl.
Qed.

Lemma compare_refl (s : string) : String.compare s s = Eq.
Proof. induction s as [|a s IH]; simpl; [reflexivity|]. now rewrite ascii_compare_refl. Qed.

Lemma ascii_compare_lt_trans (a b c : ascii) :
  Ascii.compare a b = Lt -> Ascii.compare b c = Lt -> Ascii.compare a c = Lt.
Proof.
  unfold Ascii.compare. rewrite !BinNat.N.compare_lt_iff. apply BinNat.N.lt_trans.
Qed.

Lemma str_lt_trans (a b c : string) : str_lt a b -> str_lt b c -> str_lt a c.
Proof.
  unfold str_lt, String.ltb. revert b c.
  induction a as [|x a IH]; intros [|y b] [|z c]; simpl; try easy.
  destruct (Ascii.compare x y) eqn:Exy; try easy;
    destruct (Ascii.compare y z) eqn:Eyz; try easy.
  - apply Ascii.compare_eq_iff in Exy, Eyz. subst. rewrite ascii_compare_refl. apply IH.
  - apply Ascii.compare_eq_iff in Exy. subst. now rewrite Eyz.
  - apply Ascii.compare_eq_iff in Eyz. subst. now rewrite Exy.
  - now rewrite (ascii_compare_lt_trans _ _ _ Exy Eyz).
Qed.

Lemma str_lt_irrefl (a : string) : ~ str_lt a a.
Proof. unfold str_lt, String.ltb. now rewrite compare_refl. Qed.

Lemma str_le_lt (a b : string) : str_le a b -> a <> b -> str_lt a b.
Proof.
  unfold str_le, str_lt, String.leb, String.ltb.
  destruct (String.compare a b) eqn:E; try easy.
  apply String.compare_eq_iff in E. now intros _ [].
Qed.

Lemma str_lt_le (a b : string) : str_lt a b -> str_le a b.
Proof.
  unfold str_le, str_lt, String.leb, String.ltb.
  now destruct (String.compare a b).
Qed.

Lemma str_le_total (a b : string) : String.leb a b = false -> str_le b a.
Proof.
  intros H. destruct (String.leb_total a b) as [E|E]; [congruence | exact E].
Qed.

Lemma leb_app (p a b : string) : String.leb (p ++ a) (p ++ b) = String.leb a b.
Proof. unfold String.leb. now rewrite compare_app. Qed.

(** ** Paths *)

Lemma valid_name_iff (n : string) :
  valid_name n = true <->
  n <> "" /\ n <> "." /\ n <> ".." /\ Str.contains "/" n = false.
Proof.
  unfold valid_name. rewrite !andb_true_iff, !negb_true_iff, !String.eqb_neq. tauto.
Qed.

Lemma endswith_without (n : string) :
  Str.contains "/" n = false -> Str.endswith n "/" = false.
Proof.
  induction n as [|x n IH]; [reflexivity|].
  rewrite contains_char_cons. intros H. apply orb_false_iff in H as [Hx Hn].
  cbn [Str.endswith]. rewrite (IH Hn), orb_false_r.
  apply String.eqb_neq. intros E. injection E as -> _. discriminate.
Qed.

Lemma endswith_app_r (a b : string) :
  b <> "" -> Str.endswith (a ++ b) "/" = Str.endswith b "/".
Proof.
  intros Hb. induction a as [|x a IH]; [reflexivity|].
  change (String x a ++ b)%string with (String x (a ++ b)).
  cbn [Str.endswith]. rewrite IH.
  replace (String x (a ++ b) =? "/")%string with false; [reflexivity|].
  symmetry. apply String.eqb_neq. intros E. injection E as _ E.
  destruct a; simpl in E; [contradiction | discriminate].
Qed.

Lemma startswith_sep_valid (n : string) :
  valid_name n = true -> Str.startswith n "/" = false.
Proof.
  intros H. apply valid_name_iff in H as (_ & _ & _ & H).
  destruct (Str.startswith n "/") eqn:E; [|reflexivity].
  apply prefix_iff in E as [r ->].
  change ("/" ++ r)%string with (String "/" r) in H. now rewrite contains_char_cons in H.
Qed.

(** The path of a child: the separator is added unless the directory's
    path ends with it. *)
Lemma join_child (p n : string) :
  p <> "" -> valid_name n = true ->
  exists q, posixpath.join p n = (q ++ String "/" n)%string
            /\ (p = q \/ p = (q ++ "/")%string).
Proof.
  intros Hp Hn. unfold posixpath.join, posixpath.sep_str.
  rewrite (startswith_sep_valid _ Hn).
  apply String.eqb_neq in Hp. rewrite Hp. cbn [orb].
  destruct (Str.endswith p "/") eqn:E.
  - apply endswith_iff in E as [q ->]. exists q. rewrite append_assoc. split; [reflexivity | now right].
  - exists p. split; [reflexivity | now left].
Qed.

Lemma join_extends (p n : string) :
  p <> "" -> valid_name n = true -> exists r, posixpath.join p n = (p ++ r)%string.
Proof.
  intros Hp Hn. destruct (join_child p n Hp Hn) as (q & -> & [-> | ->]).
  - now exists (String "/" n).
  - exists n. now rewrite append_assoc.
Qed.

Lemma isabs_nonempty (p : string) : posixpath.isabs p = true -> p <> "".
Proof. intros H ->. discriminate. Qed.

Lemma isabs_join (p n : string) :
  posixpath.isabs p = true -> valid_name n = true ->
  posixpath.isabs (posixpath.join p n) = true.
Proof.
  intros Hp Hn. destruct (join_extends p n (isabs_nonempty _ Hp) Hn) as [r ->].
  apply prefix_iff in Hp as [t ->]. apply prefix_iff. exists (t ++ r)%string.
  now rewrite append_assoc.
Qed.

Lemma isabs_path_of (p : string) (ns : list string) :
  posixpath.isabs p = true -> Forall (fun n => valid_name n = true) ns ->
  posixpath.isabs (path_of p ns) = true.
Proof.
  revert p. induction ns as [|n ns IH]; intros p Hp H; [exact Hp|].
  inversion H; subst. apply IH; [now apply isabs_join | assumption].
Qed.

(** Facts on absolute paths and on names, for [auto with paths]. *)
Create HintDb paths.
#[global] Hint Resolve isabs_nonempty isabs_join isabs_path_of startswith_sep_valid : paths.

Lemma basename_child (p n : string) :
  p <> "" -> valid_name n = true ->
  posixpath.basename (Str.rstrip posixpath.sep (posixpath.join p n)) = n.
Proof.
  intros Hp Hn. destruct (join_child p n Hp Hn) as (q & -> & _).
  apply valid_name_iff in Hn as (Hne & _ & _ & Hs).
  unfold posixpath.basename, posixpath.sep.
  assert (Hr : Str.rstrip "/" n = n) by now apply rstrip_without.
  change (q ++ String "/" n)%string with (q ++ ("/" ++ n))%string.
  rewrite <- append_assoc, rstrip_app by now rewrite Hr.
  rewrite Hr, append_assoc.
  change (q ++ "/" ++ n)%string with (q ++ String "/" n)%string.
  rewrite split_app_sep, (split_without _ _ Hs). apply last_last.
Qed.

Lemma norm_step_name (b : bool) (comps : list string) (n : string) :
  valid_name n = true -> posixpath.norm_step b comps n = comps ++ [n].
Proof.
  intros Hn. apply valid_name_iff in Hn as (H1 & H2 & H3 & _).
  unfold posixpath.norm_step.
  apply String.eqb_neq in H1, H2, H3. now rewrite H1, H2, H3.
Qed.

Lemma norm_comps_snoc (b : bool) (l : list string) (x : string) :
  posixpath.norm_comps b (l ++ [x]) = posixpath.norm_step b (posixpath.norm_comps b l) x.
Proof. unfold posixpath.norm_comps. now rewrite fold_left_app. Qed.

Lemma norm_comps_child (b : bool) (p n : string) :
  p <> "" -> valid_name n = true ->
  posixpath.norm_comps b (Str.split posixpath.sep (posixpath.join p n))
  = posixpath.norm_comps b (Str.split posixpath.sep p) ++ [n].
Proof.
  intros Hp Hn. destruct (join_child p n Hp Hn) as (q & -> & Hq).
  pose proof Hn as Hv. apply valid_name_iff in Hv as (_ & _ & _ & Hs).
  unfold posixpath.sep.
  rewrite split_app_sep, (split_without _ _ Hs), norm_comps_snoc, (norm_step_name _ _ _ Hn).
  destruct Hq as [-> | ->]; [reflexivity|].
  rewrite split_app_sep. cbn [Str.split]. now rewrite norm_comps_snoc.
Qed.

Lemma norm_comps_path_of (b : bool) (p : string) (ns : list string) :
  posixpath.isabs p = true -> Forall (fun n => valid_name n = true) ns ->
  posixpath.norm_comps b (Str.split posixpath.sep (path_of p ns))
  = posixpath.norm_comps b (Str.split posixpath.sep p) ++ ns.
Proof.
  revert p. induction ns as [|n ns IH]; intros p Hp H.
  - now rewrite app_nil_r.
  - inversion H; subst. cbn [path_of fold_left]. fold (path_of (posixpath.join p n) ns).
    rewrite IH by (try apply isabs_join; assumption).
    rewrite norm_comps_child by (try apply isabs_nonempty; assumption).
    now rewrite <- app_assoc.
Qed.

Lemma Forall_removelast {A : Type} (P : A -> Prop) (l : list A) :
  Forall P l -> Forall P (removelast l).
Proof.
  induction 1 as [|x l Hx Hl IH]; [constructor|].
  simpl. destruct l; [constructor | now constructor].
Qed.

Lemma norm_comps_ok (b : bool) (l : list string) :
  Forall (fun x => Str.contains "/" x = false) l -> Forall comp_ok (posixpath.norm_comps b l).
Proof.
  unfold posixpath.norm_comps. generalize (@nil string) (Forall_nil comp_ok).
  induction l as [|x l IH]; intros acc Hacc H; [exact Hacc|].
  inversion H; subst. apply IH; [|assumption].
  unfold posixpath.norm_step.
  destruct (x =? "")%string eqn:E; [exact Hacc|]. cbn [orb].
  destruct (x =? ".")%string; [exact Hacc|].
  match goal with |- Forall _ (if ?c then _ else _) => destruct c end.
  - apply Forall_app. split; [exact Hacc|]. repeat constructor; [now apply String.eqb_neq | assumption].
  - now apply Forall_removelast.
Qed.

Lemma filter_nonempty_ok (l : list string) :
  Forall comp_ok l -> filter posixpath.nonempty l = l.
Proof.
  induction 1 as [|x l [Hx _] Hl IH]; [reflexivity|].
  simpl. unfold posixpath.nonempty at 1. apply String.eqb_neq in Hx. rewrite Hx. cbn. now rewrite IH.
Qed.

Lemma comps_of_join (l : list string) :
  Forall comp_ok l ->
  filter posixpath.nonempty (Str.split posixpath.sep (Str.join "/" l)) = l.
Proof.
  intros H. destruct l as [|x l]; [reflexivity|].
  change "/" with (String posixpath.sep "").
  rewrite split_join; [now apply filter_nonempty_ok | | discriminate].
  eapply Forall_impl; [|exact H]. now intros a [_ Ha].
Qed.

(** The components of the normalised form of an absolute path. *)
Lemma comps_normpath (p : string) :
  posixpath.isabs p = true ->
  filter posixpath.nonempty (Str.split posixpath.sep (posixpath.normpath p))
  = posixpath.norm_comps true (Str.split posixpath.sep p).
Proof.
  intros Hp. unfold posixpath.normpath.
  pose proof (isabs_nonempty _ Hp) as Hne. apply String.eqb_neq in Hne. rewrite Hne.
  unfold posixpath.isabs, posixpath.sep_str in Hp. rewrite Hp.
  pose proof (norm_comps_ok true _ (split_parts_without posixpath.sep p)) as Hok.
  set (comps := posixpath.norm_comps true (Str.split posixpath.sep p)) in *.
  clearbody comps. unfold posixpath.sep_str, posixpath.sep.
  destruct (Str.startswith p "//" && negb (Str.startswith p "///"));
    cbn [String.append String.eqb Str.split Ascii.eqb Bool.eqb filter posixpath.nonempty negb];
    now apply comps_of_join.
Qed.

Lemma commonprefix_app (s l : list string) : posixpath.commonprefix s (s ++ l) = s.
Proof.
  induction s as [|x s IH]; simpl; [now destruct l|].
  now rewrite String.eqb_refl, IH.
Qed.

Lemma join_all_valid (ns : list string) :
  Forall (fun n => valid_name n = true) ns -> ns <> [] ->
  posixpath.join_all ns = Str.join "/" ns.
Proof.
  intros H Hne. destruct ns as [|x ns]; [easy|]. clear Hne.
  inversion H as [|? ? Hx Hns]; subst. cbn [posixpath.join_all].
  assert (Hx' : x <> "" /\ Str.endswith x "/" = false).
  { apply valid_name_iff in Hx as (? & _ & _ & ?). split; [assumption | now apply endswith_without]. }
  clear Hx H. revert x Hx'. induction ns as [|n ns IH]; intros x [Hx1 Hx2]; [reflexivity|].
  inversion Hns as [|? ? Hn Hns']; subst. cbn [fold_left].
  assert (E : posixpath.join x n = (x ++ "/" ++ n)%string).
  { unfold posixpath.join, posixpath.sep_str. rewrite (startswith_sep_valid _ Hn), Hx2.
    apply String.eqb_neq in Hx1. now rewrite Hx1. }
  rewrite E, IH; [| assumption |].
  - unfold Str.join. destruct ns; cbn [String.concat]; now rewrite ?append_assoc.
  - apply valid_name_iff in Hn as (Hn1 & _ & _ & Hn2). split.
    + destruct x; simpl; [contradiction | discriminate].
    + rewrite <- append_assoc, endswith_app_r by assumption. now apply endswith_without.
Qed.

(** The relative path of an entry is made of the names from the root down
    to it. *)
Lemma relpath_path_of (cwd initial_path : string) (ns : list string) :
  posixpath.isabs initial_path = true ->
  Forall (fun n => valid_name n = true) ns -> ns <> [] ->
  posixpath.relpath cwd (path_of initial_path ns) initial_path = Str.join "/" ns.
Proof.
  intros Hp H Hne. unfold posixpath.relpath, posixpath.abspath.
  rewrite Hp, (isabs_path_of _ _ Hp H), !comps_normpath by (try apply isabs_path_of; assumption).
  rewrite (norm_comps_path_of _ _ _ Hp H), commonprefix_app, Nat.sub_diag.
  cbn [repeat app]. rewrite skipn_app, skipn_all, Nat.sub_diag. cbn [skipn app].
  destruct ns as [|n ns]; [easy|]. now apply join_all_valid.
Qed.

Lemma endswith_join (ns : list string) :
  Forall (fun n => valid_name n = true) ns -> ns <> [] ->
  Str.endswith (Str.join "/" ns) "/" = false.
Proof.
  intros H Hne. induction ns as [|x ns IH]; [easy|].
  inversion H as [|? ? Hx Hns]; subst.
  apply valid_name_iff in Hx as (Hx1 & _ & _ & Hx2).
  destruct ns as [|y ns]; [now apply endswith_without|].
  change (Str.join "/" (x :: y :: ns)) with (x ++ ("/" ++ Str.join "/" (y :: ns)))%string.
  rewrite <- append_assoc, endswith_app_r; [apply IH; [assumption | discriminate]|].
  inversion Hns as [|? ? Hy _]; subst. apply valid_name_iff in Hy as (Hy & _).
  unfold Str.join. destruct ns; cbn [String.concat]; [assumption|].
  destruct y; [contradiction | discriminate].
Qed.

Lemma rel_entry_path_of (cwd initial_path : string) (ns : list string) (n : fsnode) :
  posixpath.isabs initial_path = true ->
  Forall (fun n => valid_name n = true) ns -> ns <> [] ->
  rel_entry cwd initial_path (path_of initial_path ns) n = entry_of ns (isdir n).
Proof.
  intros Hp H Hne. unfold rel_entry, entry_of.
  rewrite (relpath_path_of _ _ _ Hp H Hne), replace_same, (endswith_join _ H Hne).
  destruct (isdir n); [reflexivity | now rewrite append_nil_r].
Qed.

Lemma entry_of_inj (ns ns' : list string) (d d' : bool) :
  Forall (fun n => valid_name n = true) ns -> Forall (fun n => valid_name n = true) ns' ->
  ns <> [] -> ns' <> [] ->
  entry_of ns d = entry_of ns' d' -> ns = ns' /\ d = d'.
Proof.
  intros H H' Hne Hne' E.
  assert (Hs : forall l, Forall (fun n => valid_name n = true) l ->
                         Forall (fun x => Str.contains (String posixpath.sep "") x = false) l).
  { intros l Hl. eapply Forall_impl; [|exact Hl]. intros a Ha. now apply valid_name_iff in Ha. }
  assert (Hsplit : forall l b, Forall (fun n => valid_name n = true) l -> l <> [] ->
            Str.split posixpath.sep (entry_of l b) = l ++ if b then [""] else []).
  { intros l b Hl Hn. unfold entry_of. destruct b.
    - change "/" with (String posixpath.sep "") at 2. rewrite split_app_sep.
      change "/" with (String posixpath.sep ""). now rewrite split_join by auto.
    - rewrite append_nil_r, app_nil_r. change "/" with (String posixpath.sep "").
      now rewrite split_join by auto. }
  apply (f_equal (Str.split posixpath.sep)) in E. rewrite !Hsplit in E by assumption.
  assert (Hempty : forall l, Forall (fun n => valid_name n = true) l -> ~ In "" l).
  { intros l Hl Hin. rewrite Forall_forall in Hl. now specialize (Hl _ Hin). }
  destruct d, d'.
  - apply app_inj_tail in E as [-> _]. now split.
  - exfalso. apply (Hempty ns' H'). rewrite app_nil_r in E. rewrite <- E. apply in_or_app. right. now left.
  - exfalso. apply (Hempty ns H). rewrite app_nil_r in E. rewrite E. apply in_or_app. right. now left.
  - rewrite !app_nil_r in E. now split.
Qed.

Lemma path_of_neq (initial_path : string) (ns : list string) :
  posixpath.isabs initial_path = true ->
  Forall (fun n => valid_name n = true) ns -> ns <> [] ->
  path_of initial_path ns <> initial_path.
Proof.
  intros Hp H Hne E.
  pose proof (norm_comps_path_of true _ _ Hp H) as Hc. rewrite E in Hc.
  apply (f_equal (@length string)) in Hc. rewrite length_app in Hc.
  destruct ns; [easy | simpl in Hc; lia].
Qed.

Lemma path_of_app (p : string) (ns ms : list string) :
  path_of p (ns ++ ms) = path_of (path_of p ns) ms.
Proof. unfold path_of. apply fold_left_app. Qed.

(** ** The skip test *)

Lemma should_skip_hidden (p n : string) (ignore_patterns : list string) :
  p <> "" -> valid_name n = true -> Str.startswith n "." = true ->
  should_skip (posixpath.join p n) ignore_patterns = true.
Proof.
  intros Hp Hn Hdot. unfold should_skip. rewrite (basename_child _ _ Hp Hn), Hdot.
  apply valid_name_iff in Hn as (_ & Hn & _). apply String.eqb_neq in Hn. now rewrite Hn.
Qed.

Lemma should_skip_pattern (path pattern : string) (ignore_patterns : list string) :
  In pattern ignore_patterns -> fnmatch.fnmatch path pattern = true ->
  should_skip path ignore_patterns = true.
Proof.
  intros Hin Hm. unfold should_skip.
  assert (E : existsb (fun pattern => fnmatch.fnmatch path pattern) ignore_patterns = true)
    by (apply existsb_exists; now exists pattern).
  rewrite E.
  repeat match goal with |- (if ?c then true else _) = true => destruct c; [reflexivity|] end.
  reflexivity.
Qed.

(** ** Sorting *)

Section SortFacts.
Context {A : Type} (key : A -> string).

Lemma insert_sorted_perm (x : A) (l : list A) :
  Permutation (insert_sorted key x l) (x :: l).
Proof.
  induction l as [|y l IH]; simpl; [reflexivity|].
  destruct (String.leb (key x) (key y)); [reflexivity|].
  rewrite IH. apply perm_swap.
Qed.

Lemma sort_by_perm (l : list A) : Permutation (sort_by key l) l.
Proof.
  induction l as [|x l IH]; simpl; [reflexivity|].
  rewrite insert_sorted_perm. now constructor.
Qed.

Lemma insert_sorted_sorted (x : A) (l : list A) :
  Sorted (fun a b => str_le (key a) (key b)) l ->
  Sorted (fun a b => str_le (key a) (key b)) (insert_sorted key x l).
Proof.
  induction 1 as [|y l Hl IH Hy]; simpl; [repeat constructor|].
  destruct (String.leb (key x) (key y)) eqn:E.
  - constructor; [now constructor | now constructor].
  - constructor; [assumption|].
    apply str_le_total in E. destruct l as [|z l]; simpl.
    + now constructor.
    + inversion Hy; subst. destruct (String.leb (key x) (key z)); now constructor.
Qed.

Lemma sort_by_sorted (l : list A) :
  Sorted (fun a b => str_le (key a) (key b)) (sort_by key l).
Proof.
  induction l as [|x l IH]; simpl; [constructor | now apply insert_sorted_sorted].
Qed.

(** Sorting a sorted list changes nothing. *)
Lemma sort_by_id (l : list A) :
  Sorted (fun a b => str_le (key a) (key b)) l -> sort_by key l = l.
Proof.
  induction 1 as [|x l Hl IH Hx]; simpl; [reflexivity|].
  rewrite IH. destruct Hx as [|y l Hxy]; simpl; [reflexivity|].
  unfold str_le in Hxy. now rewrite Hxy.
Qed.
End SortFacts.

Lemma insert_sorted_map {A B : Type} (key : B -> string) (f : A -> B) (x : A) (l : list A) :
  insert_sorted key (f x) (map f l) = map f (insert_sorted (fun a => key (f a)) x l).
Proof.
  induction l as [|y l IH]; simpl; [reflexivity|].
  destruct (String.leb (key (f x)) (key (f y))); simpl; [reflexivity | now rewrite IH].
Qed.

Lemma sort_by_map {A B : Type} (key : B -> string) (f : A -> B) (l : list A) :
  sort_by key (map f l) = map f (sort_by (fun a => key (f a)) l).
Proof.
  induction l as [|x l IH]; simpl; [reflexivity|].
  now rewrite IH, insert_sorted_map.
Qed.

Lemma insert_sorted_ext {A : Type} (k1 k2 : A -> string) (x : A) (l : list A) :
  (forall a b, String.leb (k1 a) (k1 b) = String.leb (k2 a) (k2 b)) ->
  insert_sorted k1 x l = insert_sorted k2 x l.
Proof.
  intros H. induction l as [|y l IH]; simpl; [reflexivity|]. now rewrite H, IH.
Qed.

Lemma sort_by_ext {A : Type} (k1 k2 : A -> string) (l : list A) :
  (forall a b, String.leb (k1 a) (k1 b) = String.leb (k2 a) (k2 b)) ->
  sort_by k1 l = sort_by k2 l.
Proof.
  intros H. induction l as [|x l IH]; simpl; [reflexivity|].
  now rewrite IH, (insert_sorted_ext k1 k2 _ _ H).
Qed.

Lemma str_le_trans (a b c : string) : str_le a b -> str_le b c -> str_le a c.
Proof.
  intros Hab Hbc.
  destruct (String.eqb_spec a b) as [->|Nab]; [assumption|].
  destruct (String.eqb_spec b c) as [<-|Nbc]; [assumption|].
  apply str_lt_le. eapply str_lt_trans; apply str_le_lt; eassumption.
Qed.

(** A sorted list without repetition is strictly sorted. *)
Lemma sorted_nodup_strict (l : list string) :
  Sorted str_le l -> NoDup l -> StronglySorted str_lt l.
Proof.
  intros Hs Hn. apply Sorted_StronglySorted in Hs; [|exact str_le_trans].
  induction Hs as [|x l Hl IH Hx]; [constructor|].
  inversion Hn as [|? ? Hnx Hnl]; subst. constructor; [now apply IH|].
  rewrite Forall_forall in *. intros y Hy. apply str_le_lt; [now apply Hx|].
  intros ->. contradiction.
Qed.

Lemma filter_all {A : Type} (f : A -> bool) (l : list A) :
  Forall (fun x => f x = true) l -> filter f l = l.
Proof.
  induction 1 as [|x l Hx Hl IH]; simpl; [reflexivity|]. now rewrite Hx, IH.
Qed.

(** ** Induction on the file system *)

Lemma fsnode_induction (P : fsnode -> Prop) :
  (forall name, P (File name)) ->
  (forall name raises children, Forall P children -> P (Dir name raises children)) ->
  forall n, P n.
Proof.
  intros Hfile Hdir. fix IH 1. intros [name | name raises children].
  - apply Hfile.
  - apply Hdir. induction children as [|c children IHc]; constructor; [apply IH | exact IHc].
Qed.

Lemma valid_tree_dir (name : string) (raises : option oserror) (children : list fsnode) :
  valid_tree (Dir name raises children) = true <->
  Forall (fun c => valid_name (node_name c) = true) children
  /\ NoDup (map node_name children)
  /\ Forall (fun c => valid_tree c = true) children.
Proof.
  cbn [valid_tree]. rewrite !andb_true_iff, !forallb_forall, <- !Forall_forall.
  assert (Hn : forall l, nodupb l = true <-> NoDup l).
  { induction l as [|x l IH]; simpl.
    - split; [constructor | reflexivity].
    - rewrite andb_true_iff, negb_true_iff, IH. split.
      + intros [Hx Hl]. constructor; [|assumption]. intros Hin.
        assert (E : existsb (String.eqb x) l = true)
          by (apply existsb_exists; exists x; split; [assumption | apply String.eqb_refl]).
        congruence.
      + intros Hnd. inversion Hnd as [|? ? Hx Hl]; subst. split; [|assumption].
        destruct (existsb (String.eqb x) l) eqn:E; [|reflexivity].
        apply existsb_exists in E as (y & Hy & Exy). apply String.eqb_eq in Exy. now subst. }
  rewrite Hn. tauto.
Qed.

Lemma reaches_valid (root n : fsnode) (ns : list string) :
  reaches root ns n -> valid_tree root = true ->
  Forall (fun x => valid_name x = true) ns /\ valid_tree n = true.
Proof.
  induction 1 as [n | name children c ns n Hin Hr IH]; intros Hv; [now split|].
  apply valid_tree_dir in Hv as (Hnames & _ & Hsub).
  rewrite Forall_forall in Hnames, Hsub.
  destruct (IH (Hsub _ Hin)) as [Hns Hn]. split; [|assumption].
  constructor; [now apply Hnames | assumption].
Qed.

(** ** The loop of the scan *)

Section ScanFacts.
Variables (cwd initial_path : string) (ignore_patterns : list string).

Lemma scan_step_spec (path : string) (n : fsnode) (rest : list (string * fsnode))
      (st : scan_state) :
  scan_step cwd initial_path ignore_patterns path n rest st =
  if should_skip path ignore_patterns then
    Returns {| results := results st; queue := rest; file_count := file_count st |}
  else
    match listed ignore_patterns path n with
    | Returns q =>
        Returns {| results := results st ++ own_entry cwd initial_path path n;
                   queue := rest ++ q;
                   file_count := file_count st + counted initial_path path n |}
    | Raises e => Raises e
    | OutOfFuel => OutOfFuel
    end.
Proof.
  unfold scan_step, own_entry, counted, listed.
  destruct (should_skip path ignore_patterns); [reflexivity|].
  destruct (path =? initial_path)%string; destruct n as [name | name [[]|] children];
    cbn; rewrite ?app_nil_r, ?Nat.add_0_r; reflexivity.
Qed.

Lemma scan_loop_eq (fuel : nat) (st : scan_state) :
  scan_loop cwd initial_path ignore_patterns fuel st =
  match queue st with
  | [] => Returns st
  | (path, n) :: rest =>
      if file_count st <? MAX_FILES then
        match fuel with
        | 0 => OutOfFuel
        | S fuel' =>
            match scan_step cwd initial_path ignore_patterns path n rest st with
            | Returns st' => scan_loop cwd initial_path ignore_patterns fuel' st'
            | Raises e => Raises e
            | OutOfFuel => OutOfFuel
            end
        end
      else Returns st
  end.
Proof. destruct fuel; reflexivity. Qed.

Lemma walk_eq (path : string) (n : fsnode) :
  walk cwd initial_path ignore_patterns path n =
  if should_skip path ignore_patterns then []
  else own_entry cwd initial_path path n
       ++ match n with
          | Dir _ None children =>
              flat_map (fun c => walk cwd initial_path ignore_patterns
                                   (posixpath.join path (node_name c)) c) children
          | _ => []
          end.
Proof.
  destruct n as [name | name [e|] children]; reflexivity.
Qed.

Lemma walk_skipped (path : string) (n : fsnode) :
  should_skip path ignore_patterns = true -> walk cwd initial_path ignore_patterns path n = [].
Proof. intros H. now rewrite walk_eq, H. Qed.

Lemma walk_queue_app (q1 q2 : list (string * fsnode)) :
  walk_queue cwd initial_path ignore_patterns (q1 ++ q2)
  = walk_queue cwd initial_path ignore_patterns q1
    ++ walk_queue cwd initial_path ignore_patterns q2.
Proof. apply flat_map_app. Qed.

Lemma walk_queue_filter (q : list (string * fsnode)) :
  walk_queue cwd initial_path ignore_patterns
    (filter (fun e => negb (should_skip (fst e) ignore_patterns)) q)
  = walk_queue cwd initial_path ignore_patterns q.
Proof.
  induction q as [|[p n] q IH]; [reflexivity|]. cbn [filter fst].
  destruct (should_skip p ignore_patterns) eqn:E; cbn [negb].
  - rewrite IH. unfold walk_queue. cbn [flat_map fst snd]. now rewrite walk_skipped.
  - unfold walk_queue in *. cbn [flat_map]. now rewrite IH.
Qed.

Lemma walk_queue_enqueued (path : string) (children : list fsnode) :
  Permutation
    (walk_queue cwd initial_path ignore_patterns (enqueued ignore_patterns path children))
    (flat_map (fun c => walk cwd initial_path ignore_patterns
                          (posixpath.join path (node_name c)) c) children).
Proof.
  unfold enqueued. rewrite walk_queue_filter. unfold walk_queue.
  rewrite (Permutation_flat_map _ (sort_by_perm fst _)).
  induction children as [|c children IH]; [reflexivity|].
  cbn [map flat_map fst snd]. now apply Permutation_app_head.
Qed.

Lemma listed_walk (path : string) (n : fsnode) (q : list (string * fsnode)) :
  listed ignore_patterns path n = Returns q ->
  Permutation (walk_queue cwd initial_path ignore_patterns q)
    match n with
    | Dir _ None children =>
        flat_map (fun c => walk cwd initial_path ignore_patterns
                             (posixpath.join path (node_name c)) c) children
    | _ => []
    end.
Proof.
  destruct n as [name | name [e|] children]; cbn [listed].
  - intros [= <-]. reflexivity.
  - destruct (caught e); [intros [= <-]; reflexivity | discriminate].
  - intros [= <-]. apply walk_queue_enqueued.
Qed.

Lemma scan_step_walk (path : string) (n : fsnode) (rest : list (string * fsnode))
      (st st' : scan_state) :
  scan_step cwd initial_path ignore_patterns path n rest st = Returns st' ->
  Permutation (results st' ++ walk_queue cwd initial_path ignore_patterns (queue st'))
              (results st ++ walk_queue cwd initial_path ignore_patterns ((path, n) :: rest)).
Proof.
  rewrite scan_step_spec. unfold walk_queue at 2. cbn [flat_map fst snd].
  fold (walk_queue cwd initial_path ignore_patterns rest).
  destruct (should_skip path ignore_patterns) eqn:E.
  - intros [= <-]. cbn [results queue]. now rewrite walk_skipped.
  - destruct (listed ignore_patterns path n) as [q| |] eqn:L; try discriminate.
    intros [= <-]. cbn [results queue]. rewrite walk_eq, E, walk_queue_app, <- !app_assoc.
    apply Permutation_app_head, Permutation_app_head.
    rewrite (listed_walk _ _ _ L). apply Permutation_app_comm.
Qed.

(** What every round of the loop keeps, the loop keeps. *)
Lemma scan_loop_invariant (I : scan_state -> Prop) :
  (forall path n rest st st',
      queue st = (path, n) :: rest -> I st ->
      scan_step cwd initial_path ignore_patterns path n rest st = Returns st' -> I st') ->
  forall fuel st st',
    I st -> scan_loop cwd initial_path ignore_patterns fuel st = Returns st' -> I st'.
Proof.
  intros Hstep fuel. induction fuel as [|fuel IH]; intros st st' Hst; rewrite scan_loop_eq;
    destruct (queue st) as [|[path n] rest] eqn:Q; try (now intros [= <-]);
    destruct (file_count st <? MAX_FILES); try (now intros [= <-]); try discriminate.
  destruct (scan_step cwd initial_path ignore_patterns path n rest st) as [st1| |] eqn:S1;
    try discriminate.
  apply IH. now apply (Hstep path n rest st).
Qed.

Lemma scan_loop_walk (fuel : nat) (st st' : scan_state) :
  scan_loop cwd initial_path ignore_patterns fuel st = Returns st' ->
  Permutation (results st' ++ walk_queue cwd initial_path ignore_patterns (queue st'))
              (results st ++ walk_queue cwd initial_path ignore_patterns (queue st)).
Proof.
  apply (scan_loop_invariant
           (fun s => Permutation
                       (results s ++ walk_queue cwd initial_path ignore_patterns (queue s))
                       (results st ++ walk_queue cwd initial_path ignore_patterns (queue st))));
    [|reflexivity].
  intros path n rest s s' Q Hs Hstep. rewrite <- Hs, Q. now apply scan_step_walk.
Qed.

(** The loop ends with an empty queue or a full counter. *)
Lemma scan_loop_final (fuel : nat) (st st' : scan_state) :
  scan_loop cwd initial_path ignore_patterns fuel st = Returns st' ->
  queue st' = [] \/ MAX_FILES <= file_count st'.
Proof.
  revert st. induction fuel as [|fuel IH]; intros st; rewrite scan_loop_eq;
    destruct (queue st) as [|[path n] rest] eqn:Q; try (intros [= <-]; now left);
    destruct (file_count st <? MAX_FILES) eqn:C;
    try (intros [= <-]; right; now apply Nat.ltb_ge in C); try discriminate.
  destruct (scan_step cwd initial_path ignore_patterns path n rest st) as [st1| |] eqn:S1;
    try discriminate.
  apply IH.
Qed.

(** *** Fuel *)

Lemma queue_weight_app (q1 q2 : list (string * fsnode)) :
  queue_weight (q1 ++ q2) = queue_weight q1 + queue_weight q2.
Proof. induction q1 as [|e q1 IH]; simpl; [reflexivity | rewrite IH; lia]. Qed.

Lemma queue_weight_perm (q1 q2 : list (string * fsnode)) :
  Permutation q1 q2 -> queue_weight q1 = queue_weight q2.
Proof. induction 1; simpl; lia. Qed.

Lemma queue_weight_filter (f : string * fsnode -> bool) (q : list (string * fsnode)) :
  queue_weight (filter f q) <= queue_weight q.
Proof. induction q as [|e q IH]; simpl; [lia|]. destruct (f e); simpl; lia. Qed.

Lemma node_size_pos (n : fsnode) : 1 <= node_size n.
Proof. destruct n; simpl; lia. Qed.

Lemma listed_weight (path : string) (n : fsnode) (q : list (string * fsnode)) :
  listed ignore_patterns path n = Returns q -> queue_weight q < node_size n.
Proof.
  destruct n as [name | name [e|] children]; cbn [listed].
  - intros [= <-]. simpl. lia.
  - destruct (caught e); [intros [= <-]; simpl; lia | discriminate].
  - intros [= <-]. unfold enqueued.
    eapply Nat.le_lt_trans; [apply queue_weight_filter|].
    rewrite (queue_weight_perm _ _ (sort_by_perm fst _)). cbn [node_size].
    apply Nat.lt_succ_r. induction children as [|c children IH]; simpl in *; lia.
Qed.

Lemma scan_loop_total (fuel : nat) (st : scan_state) :
  queue_weight (queue st) <= fuel ->
  scan_loop cwd initial_path ignore_patterns fuel st <> OutOfFuel.
Proof.
  revert st. induction fuel as [|fuel IH]; intros st Hw; rewrite scan_loop_eq;
    destruct (queue st) as [|[path n] rest] eqn:Q; try discriminate;
    destruct (file_count st <? MAX_FILES); try discriminate.
  - simpl in Hw. pose proof (node_size_pos n). lia.
  - rewrite scan_step_spec. destruct (should_skip path ignore_patterns).
    + apply IH. cbn [queue]. simpl in Hw. pose proof (node_size_pos n). lia.
    + destruct (listed ignore_patterns path n) as [q| |] eqn:L; try discriminate.
      * apply IH. cbn [queue]. rewrite queue_weight_app. apply listed_weight in L.
        simpl in Hw. lia.
      * destruct n as [name | name [e|] children]; cbn [listed] in L; try discriminate.
        now destruct (caught e).
Qed.

(** More fuel does not change what the loop returns. *)
Lemma scan_loop_more_fuel (fuel fuel' : nat) (st : scan_state) (r : outcome scan_state) :
  scan_loop cwd initial_path ignore_patterns fuel st = r -> r <> OutOfFuel -> fuel <= fuel' ->
  scan_loop cwd initial_path ignore_patterns fuel' st = r.
Proof.
  revert fuel' st. induction fuel as [|fuel IH]; intros fuel' st; rewrite !scan_loop_eq;
    destruct (queue st) as [|[path n] rest] eqn:Q; try easy;
    destruct (file_count st <? MAX_FILES); try easy.
  - intros <-. easy.
  - intros H Hr Hle. destruct fuel' as [|fuel']; [lia|].
    destruct (scan_step cwd initial_path ignore_patterns path n rest st) as [st1| |];
      try assumption.
    apply IH; [assumption | assumption | lia].
Qed.

(** *** The listing *)

Lemma list_directory_total (root : fsnode) :
  list_directory cwd initial_path ignore_patterns root <> OutOfFuel.
Proof.
  unfold list_directory.
  pose proof (scan_loop_total (node_size root)
                {| results := []; queue := [(initial_path, root)]; file_count := 0 |}) as H.
  destruct (scan_loop _ _ _ _ _); try discriminate.
  exfalso. apply H; [simpl; lia | reflexivity].
Qed.

Lemma list_directory_walk (root : fsnode) (listing : list string) :
  list_directory cwd initial_path ignore_patterns root = Returns listing ->
  exists rest,
    Permutation (listing ++ rest) (walk cwd initial_path ignore_patterns initial_path root).
Proof.
  unfold list_directory.
  destruct (scan_loop _ _ _ _ _) as [st| |] eqn:L; try discriminate.
  intros [= <-]. apply scan_loop_walk in L. cbn [results queue app] in L.
  unfold walk_queue at 2 in L. cbn [flat_map fst snd] in L. rewrite app_nil_r in L.
  exists (walk_queue cwd initial_path ignore_patterns (queue st)).
  rewrite <- L. apply Permutation_app_tail. unfold sort_strings. apply sort_by_perm.
Qed.

Lemma list_directory_sorted (root : fsnode) (listing : list string) :
  list_directory cwd initial_path ignore_patterns root = Returns listing ->
  Sorted str_le listing.
Proof.
  unfold list_directory.
  destruct (scan_loop _ _ _ _ _) as [st| |]; try discriminate.
  intros [= <-]. apply (sort_by_sorted (fun s : string => s)).
Qed.

(** *** Errors *)

Lemma listed_only_caught (path : string) (n : fsnode) :
  only_caught n = true ->
  exists q, listed ignore_patterns path n = Returns q
            /\ Forall (fun e => only_caught (snd e) = true) q.
Proof.
  destruct n as [name | name [e|] children]; cbn [listed only_caught]; intros H.
  - now exists [].
  - rewrite H. now exists [].
  - eexists. split; [reflexivity|]. unfold enqueued.
    apply incl_Forall with (l1 := map (fun c => (posixpath.join path (node_name c), c)) children).
    + intros x Hx. apply filter_In in Hx as [Hx _].
      now apply (Permutation_in _ (sort_by_perm fst _)) in Hx.
    + rewrite forallb_forall in H. apply Forall_forall. intros x Hx.
      apply in_map_iff in Hx as (c & <- & Hc). now apply H.
Qed.

Lemma scan_loop_returns (fuel : nat) (st : scan_state) :
  Forall (fun e => only_caught (snd e) = true) (queue st) ->
  queue_weight (queue st) <= fuel ->
  exists st', scan_loop cwd initial_path ignore_patterns fuel st = Returns st'.
Proof.
  revert st. induction fuel as [|fuel IH]; intros st Hq Hw; rewrite scan_loop_eq;
    destruct (queue st) as [|[path n] rest] eqn:Q; try (now exists st);
    destruct (file_count st <? MAX_FILES); try (now exists st).
  - simpl in Hw. pose proof (node_size_pos n). lia.
  - inversion Hq as [|? ? Hn Hrest]; subst. cbn [snd] in Hn.
    rewrite scan_step_spec. simpl in Hw. pose proof (node_size_pos n).
    destruct (should_skip path ignore_patterns).
    + apply IH; cbn [queue]; [assumption | lia].
    + destruct (listed_only_caught path n Hn) as (q & L & Hok). rewrite L.
      apply IH; cbn [queue].
      * apply Forall_app. now split.
      * rewrite queue_weight_app. apply listed_weight in L. lia.
Qed.

Lemma list_directory_returns (root : fsnode) :
  only_caught root = true ->
  exists listing, list_directory cwd initial_path ignore_patterns root = Returns listing.
Proof.
  intros H. unfold list_directory.
  destruct (scan_loop_returns (node_size root)
              {| results := []; queue := [(initial_path, root)]; file_count := 0 |})
    as [st ->].
  - now repeat constructor.
  - simpl. lia.
  - eexists. reflexivity.
Qed.

(** *** The counter *)

Lemma walk_count_eq (path : string) (n : fsnode) :
  walk_count initial_path ignore_patterns path n =
  if should_skip path ignore_patterns then 0
  else counted initial_path path n
       + match n with
         | Dir _ None children =>
             fold_right
               (fun c acc => walk_count initial_path ignore_patterns
                               (posixpath.join path (node_name c)) c + acc) 0 children
         | _ => 0
         end.
Proof. destruct n as [name | name [e|] children]; reflexivity. Qed.

Lemma queue_count_cons (p : string) (n : fsnode) (q : list (string * fsnode)) :
  queue_count initial_path ignore_patterns ((p, n) :: q)
  = walk_count initial_path ignore_patterns p n + queue_count initial_path ignore_patterns q.
Proof. reflexivity. Qed.

Lemma queue_count_app (q1 q2 : list (string * fsnode)) :
  queue_count initial_path ignore_patterns (q1 ++ q2)
  = queue_count initial_path ignore_patterns q1 + queue_count initial_path ignore_patterns q2.
Proof. induction q1 as [|e q1 IH]; simpl; [reflexivity | rewrite IH; lia]. Qed.

Lemma queue_count_perm (q1 q2 : list (string * fsnode)) :
  Permutation q1 q2 ->
  queue_count initial_path ignore_patterns q1 = queue_count initial_path ignore_patterns q2.
Proof. induction 1; simpl; lia. Qed.

Lemma queue_count_filter (q : list (string * fsnode)) :
  queue_count initial_path ignore_patterns
    (filter (fun e => negb (should_skip (fst e) ignore_patterns)) q)
  = queue_count initial_path ignore_patterns q.
Proof.
  induction q as [|[p n] q IH]; [reflexivity|]. cbn [filter fst].
  destruct (should_skip p ignore_patterns) eqn:E; cbn [negb]; rewrite !queue_count_cons, IH.
  - now rewrite walk_count_eq, E.
  - reflexivity.
Qed.

Lemma listed_count (path : string) (n : fsnode) (q : list (string * fsnode)) :
  listed ignore_patterns path n = Returns q ->
  queue_count initial_path ignore_patterns q
  = match n with
    | Dir _ None children =>
        fold_right
          (fun c acc => walk_count initial_path ignore_patterns
                          (posixpath.join path (node_name c)) c + acc) 0 children
    | _ => 0
    end.
Proof.
  destruct n as [name | name [e|] children]; cbn [listed].
  - now intros [= <-].
  - destruct (caught e); [now intros [= <-] | discriminate].
  - intros [= <-]. unfold enqueued.
    rewrite queue_count_filter, (queue_count_perm _ _ (sort_by_perm fst _)).
    induction children as [|c children IH]; [reflexivity|].
    cbn [map fold_right]. now rewrite queue_count_cons, IH.
Qed.

Lemma scan_step_count (path : string) (n : fsnode) (rest : list (string * fsnode))
      (st st' : scan_state) :
  scan_step cwd initial_path ignore_patterns path n rest st = Returns st' ->
  file_count st' + queue_count initial_path ignore_patterns (queue st')
  = file_count st + queue_count initial_path ignore_patterns ((path, n) :: rest).
Proof.
  rewrite scan_step_spec, queue_count_cons, walk_count_eq.
  destruct (should_skip path ignore_patterns).
  - now intros [= <-].
  - destruct (listed ignore_patterns path n) as [q| |] eqn:L; try discriminate.
    intros [= <-]. cbn [file_count queue].
    rewrite queue_count_app, (listed_count _ _ _ L). lia.
Qed.

Lemma scan_loop_count (fuel : nat) (st st' : scan_state) :
  scan_loop cwd initial_path ignore_patterns fuel st = Returns st' ->
  file_count st' + queue_count initial_path ignore_patterns (queue st')
  = file_count st + queue_count initial_path ignore_patterns (queue st).
Proof.
  apply (scan_loop_invariant
           (fun s => file_count s + queue_count initial_path ignore_patterns (queue s)
                     = file_count st + queue_count initial_path ignore_patterns (queue st)));
    [|reflexivity].
  intros path n rest s s' Q Hs Hstep. rewrite <- Hs, Q. now apply scan_step_count.
Qed.

(** With fewer files to record than the cap, the listing holds all that
    the walk records. *)
Lemma list_directory_complete (root : fsnode) (listing : list string) :
  walk_count initial_path ignore_patterns initial_path root < MAX_FILES ->
  list_directory cwd initial_path ignore_patterns root = Returns listing ->
  Permutation listing (walk cwd initial_path ignore_patterns initial_path root).
Proof.
  unfold list_directory. intros Hcount.
  destruct (scan_loop _ _ _ _ _) as [st| |] eqn:L; try discriminate.
  intros [= <-].
  pose proof (scan_loop_count _ _ _ L) as Hc. cbn [file_count queue] in Hc.
  rewrite queue_count_cons in Hc. cbn [queue_count fold_right] in Hc.
  pose proof (scan_loop_walk _ _ _ L) as Hw. cbn [results queue app] in Hw.
  unfold walk_queue at 2 in Hw. cbn [flat_map fst snd] in Hw. rewrite app_nil_r in Hw.
  destruct (scan_loop_final _ _ _ L) as [Hq | Hfull]; [|lia].
  rewrite Hq in Hw. cbn [walk_queue flat_map] in Hw. rewrite app_nil_r in Hw.
  rewrite <- Hw. unfold sort_strings. apply sort_by_perm.
Qed.

End ScanFacts.

(** ** What the listing holds *)

Section WalkFacts.
Variables (cwd initial_path : string) (ignore_patterns : list string).
Hypothesis Habs : posixpath.isabs initial_path = true.

Let valid (ns : list string) : Prop := Forall (fun x => valid_name x = true) ns.

Lemma path_of_snoc (p : string) (ns : list string) (x : string) :
  posixpath.join (path_of p ns) x = path_of p (ns ++ [x]).
Proof. now rewrite path_of_app. Qed.

(** Every string of the walk is the entry of a node reached through
    paths that are not skipped. *)
Lemma walk_entries (n : fsnode) :
  forall (ns0 : list string) (e : string),
    valid_tree n = true -> valid ns0 ->
    In e (walk cwd initial_path ignore_patterns (path_of initial_path ns0) n) ->
    exists ns n',
      reaches n ns n' /\ valid ns
      /\ visible ignore_patterns (path_of initial_path ns0) ns = true
      /\ should_skip (path_of initial_path ns0) ignore_patterns = false
      /\ ns0 ++ ns <> []
      /\ e = entry_of (ns0 ++ ns) (isdir n').
Proof.
  induction n as [name | name raises children IH] using fsnode_induction;
    intros ns0 e Hv Hns0; rewrite walk_eq;
    destruct (should_skip (path_of initial_path ns0) ignore_patterns) eqn:Hskip;
    try easy; intros Hin; apply in_app_or in Hin as [Hin | Hin].
  1, 3: unfold own_entry in Hin;
    destruct (path_of initial_path ns0 =? initial_path)%string eqn:E; [easy|];
    destruct Hin as [<- | []];
    assert (Hne : ns0 <> []) by (intros ->; now rewrite String.eqb_refl in E);
    eexists [], _; rewrite app_nil_r;
    repeat split; try assumption; [constructor | constructor |];
    now rewrite rel_entry_path_of.
  - easy.
  - destruct raises as [err|]; [easy|].
    apply in_flat_map in Hin as (c & Hc & Hin).
    apply valid_tree_dir in Hv as (Hnames & _ & Hsub).
    rewrite Forall_forall in IH, Hnames, Hsub.
    rewrite path_of_snoc in Hin.
    assert (Hns1 : valid (ns0 ++ [node_name c])).
    { apply Forall_app. split; [assumption|]. repeat constructor. now apply Hnames. }
    destruct (IH c Hc _ _ (Hsub c Hc) Hns1 Hin) as (ns & n' & Hr & Hns & Hvis & Hsk & _ & ->).
    exists (node_name c :: ns), n'. rewrite <- path_of_snoc in Hvis, Hsk.
    repeat split.
    + now constructor.
    + constructor; [now apply Hnames | assumption].
    + cbn [visible]. now rewrite Hsk, Hvis.
    + now destruct ns0.
    + now rewrite <- app_assoc.
Qed.

Lemma app_neq_self {A : Type} (l : list A) (x : A) (l' : list A) : l <> l ++ x :: l'.
Proof.
  intros E. apply (f_equal (@length A)) in E. rewrite length_app in E. simpl in E. lia.
Qed.

(** In a valid tree no entry is walked twice. *)
Lemma walk_nodup (n : fsnode) :
  forall ns0 : list string,
    valid_tree n = true -> valid ns0 ->
    NoDup (walk cwd initial_path ignore_patterns (path_of initial_path ns0) n).
Proof.
  induction n as [name | name raises children IH] using fsnode_induction;
    intros ns0 Hv Hns0; rewrite walk_eq;
    destruct (should_skip (path_of initial_path ns0) ignore_patterns) eqn:Hskip;
    try constructor.
  - rewrite app_nil_r. unfold own_entry. destruct (negb _); repeat constructor; easy.
  - destruct raises as [err|].
    { rewrite app_nil_r. unfold own_entry. destruct (negb _); repeat constructor; easy. }
    pose proof Hv as Hv'. apply valid_tree_dir in Hv' as (Hnames & Hnd & Hsub).
    assert (Hchild : forall c e, In c children ->
              In e (walk cwd initial_path ignore_patterns
                      (posixpath.join (path_of initial_path ns0) (node_name c)) c) ->
              exists ns d, valid ns /\ e = entry_of (ns0 ++ node_name c :: ns) d).
    { intros c e Hc Hin. rewrite Forall_forall in Hnames, Hsub.
      rewrite path_of_snoc in Hin.
      apply walk_entries in Hin as (ns & n' & _ & Hns & _ & _ & _ & ->).
      - exists ns, (isdir n'). split; [assumption | now rewrite <- app_assoc].
      - now apply Hsub.
      - apply Forall_app. split; [assumption|]. repeat constructor. now apply Hnames. }
    assert (Hvalid : forall c ns, In c children -> valid ns -> valid (ns0 ++ node_name c :: ns)).
    { intros c ns Hc Hns. rewrite Forall_forall in Hnames. apply Forall_app. split; [assumption|].
      constructor; [now apply Hnames | assumption]. }
    apply NoDup_app.
    + unfold own_entry. destruct (negb _); repeat constructor; easy.
    + clear Hv. induction children as [|c children IHc]; [constructor|].
      cbn [flat_map]. inversion IH as [|? ? IHhead IHtail]; subst.
      inversion Hnames; inversion Hsub; subst. cbn [map] in Hnd.
      inversion Hnd as [|? ? Hnotin Hnd']; subst.
      apply NoDup_app.
      * rewrite path_of_snoc. apply IHhead; [assumption|].
        apply Forall_app. split; [assumption | now repeat constructor].
      * apply IHc; try assumption.
        -- intros c' e Hc'. apply Hchild. now right.
        -- intros c' ns Hc'. apply Hvalid. now right.
      * intros e He He'. apply in_flat_map in He' as (c' & Hc' & He').
        apply Hchild in He as (ns & d & Hns & ->); [|now left].
        apply Hchild in He' as (ns' & d' & Hns' & E); [|now right].
        apply entry_of_inj in E as [E _];
          try (apply Hvalid; [|assumption]; (now left) || (now right));
          try (now destruct ns0).
        apply app_inv_head in E. injection E as E _.
        apply Hnotin. rewrite E. now apply in_map.
    + intros e He He'. apply in_flat_map in He' as (c & Hc & He').
      apply Hchild in He' as (ns & d & Hns & ->); [|assumption].
      unfold own_entry in He.
      destruct (path_of initial_path ns0 =? initial_path)%string eqn:E; [easy|].
      destruct He as [He | []].
      assert (Hne : ns0 <> []) by (intros ->; now rewrite String.eqb_refl in E).
      rewrite rel_entry_path_of in He by assumption.
      apply entry_of_inj in He as [He _]; try assumption.
      * now apply app_neq_self in He.
      * now apply Hvalid.
      * now destruct ns0.
Qed.

Lemma visible_app (p : string) (ns1 ns2 : list string) :
  visible ignore_patterns p (ns1 ++ ns2) = true -> ns1 <> [] ->
  should_skip (path_of p ns1) ignore_patterns = false.
Proof.
  revert p. induction ns1 as [|x ns1 IH]; intros p Hv Hne; [easy|].
  cbn [app visible] in Hv. apply andb_true_iff in Hv as [Hx Hrest].
  destruct ns1 as [|y ns1].
  - now apply negb_true_iff in Hx.
  - change (path_of p (x :: y :: ns1)) with (path_of (posixpath.join p x) (y :: ns1)).
    now apply IH.
Qed.

Section Listing.
Variables (root : fsnode) (listing : list string).
Hypothesis Hvalid : valid_tree root = true.
Hypothesis Hlist : list_directory cwd initial_path ignore_patterns root = Returns listing.

Lemma listing_in_walk (e : string) :
  In e listing -> In e (walk cwd initial_path ignore_patterns initial_path root).
Proof.
  intros He. destruct (list_directory_walk _ _ _ _ _ Hlist) as [rest Hp].
  apply (Permutation_in _ Hp). apply in_or_app. now left.
Qed.

(** Every string of the listing is the entry of a node of the tree. *)
Lemma listing_entries (e : string) :
  In e listing ->
  exists ns n,
    reaches root ns n /\ valid ns /\ ns <> []
    /\ visible ignore_patterns initial_path ns = true
    /\ should_skip initial_path ignore_patterns = false
    /\ e = entry_of ns (isdir n).
Proof.
  intros He. apply listing_in_walk in He.
  apply (walk_entries root [] e Hvalid (Forall_nil _)) in He
    as (ns & n & Hr & Hns & Hvis & Hsk & Hne & ->).
  now exists ns, n.
Qed.

Lemma listing_nodup : NoDup listing.
Proof.
  destruct (list_directory_walk _ _ _ _ _ Hlist) as [rest Hp].
  apply (NoDup_app_remove_r _ rest). apply (Permutation_NoDup (Permutation_sym Hp)).
  apply (walk_nodup root [] Hvalid (Forall_nil _)).
Qed.

(** The listing is in strictly increasing order. *)
Lemma listing_strictly_sorted : StronglySorted str_lt listing.
Proof.
  apply sorted_nodup_strict; [|exact listing_nodup].
  exact (list_directory_sorted _ _ _ _ _ Hlist).
Qed.

(** An entry of the tree that is listed is reached through paths that are
    not skipped. *)
Lemma listed_visible (ns : list string) (n : fsnode) :
  reaches root ns n -> ns <> [] ->
  In (rel_entry cwd initial_path (path_of initial_path ns) n) listing ->
  visible ignore_patterns initial_path ns = true
  /\ should_skip initial_path ignore_patterns = false.
Proof.
  intros Hr Hne Hin. destruct (reaches_valid _ _ _ Hr Hvalid) as [Hns _].
  rewrite rel_entry_path_of in Hin by assumption.
  apply listing_entries in Hin as (ns' & n' & _ & Hns' & Hne' & Hvis & Hsk & E).
  apply entry_of_inj in E as [-> _]; try assumption. now split.
Qed.

End Listing.
End WalkFacts.

(** ** The paths the scan looks at are absolute *)

Lemma isabs_join_any (p n : string) :
  posixpath.isabs p = true -> posixpath.isabs (posixpath.join p n) = true.
Proof.
  intros Hp. unfold posixpath.join, posixpath.isabs in *.
  destruct (Str.startswith n posixpath.sep_str) eqn:E; [exact E|].
  apply prefix_iff in Hp as [r ->].
  destruct (_ || _); apply prefix_iff; eexists; rewrite append_assoc; reflexivity.
Qed.

Lemma isabs_normpath (p : string) :
  posixpath.isabs p = true -> posixpath.isabs (posixpath.normpath p) = true.
Proof.
  intros Hp. unfold posixpath.normpath.
  pose proof (isabs_nonempty _ Hp) as Hne. apply String.eqb_neq in Hne. rewrite Hne.
  unfold posixpath.isabs, posixpath.sep_str in Hp. rewrite Hp.
  destruct (Str.startswith p "//" && negb (Str.startswith p "///"));
    cbn [String.append String.eqb]; unfold posixpath.isabs, posixpath.sep_str, Str.startswith;
    now rewrite prefix_cons, prefix_nil.
Qed.

Lemma isabs_resolved (fs : filesystem) (path : string) :
  posixpath.isabs (getcwd fs) = true -> posixpath.isabs (resolved fs path) = true.
Proof.
  intros Hcwd. unfold resolved, posixpath.abspath.
  destruct (posixpath.isabs path) eqn:E; [exact E|].
  apply isabs_normpath. now apply isabs_join_any.
Qed.

Lemma forward_eq (fs : filesystem) (path : string) (ignore : option (list string)) :
  forward fs path ignore =
  match stat fs (resolved fs path) with
  | None => Returns ("Error: Path '" ++ resolved fs path ++ "' does not exist")%string
  | Some (File _) => Returns ("Error: Path '" ++ resolved fs path ++ "' is not a directory")%string
  | Some (Dir _ _ _ as root) =>
      match list_directory (getcwd fs) (resolved fs path) (patterns_of ignore) root with
      | Returns all_paths =>
          Returns ((if (MAX_FILES <=? length all_paths)%nat then TRUNCATED_MESSAGE else "")
                   ++ print_tree (create_file_tree all_paths) (resolved fs path) 0 "")%string
      | Raises e => Raises e
      | OutOfFuel => OutOfFuel
      end
  end.
Proof. reflexivity. Qed.

(** The listing depends on the patterns only through the absolute paths
    they match. *)
Section SameSkips.
Variables (cwd initial_path : string) (ign1 ign2 : list string).
Hypothesis Hsame :
  forall p, posixpath.isabs p = true -> should_skip p ign1 = should_skip p ign2.

Let absolute (q : list (string * fsnode)) : Prop :=
  Forall (fun e => posixpath.isabs (fst e) = true) q.

Lemma enqueued_same (path : string) (children : list fsnode) :
  posixpath.isabs path = true ->
  enqueued ign1 path children = enqueued ign2 path children
  /\ absolute (enqueued ign1 path children).
Proof.
  intros Hp. unfold enqueued, absolute.
  set (entries := sort_by fst (map (fun c => (posixpath.join path (node_name c), c)) children)).
  assert (Habs : Forall (fun e => posixpath.isabs (fst e) = true) entries).
  { apply Forall_forall. intros e He.
    apply (Permutation_in _ (sort_by_perm fst _)) in He.
    apply in_map_iff in He as (c & <- & _). now apply isabs_join_any. }
  split.
  - apply filter_ext_in. intros e He. rewrite Forall_forall in Habs. now rewrite Hsame by auto.
  - apply Forall_forall. intros e He. apply filter_In in He as [He _].
    rewrite Forall_forall in Habs. now apply Habs.
Qed.

Lemma scan_step_same (path : string) (n : fsnode) (rest : list (string * fsnode))
      (st : scan_state) :
  posixpath.isabs path = true -> absolute rest ->
  scan_step cwd initial_path ign1 path n rest st = scan_step cwd initial_path ign2 path n rest st
  /\ forall st', scan_step cwd initial_path ign1 path n rest st = Returns st' ->
                 absolute (queue st').
Proof.
  unfold absolute. intros Hp Hrest. rewrite !scan_step_spec, (Hsame _ Hp).
  destruct (should_skip path ign2); [split; [reflexivity | now intros st' [= <-]]|].
  destruct n as [name | name [e|] children]; cbn [listed].
  - split; [reflexivity|]. intros st' [= <-]. cbn [queue]. now rewrite app_nil_r.
  - destruct (caught e); split; try reflexivity; try easy.
    intros st' [= <-]. cbn [queue]. now rewrite app_nil_r.
  - destruct (enqueued_same path children Hp) as [E Habs]. rewrite E. split; [reflexivity|].
    intros st' [= <-]. cbn [queue]. apply Forall_app. split; [assumption | now rewrite <- E].
Qed.

Lemma scan_loop_same (fuel : nat) (st : scan_state) :
  absolute (queue st) ->
  scan_loop cwd initial_path ign1 fuel st = scan_loop cwd initial_path ign2 fuel st.
Proof.
  unfold absolute.
  revert st. induction fuel as [|fuel IH]; intros st Hq; rewrite !scan_loop_eq;
    destruct (queue st) as [|[path n] rest] eqn:Q; try reflexivity.
  destruct (file_count st <? MAX_FILES); [|reflexivity].
  inversion Hq as [|? ? Hp Hrest]; subst. cbn [fst] in Hp.
  destruct (scan_step_same path n rest st Hp Hrest) as [E Habs]. rewrite <- E.
  destruct (scan_step cwd initial_path ign1 path n rest st) as [st'| |]; try reflexivity.
  apply IH. now apply Habs.
Qed.

Lemma list_directory_same (root : fsnode) :
  posixpath.isabs initial_path = true ->
  list_directory cwd initial_path ign1 root = list_directory cwd initial_path ign2 root.
Proof.
  intros Hp. unfold list_directory. rewrite scan_loop_same; [reflexivity|].
  now repeat constructor.
Qed.
End SameSkips.

(** ** Patterns *)

Lemma until_bracket_shorter (s stuff rest : string) :
  fnmatch.until_bracket s = Some (stuff, rest) -> String.length rest < String.length s.
Proof.
  revert stuff. induction s as [|c s IH]; intros stuff; cbn [fnmatch.until_bracket].
  - discriminate.
  - destruct (Ascii.eqb c "]").
    + intros [= _ <-]. cbn [String.length]. lia.
    + destruct (fnmatch.until_bracket s) as [[stuff' rest']|]; [|discriminate].
      intros [= _ <-]. specialize (IH _ eq_refl). cbn [String.length]. lia.
Qed.

Lemma bracket_shorter (s stuff rest : string) :
  fnmatch.bracket s = Some (stuff, rest) -> String.length rest < String.length s.
Proof.
  assert (Hafter : forall t stuff' rest',
             match t with
             | String c t' =>
                 if Ascii.eqb c "]"
                 then match fnmatch.until_bracket t' with
                      | Some (stuff, rest) => Some (String c stuff, rest)
                      | None => None
                      end
                 else fnmatch.until_bracket t
             | EmptyString => None
             end = Some (stuff', rest') ->
             String.length rest' < String.length t).
  { intros [|c t'] stuff' rest'; [discriminate|].
    destruct (Ascii.eqb c "]").
    - destruct (fnmatch.until_bracket t') as [[a b]|] eqn:E; [|discriminate].
      intros [= _ <-]. apply until_bracket_shorter in E. cbn [String.length]. lia.
    - apply until_bracket_shorter. }
  unfold fnmatch.bracket. destruct s as [|c s']; [discriminate|].
  destruct (Ascii.eqb c "!").
  - destruct s' as [|d s'']; [discriminate|].
    destruct (Ascii.eqb d "]") eqn:Ed.
    + destruct (fnmatch.until_bracket s'') as [[a b]|] eqn:E; [|discriminate].
      intros [= _ <-]. apply until_bracket_shorter in E. cbn [String.length]. lia.
    + destruct (fnmatch.until_bracket (String d s'')) as [[a b]|] eqn:E; [|discriminate].
      intros [= _ <-]. apply until_bracket_shorter in E. cbn [String.length] in *. lia.
  - apply (Hafter (String c s')).
Qed.

(** The length of the pattern is fuel enough: with more, [translate]
    reads the same tokens. *)
Lemma translate_fuel_enough (fuel : nat) (pat : string) :
  String.length pat <= fuel -> fnmatch.translate_fuel fuel pat = fnmatch.translate pat.
Proof.
  unfold fnmatch.translate.
  enough (H : forall f1 f2 p, String.length p <= f1 -> String.length p <= f2 ->
                              fnmatch.translate_fuel f1 p = fnmatch.translate_fuel f2 p)
    by (intros Hle; now apply H).
  induction f1 as [|f1 IH]; intros f2 p H1 H2.
  - destruct p; [|cbn [String.length] in H1; lia]. now destruct f2.
  - destruct p as [|c rest]; [now destruct f2|].
    destruct f2 as [|f2]; [cbn [String.length] in H2; lia|].
    cbn [String.length] in H1, H2. cbn [fnmatch.translate_fuel].
    rewrite (IH f2 rest) by lia.
    destruct (fnmatch.bracket rest) as [[stuff rest']|] eqn:E; [|reflexivity].
    apply bracket_shorter in E. rewrite (IH f2 rest') by lia. reflexivity.
Qed.

Lemma translate_literal (c : ascii) (rest : string) :
  starts_literal (String c rest) = true ->
  exists toks, fnmatch.translate (String c rest) = fnmatch.Lit c :: toks.
Proof.
  cbn [starts_literal]. rewrite !andb_true_iff, !negb_true_iff.
  intros [[[H1 H2] H3] _]. unfold fnmatch.translate. cbn [String.length fnmatch.translate_fuel].
  rewrite H1, H2, H3. eexists. reflexivity.
Qed.

Lemma fnmatch_literal_absolute (path pattern : string) :
  posixpath.isabs path = true -> starts_literal pattern = true ->
  fnmatch.fnmatch path pattern = false.
Proof.
  intros Hp Hl. apply prefix_iff in Hp as [r ->]. unfold fnmatch.fnmatch.
  destruct pattern as [|c rest]; [reflexivity|].
  destruct (translate_literal c rest Hl) as [toks ->].
  cbn [starts_literal] in Hl. rewrite !andb_true_iff, !negb_true_iff in Hl.
  destruct Hl as [_ Hc]. rewrite Ascii.eqb_sym in Hc. unfold posixpath.sep_str.
  cbn [String.append fnmatch.matches]. now rewrite Hc.
Qed.

Lemma should_skip_literal (path pattern : string) (ignore_patterns : list string) :
  posixpath.isabs path = true -> starts_literal pattern = true ->
  should_skip path (pattern :: ignore_patterns) = should_skip path ignore_patterns.
Proof.
  intros Hp Hl. unfold should_skip. cbn [existsb].
  now rewrite (fnmatch_literal_absolute _ _ Hp Hl).
Qed.

(** ** A directory of files *)

Section FlatDirectory.
Variables (cwd initial_path : string) (ignore_patterns : list string).

(** On a queue of such files the loop records them one by one until the
    counter is full. *)
Lemma scan_loop_files (q : list (string * fsnode)) :
  forall (fuel : nat) (res : list string) (count : nat),
    Forall (recorded_file initial_path ignore_patterns) q -> length q <= fuel ->
    scan_loop cwd initial_path ignore_patterns fuel
      {| results := res; queue := q; file_count := count |}
    = Returns {| results :=
                   res ++ map (fun e => rel_entry cwd initial_path (fst e) (snd e))
                              (firstn (MAX_FILES - count) q);
                 queue := skipn (MAX_FILES - count) q;
                 file_count := count + min (MAX_FILES - count) (length q) |}.
Proof.
  induction q as [|[p n] q IH]; intros fuel res count Hq Hfuel; rewrite scan_loop_eq; cbn [queue].
  - rewrite firstn_nil, skipn_nil, app_nil_r. cbn [length]. now rewrite Nat.min_0_r, Nat.add_0_r.
  - cbn [file_count]. destruct (count <? MAX_FILES) eqn:C.
    + apply Nat.ltb_lt in C. destruct fuel as [|fuel]; [simpl in Hfuel; lia|].
      inversion Hq as [|? ? (Hfile & Hskip & Hne) Hq']; subst. cbn [fst snd] in *.
      rewrite scan_step_spec, Hskip. unfold own_entry, counted.
      apply String.eqb_neq in Hne. rewrite Hne, Hfile. cbn [negb andb].
      destruct n as [name|]; [|discriminate]. cbn [listed results file_count].
      rewrite app_nil_r, IH by (try assumption; simpl in Hfuel; lia).
      destruct (MAX_FILES - count) as [|k] eqn:K; [lia|].
      replace (MAX_FILES - (count + 1)) with k by lia.
      cbn [firstn skipn map length fst snd]. rewrite <- app_assoc. cbn [app].
      do 2 f_equal. lia.
    + apply Nat.ltb_ge in C. replace (MAX_FILES - count) with 0 by lia.
      cbn [firstn skipn map]. now rewrite app_nil_r, Nat.add_0_r.
Qed.
End FlatDirectory.

Lemma join_child_prefix (p n : string) :
  p <> "" -> valid_name n = true -> posixpath.join p n = (child_prefix p ++ n)%string.
Proof.
  intros Hp Hn. unfold posixpath.join, child_prefix, posixpath.sep_str.
  rewrite (startswith_sep_valid _ Hn). apply String.eqb_neq in Hp. rewrite Hp. cbn [orb].
  destruct (Str.endswith p "/"); [reflexivity | now rewrite append_assoc].
Qed.

Lemma Sorted_firstn {A : Type} (R : A -> A -> Prop) (k : nat) (l : list A) :
  Sorted R l -> Sorted R (firstn k l).
Proof.
  revert k. induction l as [|x l IH]; intros k H; [now rewrite firstn_nil|].
  destruct k as [|k]; [constructor|]. cbn [firstn]. inversion H as [|? ? Hl Hx]; subst.
  constructor; [now apply IH|].
  destruct Hx as [|y l Hxy]; [rewrite firstn_nil; constructor|].
  destruct k; now constructor.
Qed.

Lemma In_firstn {A : Type} (k : nat) (l : list A) (x : A) : In x (firstn k l) -> In x l.
Proof. intros H. rewrite <- (firstn_skipn k l). apply in_or_app. now left. Qed.

Section FilesOnly.
Variables (cwd initial_path rname : string) (names : list string).
Hypothesis Habs : posixpath.isabs initial_path = true.
Hypothesis Hvalid : Forall (fun n => valid_name n = true) names.
Hypothesis Hroot : should_skip initial_path [] = false.
Hypothesis Hkept : Forall (fun n => should_skip (posixpath.join initial_path n) [] = false) names.

Let child (n : string) : string * fsnode := ((child_prefix initial_path ++ n)%string, File n).

Lemma enqueued_files :
  enqueued [] initial_path (map File names) = map child (sort_strings names).
Proof.
  unfold enqueued. rewrite map_map. cbn [node_name].
  assert (E : map (fun x => (posixpath.join initial_path x, File x)) names = map child names).
  { apply map_ext_in. intros n Hn. rewrite Forall_forall in Hvalid. unfold child.
    now rewrite join_child_prefix by auto with paths. }
  rewrite E, sort_by_map.
  rewrite (sort_by_ext (fun a => fst (child a)) (fun s => s))
    by (intros a b; apply leb_app).
  fold sort_strings. apply filter_all. apply Forall_forall. intros e He.
  apply in_map_iff in He as (n & <- & Hn).
  apply (Permutation_in _ (sort_by_perm _ _)) in Hn.
  rewrite Forall_forall in Hkept, Hvalid. unfold child. cbn [fst].
  rewrite <- join_child_prefix by auto with paths.
  now rewrite Hkept.
Qed.

Lemma rel_entry_child (n : string) :
  valid_name n = true ->
  rel_entry cwd initial_path (fst (child n)) (snd (child n)) = n.
Proof.
  intros Hn. unfold child. cbn [fst snd].
  rewrite <- join_child_prefix by auto with paths.
  change (posixpath.join initial_path n) with (path_of initial_path [n]).
  rewrite rel_entry_path_of;
    [| assumption | constructor; [assumption | constructor] | discriminate].
  unfold entry_of. cbn. apply append_nil_r.
Qed.

Lemma size_files : node_size (Dir rname None (map File names)) = S (length names).
Proof.
  clear. cbn [node_size]. f_equal.
  induction names as [|n l IH]; simpl; [reflexivity | now rewrite IH].
Qed.

(** The listing of a directory of files: the first [MAX_FILES] names in
    increasing order. *)
Lemma list_directory_files :
  list_directory cwd initial_path [] (Dir rname None (map File names))
  = Returns (firstn MAX_FILES (sort_strings names)).
Proof.
  unfold list_directory. rewrite size_files, scan_loop_eq. cbn [queue file_count].
  replace (0 <? MAX_FILES) with true by reflexivity.
  rewrite scan_step_spec, Hroot. unfold own_entry, counted. rewrite String.eqb_refl.
  cbn [negb andb listed results file_count app]. rewrite enqueued_files.
  assert (Hin : forall n, In n (sort_strings names) -> In n names)
    by (intros n; apply Permutation_in, sort_by_perm).
  rewrite scan_loop_files.
  - cbn [results app]. rewrite Nat.sub_0_r, firstn_map, map_map.
    rewrite (map_ext_in _ (fun s => s)), map_id.
    + f_equal. apply sort_by_id, Sorted_firstn. apply (sort_by_sorted (fun s : string => s)).
    + intros n Hn. apply In_firstn in Hn. apply rel_entry_child.
      rewrite Forall_forall in Hvalid. auto.
  - apply Forall_forall. intros e He. apply in_map_iff in He as (n & <- & Hn).
    rewrite Forall_forall in Hkept, Hvalid. pose proof (Hvalid _ (Hin _ Hn)) as Hv.
    unfold recorded_file, child. cbn [fst snd isdir].
    rewrite <- join_child_prefix by auto with paths.
    split; [reflexivity|]. split; [auto|].
    change (posixpath.join initial_path n) with (path_of initial_path [n]).
    apply path_of_neq; [assumption | now repeat constructor | discriminate].
  - rewrite length_map. unfold sort_strings.
    rewrite (Permutation_length (sort_by_perm (fun s : string => s) names)). lia.
Qed.
End FilesOnly.

(** ** The tree *)

Lemma valid_comp_ok (ns : list string) :
  Forall (fun n => valid_name n = true) ns -> Forall comp_ok ns.
Proof.
  apply Forall_impl. intros n Hn. apply valid_name_iff in Hn as (? & _ & _ & ?). now split.
Qed.

Lemma split_entry_of (ns : list string) (d : bool) :
  Forall comp_ok ns -> ns <> [] ->
  Str.split "/" (entry_of ns d) = ns ++ if d then [""] else [].
Proof.
  intros H Hne.
  assert (Hs : Forall (fun x => Str.contains (String "/" "") x = false) ns)
    by (eapply Forall_impl; [|exact H]; now intros a [_ Ha]).
  unfold entry_of. destruct d.
  - rewrite split_app_sep, split_join by assumption. reflexivity.
  - rewrite append_nil_r, app_nil_r. now apply split_join.
Qed.

Lemma endswith_comp (n : string) (a : string) :
  comp_ok n -> Str.endswith (a ++ n) "/" = false.
Proof.
  intros [Hne Hs]. rewrite endswith_app_r by assumption. now apply endswith_without.
Qed.

Lemma join_last (ns : list string) :
  ns <> [] -> exists a, Str.join "/" ns = (a ++ last ns "")%string.
Proof.
  induction ns as [|x ns IH]; [easy|]. intros _. destruct ns as [|y ns].
  - now exists "".
  - destruct IH as [a Ha]; [discriminate|].
    exists (x ++ "/" ++ a)%string.
    change (Str.join "/" (x :: y :: ns)) with (x ++ "/" ++ Str.join "/" (y :: ns))%string.
    rewrite Ha. change (last (x :: y :: ns) "") with (last (y :: ns) "").
    now rewrite !append_assoc.
Qed.

Lemma endswith_entry_of (ns : list string) (d : bool) :
  Forall comp_ok ns -> ns <> [] -> Str.endswith (entry_of ns d) "/" = d.
Proof.
  intros H Hne. unfold entry_of. destruct d.
  - apply endswith_iff. now eexists.
  - rewrite append_nil_r. destruct (join_last ns Hne) as [a ->].
    apply endswith_comp. rewrite Forall_forall in H. apply H.
    destruct ns; [easy|]. apply (@exists_last _ (s :: ns)) in Hne as (l' & z & E).
    rewrite E, last_last. apply in_or_app. right. now left.
Qed.

(** *** [descend] *)

Lemma descend_ext (part : string) (f g : list tree_node -> list tree_node)
      (level : list tree_node) :
  (forall l, f l = g l) -> descend part f level = descend part g level.
Proof.
  intros H. induction level as [|x level IH]; [reflexivity|].
  cbn [descend]. rewrite IH. destruct x; now rewrite ?H.
Qed.

Lemma descend_none (part : string) (f : list tree_node -> list tree_node)
      (level : list tree_node) :
  descend part f level = None <-> ~ In part (map tree_name level).
Proof.
  induction level as [|x level IH]; cbn [descend map In]; [tauto|].
  destruct (String.eqb_spec (tree_name x) part) as [E|E].
  - split; [discriminate | tauto].
  - destruct (descend part f level) as [l|].
    + split; [discriminate|]. intros H. exfalso. apply H. right.
      destruct (in_dec string_dec part (map tree_name level)) as [Hin|Hout]; [assumption|].
      now apply IH in Hout.
    + split; [|reflexivity]. intros _ [H|H]; [contradiction|].
      revert H. now apply IH.
Qed.

Lemma descend_some (part : string) (f : list tree_node -> list tree_node)
      (level l : list tree_node) :
  descend part f level = Some l ->
  exists l1 x l2,
    level = l1 ++ x :: l2 /\ tree_name x = part /\ l = l1 ++ descended f x :: l2.
Proof.
  revert l. induction level as [|y level IH]; intros l; cbn [descend]; [discriminate|].
  destruct (String.eqb_spec (tree_name y) part) as [E|E].
  - intros [= <-]. exists [], y, level. repeat split; try assumption; now destruct y.
  - destruct (descend part f level) as [l'|]; [|discriminate].
    intros [= <-]. destruct (IH _ eq_refl) as (l1 & x & l2 & -> & Hx & ->).
    now exists (y :: l1), x, l2.
Qed.

(** *** [add_parts] on an entry *)

Lemma add_parts_entry (ns : list string) (d : bool) :
  Forall comp_ok ns -> ns <> [] ->
  forall (tl pre : list string) (cur : string) (level : list tree_node),
    ns = pre ++ tl ->
    add_parts (entry_of ns d) (length (ns ++ if d then [""] else [])) (length pre)
      (tl ++ if d then [""] else []) cur level
    = insert_chain d tl cur level.
Proof.
  intros Hok Hne tl. induction tl as [|n tl IH]; intros pre cur level E.
  - destruct d; reflexivity.
  - assert (Hn : comp_ok n).
    { rewrite Forall_forall in Hok. apply Hok. rewrite E. apply in_or_app. right. now left. }
    destruct Hn as [Hn _]. apply String.eqb_neq in Hn.
    cbn [app add_parts insert_chain]. rewrite Hn, (endswith_entry_of _ _ Hok Hne).
    assert (Hcur : (if (cur =? "")%string then n else (cur ++ "/" ++ n)%string)
                   = (under cur ++ n)%string).
    { unfold under. destruct (cur =? "")%string; [reflexivity | now rewrite append_assoc]. }
    rewrite Hcur.
    assert (Hdir : (length pre <? length (ns ++ if d then [""] else []) - 1) || d
                   = d || match tl with [] => false | _ => true end).
    { rewrite E, !length_app. cbn [length]. destruct d; [now rewrite !orb_true_r|].
      cbn [length]. rewrite !orb_false_r. destruct tl; cbn [length].
      - apply Nat.ltb_ge. lia.
      - apply Nat.ltb_lt. lia. }
    rewrite Hdir.
    assert (Hrec : forall l, add_parts (entry_of ns d) (length (ns ++ if d then [""] else []))
                     (S (length pre)) (tl ++ if d then [""] else []) (under cur ++ n) l
                   = insert_chain d tl (under cur ++ n) l).
    { intros l. replace (S (length pre)) with (length (pre ++ [n])) by (rewrite length_app; simpl; lia).
      apply IH. now rewrite <- app_assoc. }
    rewrite (descend_ext _ _ _ _ Hrec), Hrec. reflexivity.
Qed.

Lemma add_entry (ns : list string) (d : bool) (level : list tree_node) :
  Forall comp_ok ns -> ns <> [] ->
  add_parts (entry_of ns d) (length (Str.split "/" (entry_of ns d))) 0
    (Str.split "/" (entry_of ns d)) "" level
  = insert_chain d ns "" level.
Proof.
  intros Hok Hne. rewrite (split_entry_of _ _ Hok Hne).
  now apply (add_parts_entry ns d Hok Hne ns []).
Qed.

(** *** The order of the labels *)

Lemma ascii_compare_neq (a b : ascii) : a <> b -> Ascii.compare a b <> Eq.
Proof. intros H E. now apply Ascii.compare_eq_iff in E. Qed.

Lemma label_order (n' n r' r : string) (d' d : bool) :
  Str.contains "/" n' = false -> Str.contains "/" n = false -> n' <> n ->
  (d' = false -> r' = "") -> (d = false -> r = "") ->
  str_lt (n' ++ suffix_of d' ++ r') (n ++ suffix_of d ++ r) ->
  str_lt (n' ++ suffix_of d') (n ++ suffix_of d).
Proof.
  unfold str_lt, String.ltb. revert n.
  induction n' as [|c' n' IH]; intros [|c n] Hs' Hs Hne Hr' Hr; try easy.
  - destruct d'; [|reflexivity]. cbn [suffix_of String.append String.compare].
    rewrite contains_char_cons in Hs. apply orb_false_iff in Hs as [Hc _].
    apply Ascii.eqb_neq in Hc.
    destruct (Ascii.compare "/" c) eqn:E; try easy.
    apply Ascii.compare_eq_iff in E. now subst.
  - destruct d; [|now rewrite (Hr eq_refl)]. cbn [suffix_of String.append String.compare].
    rewrite contains_char_cons in Hs'. apply orb_false_iff in Hs' as [Hc _].
    apply Ascii.eqb_neq in Hc.
    destruct (Ascii.compare c' "/") eqn:E; try easy.
    apply Ascii.compare_eq_iff in E. now subst.
  - rewrite contains_char_cons in Hs, Hs'.
    apply orb_false_iff in Hs as [_ Hs]. apply orb_false_iff in Hs' as [_ Hs'].
    cbn [String.append String.compare].
    destruct (Ascii.compare c' c) eqn:E; try easy.
    apply Ascii.compare_eq_iff in E. subst c'.
    apply IH; try assumption. intros ->. now apply Hne.
Qed.

(** *** The invariant of the tree *)

Lemma node_ok_dir (seen : list string) (cur n p : string) (children : list tree_node) :
  node_ok seen cur (DirNode n p children) <->
  comp_ok n /\ p = (under cur ++ n)%string
  /\ (exists r, In (p ++ "/" ++ r)%string seen)
  /\ level_ok seen p children.
Proof.
  cbn [node_ok]. unfold level_ok.
  assert (E : forall l, (fix all (l : list tree_node) : Prop :=
                 match l with [] => True | c :: l' => node_ok seen p c /\ all l' end) l
              <-> Forall (node_ok seen p) l).
  { induction l as [|c l IH]; [split; constructor|].
    rewrite IH. split; [intros []; now constructor | now inversion 1]. }
  rewrite E. tauto.
Qed.

Lemma node_ok_mono (seen seen' : list string) (x : tree_node) :
  incl seen seen' -> forall cur, node_ok seen cur x -> node_ok seen' cur x.
Proof.
  intros Hincl. revert x. fix IH 1. intros [n p | n p children] cur.
  - cbn [node_ok]. intros (? & ? & ?). split; [assumption | split; [assumption | auto]].
  - rewrite !node_ok_dir. intros (Hn & Hp & (r & Hr) & Hu & Hl & Hc).
    repeat split; try assumption; try apply Hn; [exists r; auto|].
    clear Hu Hl. induction children as [|c children IHc]; [constructor|].
    inversion Hc; subst. constructor; [now apply IH | now apply IHc].
Qed.

Lemma level_ok_mono (seen seen' : list string) (cur : string) (level : list tree_node) :
  incl seen seen' -> level_ok seen cur level -> level_ok seen' cur level.
Proof.
  intros Hincl (Hu & Hl & Hc). repeat split; try assumption.
  eapply Forall_impl; [|exact Hc]. intros x. now apply node_ok_mono.
Qed.

Lemma under_nonempty (cur n : string) : n <> "" -> under (under cur ++ n) = (under cur ++ n ++ "/")%string.
Proof.
  intros Hn. unfold under at 1.
  replace (under cur ++ n =? "")%string with false.
  - now rewrite append_assoc.
  - symmetry. apply String.eqb_neq. unfold under. destruct (cur =? "")%string eqn:E.
    + assumption.
    + apply String.eqb_neq in E. destruct cur; [contradiction | discriminate].
Qed.

Lemma entry_of_cons (n : string) (ns : list string) (d : bool) :
  ns <> [] -> entry_of (n :: ns) d = (n ++ "/" ++ entry_of ns d)%string.
Proof.
  intros Hne. unfold entry_of, Str.join. destruct ns as [|y ns]; [easy|].
  cbn [String.concat]. now rewrite !append_assoc.
Qed.

Lemma StronglySorted_snoc {A : Type} (R : A -> A -> Prop) (l : list A) (y : A) :
  StronglySorted R l -> (forall x, In x l -> R x y) -> StronglySorted R (l ++ [y]).
Proof.
  induction 1 as [|x l Hl IH Hx]; intros Hy; cbn [app].
  - repeat constructor.
  - constructor.
    + apply IH. intros z Hz. apply Hy. now right.
    + apply Forall_app. split; [assumption|]. repeat constructor. apply Hy. now left.
Qed.

(** The label of a node is the start of what is left of the entry it was
    made for. *)
Lemma node_ok_witness (seen : list string) (cur : string) (x : tree_node) :
  node_ok seen cur x ->
  exists d r, label x = (tree_name x ++ suffix_of d)%string
              /\ (d = false -> r = "")
              /\ Str.contains "/" (tree_name x) = false
              /\ In (under cur ++ tree_name x ++ suffix_of d ++ r)%string seen.
Proof.
  destruct x as [n p | n p children].
  - cbn [node_ok]. intros ([_ Hs] & -> & Hin). exists false, "".
    cbn [label tree_name suffix_of]. rewrite !append_nil_r. repeat split; assumption.
  - rewrite node_ok_dir. intros ([_ Hs] & -> & (r & Hin) & _). exists true, r.
    cbn [label tree_name suffix_of]. repeat split; try assumption; try discriminate.
    now rewrite append_assoc in Hin.
Qed.

Lemma insert_ok (ns : list string) :
  forall (d : bool) (cur : string) (level : list tree_node) (seen : list string),
    Forall comp_ok ns -> ns <> [] ->
    (forall e', In e' seen -> str_lt e' (under cur ++ entry_of ns d)) ->
    level_ok seen cur level ->
    level_ok ((under cur ++ entry_of ns d)%string :: seen) cur (insert_chain d ns cur level).
Proof.
  induction ns as [|n ns IH]; intros d cur level seen Hok Hne Hlt Hlevel; [easy|]. clear Hne.
  inversion Hok as [|? ? Hn Hns]; subst.
  set (e := (under cur ++ entry_of (n :: ns) d)%string) in *.
  assert (Hincl : incl seen (e :: seen)) by (now right).
  (* what the entry is, seen from the node of [n] *)
  assert (Hbelow : ns <> [] -> e = (under (under cur ++ n) ++ entry_of ns d)%string).
  { intros Hne. unfold e. rewrite entry_of_cons by assumption.
    rewrite under_nonempty by apply Hn. now rewrite !append_assoc. }
  assert (Hsub : forall children,
             level_ok seen (under cur ++ n) children ->
             level_ok (e :: seen) (under cur ++ n) (insert_chain d ns (under cur ++ n) children)).
  { intros children Hch. destruct ns as [|m ns].
    - cbn [insert_chain]. now apply (level_ok_mono seen).
    - rewrite Hbelow by discriminate. apply IH; try assumption; try discriminate.
      rewrite <- Hbelow by discriminate. exact Hlt. }
  cbn [insert_chain].
  destruct Hlevel as (Hu & Hl & Hc).
  destruct (descend n _ level) as [l|] eqn:D.
  - apply descend_some in D as (l1 & x & l2 & -> & Hx & ->).
    assert (Hsame : tree_name (descended (insert_chain d ns (under cur ++ n)) x) = tree_name x
                    /\ label (descended (insert_chain d ns (under cur ++ n)) x) = label x)
      by now destruct x.
    destruct Hsame as [Hname Hlabel].
    unfold level_ok, unique_names, labels_ordered in *.
    rewrite !map_app in *. cbn [map] in *. rewrite Hname, Hlabel.
    repeat split; try assumption.
    apply Forall_app in Hc as [Hc1 Hc2]. inversion Hc2 as [|? ? Hcx Hc2']; subst.
    apply Forall_app. split; [|constructor].
    + eapply Forall_impl; [|exact Hc1]. intros y. now apply node_ok_mono.
    + destruct x as [m p | m p children]; cbn [descended].
      * now apply (node_ok_mono seen).
      * apply node_ok_dir in Hcx as (Hm & Hp & (r & Hr) & Hch). cbn [tree_name] in *. subst p.
        apply node_ok_dir. repeat split; try apply Hm.
        -- exists r. now right.
        -- now apply Hsub.
        -- now apply Hsub.
        -- now apply Hsub.
    + eapply Forall_impl; [|exact Hc2']. intros y. now apply node_ok_mono.
  - apply descend_none in D.
    set (isd := d || match ns with [] => false | _ => true end).
    set (y := if isd then DirNode n (under cur ++ n) (insert_chain d ns (under cur ++ n) [])
              else FileNode n (under cur ++ n)).
    assert (Hyname : tree_name y = n) by (unfold y; now destruct isd).
    assert (Hylabel : label y = (n ++ suffix_of isd)%string)
      by (unfold y; destruct isd; cbn [label suffix_of]; now rewrite ?append_nil_r).
    (* the entry, seen from the level of [n] *)
    assert (He : exists r, (isd = false -> r = "")
                           /\ e = (under cur ++ n ++ suffix_of isd ++ r)%string).
    { unfold e, isd. destruct ns as [|m ns].
      - exists "". split; [reflexivity|]. unfold entry_of. cbn [Str.join String.concat].
        rewrite orb_false_r. destruct d; cbn [suffix_of]; now rewrite ?append_nil_r.
      - exists (entry_of (m :: ns) d). split; [now rewrite orb_true_r|].
        rewrite entry_of_cons by discriminate. now rewrite orb_true_r. }
    destruct He as (r & Hr & He).
    unfold level_ok, unique_names, labels_ordered. rewrite !map_app. cbn [map].
    rewrite Hyname, Hylabel. repeat split.
    + apply NoDup_app; [assumption | repeat constructor; easy |].
      intros a Ha [<- | []]. contradiction.
    + apply StronglySorted_snoc; [assumption|].
      intros lx Hlx. apply in_map_iff in Hlx as (x & <- & Hx).
      rewrite Forall_forall in Hc.
      destruct (node_ok_witness _ _ _ (Hc x Hx)) as (dx & rx & -> & Hrx & Hsx & Hin).
      apply (label_order _ _ rx r); try assumption.
      * apply Hn.
      * intros E. apply D. rewrite <- E. now apply in_map.
      * specialize (Hlt _ Hin). fold e in Hlt. rewrite He in Hlt.
        unfold str_lt, String.ltb in *. now rewrite compare_app in Hlt.
    + apply Forall_app. split.
      * eapply Forall_impl; [|exact Hc]. intros x. now apply node_ok_mono.
      * repeat constructor. unfold y. destruct isd eqn:Hisd.
        -- apply node_ok_dir. repeat split; try apply Hn.
           ++ exists r. left. rewrite He. cbn [suffix_of]. now rewrite !append_assoc.
           ++ apply Hsub. repeat split; constructor.
           ++ apply Hsub. repeat split; constructor.
           ++ apply Hsub. repeat split; constructor.
        -- cbn [node_ok]. repeat split; try apply Hn. left.
           rewrite He, (Hr eq_refl). cbn [suffix_of]. now rewrite !append_nil_r.
Qed.

Lemma create_file_tree_eq (sorted_paths : list string) :
  create_file_tree sorted_paths = fold_left add_path sorted_paths [].
Proof. reflexivity. Qed.

Lemma add_path_entry (ns : list string) (d : bool) (level : list tree_node) :
  Forall comp_ok ns -> ns <> [] ->
  add_path level (entry_of ns d) = insert_chain d ns "" level.
Proof. intros. now apply add_entry. Qed.

Lemma fold_add_path_ok (rest : list string) :
  forall (seen : list string) (level : list tree_node),
    Forall is_entry rest -> StronglySorted str_lt rest ->
    (forall e' e, In e' seen -> In e rest -> str_lt e' e) ->
    level_ok seen "" level ->
    exists seen', level_ok seen' "" (fold_left add_path rest level).
Proof.
  induction rest as [|e rest IH]; intros seen level Hent Hsorted Hlt Hlevel.
  - now exists seen.
  - inversion Hent as [|? ? (ns & d & Hok & Hne & ->) Hent']; subst.
    apply StronglySorted_inv in Hsorted as [Hsorted Hfirst].
    cbn [fold_left]. rewrite add_path_entry by assumption.
    apply (IH (entry_of ns d :: seen)); try assumption.
    + intros e' e2 [<- | He'] He2.
      * rewrite Forall_forall in Hfirst. now apply Hfirst.
      * apply Hlt; [assumption | now right].
    + apply (insert_ok ns d "" level seen Hok Hne); [|assumption].
      intros e' He'. apply Hlt; [assumption | now left].
Qed.

Lemma each_node_dir (P : list tree_node -> Prop) (n p : string) (children : list tree_node) :
  each_node P (DirNode n p children) <-> each_level P children.
Proof.
  cbn [each_node]. unfold each_level.
  assert (E : forall l, (fix all (l : list tree_node) : Prop :=
                 match l with [] => True | c :: l' => each_node P c /\ all l' end) l
              <-> Forall (each_node P) l).
  { induction l as [|c l IH]; [split; constructor|].
    rewrite IH. split; [intros []; now constructor | now inversion 1]. }
  now rewrite E.
Qed.

Lemma node_ok_each (seen : list string) (x : tree_node) :
  forall cur, node_ok seen cur x ->
              each_node (fun level => unique_names level /\ labels_ordered level) x.
Proof.
  revert x. fix IH 1. intros [n p | n p children] cur; [constructor|].
  rewrite node_ok_dir, each_node_dir. intros (_ & _ & _ & Hu & Hl & Hc).
  split; [now split|]. clear Hu Hl.
  induction children as [|c children IHc]; [constructor|].
  inversion Hc; subst. constructor; [now apply (IH c p) | now apply IHc].
Qed.

Lemma level_ok_each (seen : list string) (cur : string) (level : list tree_node) :
  level_ok seen cur level ->
  each_level (fun level => unique_names level /\ labels_ordered level) level.
Proof.
  intros (Hu & Hl & Hc). split; [now split|].
  eapply Forall_impl; [|exact Hc]. intros x. apply node_ok_each.
Qed.

(** The tree of entries in strictly increasing order: at every level the
    names are unique and the labels in increasing order. *)
Lemma create_file_tree_ordered (listing : list string) :
  Forall is_entry listing -> StronglySorted str_lt listing ->
  each_level (fun level => unique_names level /\ labels_ordered level)
    (create_file_tree listing).
Proof.
  intros Hent Hsorted. rewrite create_file_tree_eq.
  destruct (fold_add_path_ok listing [] [] Hent Hsorted) as [seen' H]; [easy | |].
  - repeat split; constructor.
  - now apply level_ok_each in H.
Qed.

(** *** A level of files *)

Lemma fold_add_path_files (l : list string) :
  forall acc : list string,
    Forall comp_ok l -> NoDup (acc ++ l) ->
    fold_left add_path l (map (fun n => FileNode n n) acc)
    = map (fun n => FileNode n n) (acc ++ l).
Proof.
  induction l as [|n l IH]; intros acc Hok Hnd; [now rewrite app_nil_r|].
  inversion Hok as [|? ? Hn Hl]; subst. cbn [fold_left].
  assert (E : add_path (map (fun n => FileNode n n) acc) n
              = map (fun n => FileNode n n) (acc ++ [n])).
  { replace n with (entry_of [n] false) at 1
      by (unfold entry_of; cbn; apply append_nil_r).
    rewrite add_path_entry; [| constructor; [assumption | constructor] | discriminate].
    cbn [insert_chain orb]. unfold under. cbn [String.eqb String.append].
    replace (descend n _ _) with (@None (list tree_node)); [now rewrite map_app|].
    symmetry. apply descend_none. rewrite map_map. cbn [tree_name]. rewrite map_id.
    apply NoDup_remove_2 in Hnd. intros Hin. apply Hnd. apply in_or_app. now left. }
  rewrite E, IH; [now rewrite <- app_assoc | assumption | now rewrite <- app_assoc].
Qed.

Lemma create_file_tree_files (l : list string) :
  Forall comp_ok l -> NoDup l ->
  create_file_tree l = map (fun n => FileNode n n) l.
Proof. intros Hok Hnd. rewrite create_file_tree_eq. now apply (fold_add_path_files l []). Qed.

Lemma print_tree_files (l : list string) (root_path : string) :
  print_tree (map (fun n => FileNode n n) l) root_path 0 ""
  = (root_line root_path 0 ++ String.concat "" (map file_line l))%string.
Proof.
  unfold print_tree. f_equal. rewrite map_map. f_equal.
Qed.

(** ** Directories that cannot be listed *)

Lemma readable_name (n : fsnode) : node_name (readable n) = node_name n.
Proof. now destruct n as [|? [] ?]. Qed.

Lemma readable_isdir (n : fsnode) : isdir (readable n) = isdir n.
Proof. now destruct n as [|? [] ?]. Qed.

Lemma readable_size (n : fsnode) : node_size (readable n) <= node_size n.
Proof.
  induction n as [name | name raises children IH] using fsnode_induction; [reflexivity|].
  destruct raises; cbn [readable node_size fold_right]; [lia|].
  apply le_n_S. induction IH as [|c children Hc _ IHc]; cbn [map fold_right]; lia.
Qed.

Section Readable.
Variables (cwd initial_path : string) (ignore_patterns : list string).

Lemma enqueued_readable (path : string) (children : list fsnode) :
  enqueued ignore_patterns path (map readable children)
  = readable_queue (enqueued ignore_patterns path children).
Proof.
  unfold enqueued, readable_queue.
  rewrite map_map.
  rewrite (map_ext _ (fun c => (fun e : string * fsnode => (fst e, readable (snd e)))
                                 (posixpath.join path (node_name c), c)))
    by (intros c; cbn [fst snd]; now rewrite readable_name).
  rewrite <- (map_map (fun c => (posixpath.join path (node_name c), c))
                      (fun e => (fst e, readable (snd e)))).
  rewrite sort_by_map. cbn [fst].
  set (sorted := sort_by _ _).
  induction sorted as [|e sorted IH]; [reflexivity|].
  cbn [map filter fst]. destruct (negb _); cbn [map]; now rewrite IH.
Qed.

Lemma listed_readable (path : string) (n : fsnode) (q : list (string * fsnode)) :
  listed ignore_patterns path n = Returns q ->
  listed ignore_patterns path (readable n) = Returns (readable_queue q).
Proof.
  destruct n as [name | name [e|] children]; cbn [listed readable].
  - now intros [= <-].
  - destruct (caught e); [now intros [= <-] | discriminate].
  - intros [= <-]. now rewrite enqueued_readable.
Qed.

Lemma scan_step_readable (path : string) (n : fsnode) (rest : list (string * fsnode))
      (st st' : scan_state) :
  scan_step cwd initial_path ignore_patterns path n rest st = Returns st' ->
  scan_step cwd initial_path ignore_patterns path (readable n) (readable_queue rest)
    (readable_state st) = Returns (readable_state st').
Proof.
  rewrite !scan_step_spec. destruct (should_skip path ignore_patterns).
  - now intros [= <-].
  - destruct (listed ignore_patterns path n) as [q| |] eqn:L; try discriminate.
    rewrite (listed_readable _ _ _ L). intros [= <-].
    unfold own_entry, counted, rel_entry. rewrite readable_isdir.
    unfold readable_state, readable_queue. cbn [results queue file_count].
    now rewrite map_app.
Qed.

Lemma scan_loop_readable (fuel : nat) (st st' : scan_state) :
  scan_loop cwd initial_path ignore_patterns fuel st = Returns st' ->
  scan_loop cwd initial_path ignore_patterns fuel (readable_state st)
  = Returns (readable_state st').
Proof.
  revert st. induction fuel as [|fuel IH]; intros st; rewrite !scan_loop_eq;
    cbn [readable_state queue file_count]; destruct (queue st) as [|[path n] rest] eqn:Q;
    cbn [readable_queue map fst snd]; try (intros [= <-]; unfold readable_state; now rewrite Q);
    destruct (file_count st <? MAX_FILES);
    try (intros [= <-]; unfold readable_state; now rewrite Q); try discriminate.
  destruct (scan_step cwd initial_path ignore_patterns path n rest st) as [st1| |] eqn:S1;
    try discriminate.
  intros H. apply scan_step_readable in S1. unfold readable_queue in S1.
  fold (readable_state st). rewrite S1. now apply IH.
Qed.

(** A directory whose listing raises what is caught contributes what an
    empty directory does. *)
Lemma list_directory_readable (root : fsnode) (listing : list string) :
  list_directory cwd initial_path ignore_patterns root = Returns listing ->
  list_directory cwd initial_path ignore_patterns (readable root) = Returns listing.
Proof.
  unfold list_directory.
  destruct (scan_loop _ _ _ (node_size root) _) as [st| |] eqn:L; try discriminate.
  intros [= <-]. apply scan_loop_readable in L.
  unfold readable_state at 1 in L. cbn [results queue file_count readable_queue map fst snd] in L.
  pose proof (scan_loop_total cwd initial_path ignore_patterns (node_size (readable root))
                {| results := []; queue := [(initial_path, readable root)]; file_count := 0 |})
    as Htotal.
  destruct (scan_loop _ _ _ (node_size (readable root)) _) as [st2| |] eqn:L2.
  - apply (scan_loop_more_fuel _ _ _ _ (node_size root)) in L2;
      [| discriminate | apply readable_size].
    rewrite L2 in L. now injection L as ->.
  - apply (scan_loop_more_fuel _ _ _ _ (node_size root)) in L2;
      [| discriminate | apply readable_size].
    rewrite L2 in L. discriminate.
  - exfalso. apply Htotal; [simpl; lia | reflexivity].
Qed.
End Readable.

(** ** Deciding the hypotheses on a given tree *)

Lemma nodupb_NoDup (l : list string) : nodupb l = true -> NoDup l.
Proof.
  induction l as [|x l IH]; simpl; [constructor|].
  rewrite andb_true_iff, negb_true_iff. intros [Hx Hl]. constructor; [|now apply IH].
  intros Hin.
  assert (E : existsb (String.eqb x) l = true)
    by (apply existsb_exists; exists x; split; [assumption | apply String.eqb_refl]).
  congruence.
Qed.

Lemma forallb_Forall {A : Type} (f : A -> bool) (l : list A) :
  forallb f l = true -> Forall (fun x => f x = true) l.
Proof. intros H. apply Forall_forall. now apply forallb_forall. Qed.

Lemma forallb_Forall_false {A : Type} (f : A -> bool) (l : list A) :
  forallb (fun x => negb (f x)) l = true -> Forall (fun x => f x = false) l.
Proof.
  intros H. apply Forall_forall. intros x Hx.
  rewrite forallb_forall in H. apply negb_true_iff. now apply H.
Qed.

Lemma lookup_reaches (names : list string) :
  forall root n, lookup root names = Some n -> reaches root names n.
Proof.
  induction names as [|x names IH]; intros root n; cbn [lookup].
  - intros [= <-]. constructor.
  - destruct root as [|name [e|] children]; try discriminate.
    destruct (find _ children) as [c|] eqn:F; [|discriminate].
    apply find_some in F as [Hc Hx]. apply String.eqb_eq in Hx. subst x.
    intros H. apply reaches_child; [assumption | now apply IH].
Qed.

(** ** What is raised *)

Lemma scan_loop_raises (cwd initial_path : string) (ignore_patterns : list string)
      (fuel : nat) (st : scan_state) (e : oserror) :
  scan_loop cwd initial_path ignore_patterns fuel st = Raises e -> caught e = false.
Proof.
  revert st. induction fuel as [|fuel IH]; intros st; rewrite scan_loop_eq;
    destruct (queue st) as [|[path n] rest]; try discriminate;
    destruct (file_count st <? MAX_FILES); try discriminate.
  rewrite scan_step_spec. destruct (should_skip path ignore_patterns); [apply IH|].
  destruct n as [name | name [err|] children]; cbn [listed]; try apply IH.
  destruct (caught err) eqn:C; [apply IH|]. now intros [= <-].
Qed.

Lemma list_directory_raises (cwd initial_path : string) (ignore_patterns : list string)
      (root : fsnode) (e : oserror) :
  list_directory cwd initial_path ignore_patterns root = Raises e -> caught e = false.
Proof.
  unfold list_directory.
  destruct (scan_loop _ _ _ _ _) as [st|err|] eqn:L; try discriminate.
  intros [= <-]. now apply scan_loop_raises in L.
Qed.

(** ** What is printed *)

Lemma concat_nodes (f : tree_node -> string) (l : list tree_node) :
  (fix nodes (l : list tree_node) : string :=
     match l with
     | [] => ""
     | c :: l' => (f c ++ nodes l')%string
     end) l
  = String.concat "" (map f l).
Proof.
  induction l as [|x l IH]; [reflexivity|]. rewrite IH. cbn [map String.concat].
  destruct (map f l); [apply append_nil_r | reflexivity].
Qed.

Lemma print_node_dir (root_path : string) (level : nat) (prefix name path : string)
      (children : list tree_node) :
  print_node root_path level prefix (DirNode name path children)
  = (prefix ++ "- " ++ name ++ "/" ++ Str.nl
     ++ String.concat "" (map (print_node root_path (level + 1) (prefix ++ "  ")) children))%string.
Proof.
  cbn [print_node]. destruct children as [|c children]; [reflexivity|].
  unfold root_line, level_prefix. replace (level + 1 =? 0) with false
    by (symmetry; apply Nat.eqb_neq; lia).
  cbn [String.append].
  now rewrite (concat_nodes (print_node root_path (level + 1) (prefix ++ "  ")) (c :: children)).
Qed.

Lemma rstrip_no_trailing (c : ascii) (s : string) :
  Str.endswith (Str.rstrip c s) (String c "") = false.
Proof.
  induction s as [|a s IH]; [reflexivity|]. cbn [Str.rstrip].
  destruct (Str.rstrip c s) as [|b r] eqn:E.
  - destruct (Ascii.eqb a c) eqn:Ea; [reflexivity|].
    cbn [Str.endswith]. rewrite orb_false_r. apply String.eqb_neq.
    intros [= ->]. now rewrite Ascii.eqb_refl in Ea.
  - cbn [Str.endswith] in *. rewrite IH, orb_false_r. apply String.eqb_neq. discriminate.
Qed.

(** ** A listing that is known up to its order *)

(** Two sorted lists with the same elements are the same list. *)
Lemma sorted_perm_eq (l1 l2 : list string) :
  Sorted str_le l1 -> Sorted str_le l2 -> Permutation l1 l2 -> l1 = l2.
Proof.
  intros H1 H2. apply Sorted_StronglySorted in H1, H2; try exact str_le_trans.
  revert l2 H2. induction H1 as [|x l1 Hl1 IH Hx]; intros l2 H2 Hp.
  - now apply Permutation_nil in Hp.
  - destruct H2 as [|y l2 Hl2 Hy].
    + apply Permutation_sym, Permutation_nil in Hp. discriminate.
    + assert (E : x = y).
      { assert (Hxin : In x (y :: l2)) by (apply (Permutation_in _ Hp); now left).
        assert (Hyin : In y (x :: l1))
          by (apply (Permutation_in _ (Permutation_sym Hp)); now left).
        destruct Hxin as [-> | Hxin]; [reflexivity|].
        destruct Hyin as [-> | Hyin]; [reflexivity|].
        rewrite Forall_forall in Hx, Hy.
        apply String.leb_antisym; [now apply Hx | now apply Hy]. }
      subst y. f_equal. apply IH; [assumption|]. now apply Permutation_cons_inv in Hp.
Qed.

(** The files the walk records are files of the tree. *)
Lemma walk_count_le (initial_path : string) (ignore_patterns : list string) (n : fsnode) :
  forall path, walk_count initial_path ignore_patterns path n <= count_files n.
Proof.
  induction n as [name | name raises children IH] using fsnode_induction;
    intros path; rewrite walk_count_eq; destruct (should_skip path ignore_patterns);
    try (cbn [count_files]; lia); unfold counted.
  - destruct (negb _ && negb _); cbn [count_files]; lia.
  - cbn [isdir negb]. rewrite andb_false_r. cbn [Nat.add count_files].
    destruct raises as [e|]; [lia|].
    induction IH as [|c children Hc _ IHc]; cbn [fold_right]; [lia|].
    specialize (Hc (posixpath.join path (node_name c))). lia.
Qed.

Section WalkOf.
Variables (cwd initial_path : string) (ignore_patterns : list string).
Hypothesis Habs : posixpath.isabs initial_path = true.

Lemma own_entry_below (ns : list string) (n : fsnode) :
  Forall (fun x => valid_name x = true) ns -> ns <> [] ->
  own_entry cwd initial_path (path_of initial_path ns) n = [entry_of ns (isdir n)].
Proof.
  intros Hns Hne. unfold own_entry.
  pose proof (path_of_neq _ _ Habs Hns Hne) as Hp. apply String.eqb_neq in Hp.
  rewrite Hp. cbn [negb]. now rewrite rel_entry_path_of.
Qed.

Lemma walk_file (ns : list string) (name : string) :
  Forall (fun x => valid_name x = true) ns -> ns <> [] ->
  should_skip (path_of initial_path ns) ignore_patterns = false ->
  walk cwd initial_path ignore_patterns (path_of initial_path ns) (File name)
  = [entry_of ns false].
Proof.
  intros Hns Hne Hskip. rewrite walk_eq, Hskip, own_entry_below by assumption.
  now rewrite app_nil_r.
Qed.

Lemma walk_dir (ns : list string) (name : string) (children : list fsnode) :
  Forall (fun x => valid_name x = true) ns -> ns <> [] ->
  should_skip (path_of initial_path ns) ignore_patterns = false ->
  walk cwd initial_path ignore_patterns (path_of initial_path ns) (Dir name None children)
  = entry_of ns true
    :: flat_map (fun c => walk cwd initial_path ignore_patterns
                            (path_of initial_path (ns ++ [node_name c])) c) children.
Proof.
  intros Hns Hne Hskip. rewrite walk_eq, Hskip, own_entry_below by assumption.
  cbn [app isdir]. f_equal. apply flat_map_ext. intros c. now rewrite path_of_app.
Qed.

Lemma walk_root (name : string) (children : list fsnode) :
  should_skip initial_path ignore_patterns = false ->
  walk cwd initial_path ignore_patterns initial_path (Dir name None children)
  = flat_map (fun c => walk cwd initial_path ignore_patterns
                         (path_of initial_path [node_name c]) c) children.
Proof.
  intros Hskip. rewrite walk_eq, Hskip. unfold own_entry. now rewrite String.eqb_refl.
Qed.
End WalkOf.

(** The listing of scenario A, whatever the root and the order in which
    its two children are listed. *)
Lemma scenario_a_listing (cwd initial_path rname : string) (children : list fsnode) :
  posixpath.isabs initial_path = true ->
  Permutation [File "a.txt"; Dir "b" None [File "c.txt"]] children ->
  should_skip initial_path [] = false ->
  should_skip (path_of initial_path ["a.txt"]) [] = false ->
  should_skip (path_of initial_path ["b"]) [] = false ->
  should_skip (path_of initial_path ["b"; "c.txt"]) [] = false ->
  list_directory cwd initial_path [] (Dir rname None children)
  = Returns ["a.txt"; "b/"; "b/c.txt"].
Proof.
  intros Habs Hperm Hroot Ha Hb Hc.
  assert (Hwalk : Permutation
                    (walk cwd initial_path [] initial_path (Dir rname None children))
                    ["a.txt"; "b/"; "b/c.txt"]).
  { rewrite walk_root by assumption.
    rewrite <- (Permutation_flat_map _ Hperm). cbn [flat_map node_name].
    rewrite walk_file, walk_dir; try assumption; try discriminate;
      try (repeat constructor; reflexivity).
    cbn [flat_map node_name app].
    rewrite walk_file; try assumption; try discriminate;
      try (repeat constructor; reflexivity). }
  assert (Hok : only_caught (Dir rname None children) = true).
  { cbn [only_caught]. apply forallb_forall. intros c Hin.
    apply (Permutation_in _ (Permutation_sym Hperm)) in Hin.
    destruct Hin as [<- | [<- | []]]; reflexivity. }
  destruct (list_directory_returns cwd initial_path [] _ Hok) as [listing Hlist].
  rewrite Hlist. f_equal. apply sorted_perm_eq.
  - exact (list_directory_sorted _ _ _ _ _ Hlist).
  - repeat constructor.
  - rewrite <- Hwalk. apply (list_directory_complete _ _ _ _ _) ; [|assumption].
    eapply Nat.le_lt_trans; [apply walk_count_le|].
    cbn [count_files].
    replace (fold_right (fun c acc => count_files c + acc) 0 children) with 2.
    + unfold MAX_FILES. lia.
    + apply Permutation_length_2_inv in Hperm as [-> | ->]; reflexivity.
Qed.

(** * The claims *)

(** C3.  When nothing is found at the resolved path, [forward] returns
    the message that the path does not exist; when what is found there
    is not a directory, it returns the message that the path is not a
    directory.  Either message names the resolved path and is the whole
    output: it does not start with the marker of the root line, and it
    is returned whatever a scan would have done. *)
Theorem forward_path_errors :
  forall (fs : filesystem) (path : string) (ignore : option (list string)),
    (stat fs (resolved fs path) = None ->
     forward fs path ignore
     = Returns ("Error: Path '" ++ resolved fs path ++ "' does not exist")%string)
    /\ (forall name, stat fs (resolved fs path) = Some (File name) ->
          forward fs path ignore
          = Returns ("Error: Path '" ++ resolved fs path ++ "' is not a directory")%string)
    /\ (forall out, isdir_at fs (resolved fs path) = false ->
          forward fs path ignore = Returns out ->
          Str.startswith out "Error: Path '" = true /\ Str.startswith out "- " = false).
Proof.
  intros fs path ignore. split; [|split].
  - intros H. now rewrite forward_eq, H.
  - intros name H. now rewrite forward_eq, H.
  - intros out. unfold isdir_at. rewrite forward_eq.
    destruct (stat fs (resolved fs path)) as [[name | name raises children]|];
      try discriminate; intros _ [= <-];
      (split; [apply prefix_iff; eexists; reflexivity | reflexivity]).
Qed.

(** Scenario D, and a path at which nothing is found. *)
Lemma forward_path_errors_witness :
  forward (mount "/home" "/repo" scenario_a) "/repo/a.txt" None
  = Returns "Error: Path '/repo/a.txt' is not a directory"
  /\ forward (mount "/home" "/repo" scenario_a) "missing" None
     = Returns "Error: Path '/home/missing' does not exist".
Proof.
  split.
  - exact (proj1 (proj2 (forward_path_errors (mount "/home" "/repo" scenario_a) "/repo/a.txt" None))
             "a.txt" eq_refl).
  - exact (proj1 (forward_path_errors (mount "/home" "/repo" scenario_a) "missing" None) eq_refl).
Defined.

(** C4.  An entry whose base name (the trailing separators of its path
    stripped) starts with a dot, and is not the name [.], is not in the
    listing, and neither is any entry below it, whatever the patterns
    to ignore.  The entry is the one reached from the root through
    [above] and then [name]; [below] leads from it to the entries under
    it, itself when [below] is empty. *)
Theorem hidden_entries_absent :
  forall (cwd initial_path : string) (ignore_patterns : list string) (root : fsnode)
         (listing above below : list string) (name : string) (n : fsnode),
    let base :=
      posixpath.basename (Str.rstrip posixpath.sep (path_of initial_path (above ++ [name]))) in
    posixpath.isabs initial_path = true ->
    valid_tree root = true ->
    list_directory cwd initial_path ignore_patterns root = Returns listing ->
    reaches root (above ++ name :: below) n ->
    Str.startswith base "." = true ->
    (base =? ".")%string = false ->
    ~ In (rel_entry cwd initial_path (path_of initial_path (above ++ name :: below)) n) listing.
Proof.
  intros cwd initial_path ignore_patterns root listing above below name n base
         Habs Hvalid Hlist Hreach Hdot Hnot Hin.
  assert (Hskip : should_skip (path_of initial_path (above ++ [name])) ignore_patterns = true).
  { unfold should_skip. fold base. now rewrite Hdot, Hnot. }
  apply (listed_visible cwd initial_path ignore_patterns Habs root listing Hvalid Hlist) in Hin
    as [Hvis _]; [| assumption | now destruct above].
  replace (above ++ name :: below) with ((above ++ [name]) ++ below) in Hvis
    by now rewrite <- app_assoc.
  apply visible_app in Hvis; [congruence | now destruct above].
Qed.

(** Scenario B: [.git/HEAD] is below the hidden [.git/]. *)
Lemma hidden_entries_absent_witness :
  ~ In (rel_entry "/home" "/repo" (path_of "/repo" [".git"; "HEAD"]) (File "HEAD"))
       ["README.md"].
Proof.
  apply (hidden_entries_absent "/home" "/repo" [] scenario_b ["README.md"] [] ["HEAD"] ".git"
           (File "HEAD")).
  - reflexivity.
  - reflexivity.
  - vm_compute. reflexivity.
  - apply lookup_reaches. reflexivity.
  - reflexivity.
  - reflexivity.
Defined.

(** C5.  An entry whose path, as the scan builds it, matches one of the
    patterns to ignore is not in the listing, and neither is any entry
    below it.  In scenario C, with the pattern [*.log], only [app.py] is
    listed. *)
Theorem ignored_entries_absent :
  (forall (cwd initial_path pattern : string) (ignore_patterns : list string) (root : fsnode)
          (listing above below : list string) (name : string) (n : fsnode),
      posixpath.isabs initial_path = true ->
      valid_tree root = true ->
      list_directory cwd initial_path ignore_patterns root = Returns listing ->
      reaches root (above ++ name :: below) n ->
      In pattern ignore_patterns ->
      fnmatch.fnmatch (path_of initial_path (above ++ [name])) pattern = true ->
      ~ In (rel_entry cwd initial_path (path_of initial_path (above ++ name :: below)) n)
           listing)
  /\ list_directory "/home" "/repo" ["*.log"] scenario_c = Returns ["app.py"]
  /\ forward (mount "/home" "/repo" scenario_c) "/repo" (Some ["*.log"])
     = Returns ("- /repo/" ++ Str.nl ++ "  - app.py" ++ Str.nl)%string.
Proof.
  split; [|split; vm_compute; reflexivity].
  intros cwd initial_path pattern ignore_patterns root listing above below name n
         Habs Hvalid Hlist Hreach Hpat Hmatch Hin.
  pose proof (should_skip_pattern _ _ _ Hpat Hmatch) as Hskip.
  apply (listed_visible cwd initial_path ignore_patterns Habs root listing Hvalid Hlist) in Hin
    as [Hvis _]; [| assumption | now destruct above].
  replace (above ++ name :: below) with ((above ++ [name]) ++ below) in Hvis
    by now rewrite <- app_assoc.
  apply visible_app in Hvis; [congruence | now destruct above].
Qed.

(** A directory that matches the pattern [*sub]: the file below it is
    not listed. *)
Lemma ignored_entries_absent_witness :
  ~ In (rel_entry "/home" "/repo" (path_of "/repo" ["sub"; "app.py"]) (File "app.py"))
       ["main.py"].
Proof.
  apply (proj1 ignored_entries_absent "/home" "/repo" "*sub" ["*sub"] nested_log ["main.py"]
           [] ["app.py"] "sub" (File "app.py")).
  - reflexivity.
  - reflexivity.
  - vm_compute. reflexivity.
  - apply lookup_reaches. reflexivity.
  - now left.
  - reflexivity.
Defined.

(** C9.  The test for the cache directory is a test on the base name and
    a test for the text [__pycache__/] anywhere in the path: a path that
    holds that text is skipped, also when no segment of it is
    [__pycache__].  [mod.py] in the directory [foo__pycache__] is such an
    entry: it is skipped and missing from the listing, while the
    directory itself is listed. *)
Theorem cache_test_matches_inside_segment :
  (forall (path : string) (ignore_patterns : list string),
      let base := posixpath.basename (Str.rstrip posixpath.sep path) in
      should_skip path ignore_patterns
      = (Str.startswith base "." && negb (base =? ".")%string)
        || (base =? "__pycache__")%string
        || Str.contains "__pycache__/" path
        || existsb (fun pattern => fnmatch.fnmatch path pattern) ignore_patterns)
  /\ lookup longer_segment ["foo__pycache__"; "mod.py"] = Some (File "mod.py")
  /\ path_of "/repo" ["foo__pycache__"; "mod.py"] = "/repo/foo__pycache__/mod.py"
  /\ ~ In "__pycache__" (Str.split "/" "/repo/foo__pycache__/mod.py")
  /\ should_skip "/repo/foo__pycache__/mod.py" [] = true
  /\ should_skip "/repo/foo__pycache__" [] = false
  /\ list_directory "/home" "/repo" [] longer_segment = Returns ["foo__pycache__/"; "main.py"].
Proof.
  split; [|repeat split; try (vm_compute; reflexivity)].
  - intros path ignore_patterns base. unfold should_skip. fold base.
    unfold posixpath.sep. rewrite replace_same.
    destruct (Str.startswith base "." && negb (base =? ".")%string); [reflexivity|].
    destruct ((base =? "__pycache__")%string || Str.contains "__pycache__/" path) eqn:E.
    + cbn [orb]. rewrite E. reflexivity.
    + cbn [orb]. rewrite E. cbn [orb]. now destruct (existsb _ _).
  - vm_compute. intuition discriminate.
Qed.

(** C10.  The patterns are matched against the absolute paths of the
    scan: a pattern that starts with an ordinary character other than
    the separator matches none of them and excludes nothing, and the
    listing depends on the patterns only through the absolute paths they
    match.  [app.log] matches the base name and the relative path of the
    file but not the path of the scan, so the file is listed; [*.log]
    matches across the separators, so the file of that name one
    directory down is not. *)
Theorem patterns_match_absolute_paths :
  (forall (fs : filesystem) (path pattern : string) (ignore_patterns : list string),
      posixpath.isabs (getcwd fs) = true ->
      starts_literal pattern = true ->
      forward fs path (Some (pattern :: ignore_patterns))
      = forward fs path (Some ignore_patterns))
  /\ (forall (cwd initial_path : string) (ign1 ign2 : list string) (root : fsnode),
        posixpath.isabs initial_path = true ->
        (forall p, posixpath.isabs p = true ->
                   existsb (fun pattern => fnmatch.fnmatch p pattern) ign1
                   = existsb (fun pattern => fnmatch.fnmatch p pattern) ign2) ->
        list_directory cwd initial_path ign1 root = list_directory cwd initial_path ign2 root)
  /\ fnmatch.fnmatch "app.log" "app.log" = true
  /\ fnmatch.fnmatch "/repo/app.log" "app.log" = false
  /\ forward (mount "/home" "/repo" scenario_c) "/repo" (Some ["app.log"])
     = Returns ("- /repo/" ++ Str.nl ++ "  - app.log" ++ Str.nl ++ "  - app.py" ++ Str.nl)%string
  /\ fnmatch.fnmatch "/repo/sub/app.log" "*.log" = true
  /\ forward (mount "/home" "/repo" nested_log) "/repo" (Some ["*.log"])
     = Returns ("- /repo/" ++ Str.nl ++ "  - main.py" ++ Str.nl ++ "  - sub/" ++ Str.nl
                ++ "    - app.py" ++ Str.nl)%string.
Proof.
  split; [|split; [|repeat split; vm_compute; reflexivity]].
  - intros fs path pattern ignore_patterns Hcwd Hlit. rewrite !forward_eq.
    destruct (stat fs (resolved fs path)) as [[name | name raises children]|]; try reflexivity.
    cbn [patterns_of].
    rewrite (list_directory_same _ _ (pattern :: ignore_patterns) ignore_patterns);
      [reflexivity | | now apply isabs_resolved].
    intros p Hp. now apply should_skip_literal.
  - intros cwd initial_path ign1 ign2 root Habs Hsame.
    apply list_directory_same; [|assumption].
    intros p Hp. unfold should_skip. now rewrite (Hsame p Hp).
Qed.

(** The pattern [app.log] in scenario C. *)
Lemma patterns_match_absolute_paths_witness :
  forward (mount "/home" "/repo" scenario_c) "/repo" (Some ["app.log"; "*.py"])
  = forward (mount "/home" "/repo" scenario_c) "/repo" (Some ["*.py"]).
Proof.
  apply (proj1 patterns_match_absolute_paths (mount "/home" "/repo" scenario_c) "/repo"
           "app.log" ["*.py"]); reflexivity.
Defined.

(** C1.  When the files to record, those under the root that are
    neither hidden nor excluded, are fewer than the cap, the listing
    holds every entry that the walk records, whatever the number of
    directories.  The flag is another matter: with one file and 999
    empty directories below the root, every entry is listed, the file
    and the 999 directories, yet [forward] finds [MAX_FILES] entries in
    the listing, directories included, and puts the banner before the
    tree. *)
Theorem banner_counts_directories :
  (forall (cwd initial_path : string) (ignore_patterns : list string) (root : fsnode)
          (listing : list string),
      walk_count initial_path ignore_patterns initial_path root < MAX_FILES ->
      list_directory cwd initial_path ignore_patterns root = Returns listing ->
      Permutation listing (walk cwd initial_path ignore_patterns initial_path root))
  /\ count_files many_directories = 1
  /\ walk_count "/repo" [] "/repo" many_directories = 1
  /\ 1 < MAX_FILES
  /\ list_directory "/home" "/repo" [] many_directories = Returns many_directories_listing
  /\ length many_directories_listing = MAX_FILES
  /\ filter (fun e => negb (Str.endswith e "/")) many_directories_listing = ["a.txt"]
  /\ has_banner (forward (mount "/home" "/repo" many_directories) "/repo" None) = true.
Proof.
  split; [intros; now apply (list_directory_complete cwd initial_path ignore_patterns root)|].
  split; [vm_compute; reflexivity|]. split; [vm_compute; reflexivity|].
  split; [unfold MAX_FILES; lia|].
  repeat split; vm_compute; reflexivity.
Qed.

(** C2.  A root that holds 1200 files and nothing else, none of them
    skipped, no pattern given: the listing is the first [MAX_FILES] of
    the names in increasing order, 1000 of them, all of them files of
    the root, and [forward] returns the banner, then the line of the
    root, then one line for each of them; the banner names the cap.
    Whatever the tree, a round of
    the loop that takes a directory from the queue leaves the counter as
    it is, and a round that moves the counter moves it by one and
    records the entry of a file. *)
Theorem flat_directory_truncated :
  (forall (fs : filesystem) (path rname : string) (names : list string),
      posixpath.isabs (getcwd fs) = true ->
      stat fs (resolved fs path) = Some (Dir rname None (map File names)) ->
      length names = 1200 ->
      NoDup names ->
      Forall (fun n => valid_name n = true) names ->
      should_skip (resolved fs path) [] = false ->
      Forall (fun n => should_skip (posixpath.join (resolved fs path) n) [] = false) names ->
      let shown := firstn MAX_FILES (sort_strings names) in
      length shown = 1000
      /\ incl shown names
      /\ list_directory (getcwd fs) (resolved fs path) [] (Dir rname None (map File names))
         = Returns shown
      /\ forward fs path None
         = Returns (TRUNCATED_MESSAGE ++ root_line (resolved fs path) 0
                    ++ String.concat "" (map file_line shown))%string)
  /\ Str.contains (Str.of_nat MAX_FILES) TRUNCATED_MESSAGE = true
  /\ (forall (cwd initial_path : string) (ignore_patterns : list string) (path : string)
             (n : fsnode) (rest : list (string * fsnode)) (st st' : scan_state),
        scan_step cwd initial_path ignore_patterns path n rest st = Returns st' ->
        (isdir n = true -> file_count st' = file_count st)
        /\ (file_count st' = file_count st
            \/ (file_count st' = file_count st + 1
                /\ isdir n = false
                /\ results st' = results st ++ [rel_entry cwd initial_path path n]))).
Proof.
  split; [|split; [vm_compute; reflexivity|]].
  - intros fs path rname names Hcwd Hstat Hlen Hnd Hvalid Hroot Hkept shown.
    pose proof (isabs_resolved fs path Hcwd) as Habs.
    pose proof (list_directory_files (getcwd fs) (resolved fs path) rname names
                  Habs Hvalid Hroot Hkept) as Hlist.
    fold shown in Hlist.
    assert (Hincl : incl shown names).
    { intros n Hn. apply In_firstn in Hn.
      now apply (Permutation_in _ (sort_by_perm (fun s : string => s) names)) in Hn. }
    assert (Hshown : length shown = 1000).
    { unfold shown. rewrite length_firstn. unfold sort_strings.
      rewrite (Permutation_length (sort_by_perm (fun s : string => s) names)), Hlen.
      reflexivity. }
    repeat split; try assumption.
    rewrite forward_eq, Hstat. cbn [patterns_of]. rewrite Hlist, Hshown.
    replace (MAX_FILES <=? 1000) with true by reflexivity.
    rewrite create_file_tree_files, print_tree_files; [reflexivity | |].
    + apply valid_comp_ok. rewrite Forall_forall in *. auto.
    + assert (Hsorted : NoDup (sort_strings names))
        by apply (Permutation_NoDup (Permutation_sym (sort_by_perm (fun s : string => s) names)) Hnd).
      rewrite <- (firstn_skipn MAX_FILES (sort_strings names)) in Hsorted.
      now apply NoDup_app_remove_r in Hsorted.
  - intros cwd initial_path ignore_patterns path n rest st st'.
    rewrite scan_step_spec. destruct (should_skip path ignore_patterns).
    + intros [= <-]. cbn [file_count]. split; [reflexivity | now left].
    + destruct (listed ignore_patterns path n) as [q| |]; try discriminate.
      intros [= <-]. cbn [file_count results]. unfold counted, own_entry.
      destruct (path =? initial_path)%string; cbn [negb andb].
      * rewrite Nat.add_0_r. split; [reflexivity | now left].
      * destruct (isdir n); cbn [negb]; [rewrite Nat.add_0_r | ];
          (split; [easy|]); [now left | right; now repeat split].
Qed.

(** Scenario E. *)
Lemma flat_directory_truncated_witness :
  let shown := firstn MAX_FILES (sort_strings (numbered "f" 1200)) in
  length shown = 1000
  /\ incl shown (numbered "f" 1200)
  /\ list_directory "/home" "/repo" [] scenario_e = Returns shown
  /\ forward (mount "/home" "/repo" scenario_e) "/repo" None
     = Returns (TRUNCATED_MESSAGE ++ root_line "/repo" 0
                ++ String.concat "" (map file_line shown))%string.
Proof.
  apply (proj1 flat_directory_truncated (mount "/home" "/repo" scenario_e) "/repo" "repo"
           (numbered "f" 1200)).
  - reflexivity.
  - reflexivity.
  - vm_compute. reflexivity.
  - apply nodupb_NoDup. vm_compute. reflexivity.
  - apply forallb_Forall. vm_compute. reflexivity.
  - reflexivity.
  - apply forallb_Forall_false. vm_compute. reflexivity.
Defined.

(** C6, as the specification states it, fails: the listing of [sub]
    raises [NotADirectoryError], which is not caught, and the call
    raises it. *)
Lemma uncaught_listing_error_is_raised :
  only_caught replaced_directory = false
  /\ list_directory "/home" "/repo" [] replaced_directory = Raises NotADirectoryError
  /\ forward (mount "/home" "/repo" replaced_directory) "/repo" None
     = Raises NotADirectoryError.
Proof. repeat split; vm_compute; reflexivity. Qed.

(** C6, amended.  A directory whose listing raises [PermissionError] or
    [FileNotFoundError] contributes no children and the scan goes on:
    when no listing in the tree raises anything else, the scan returns,
    with the listing of the tree in which those directories are empty,
    and so does [forward].  Whatever the tree, an error that the call
    raises is none of these two. *)
Theorem caught_listing_errors_absorbed :
  (forall (fs : filesystem) (path : string) (ignore : option (list string)) (root : fsnode),
      stat fs (resolved fs path) = Some root ->
      only_caught root = true ->
      (exists listing,
          list_directory (getcwd fs) (resolved fs path) (patterns_of ignore) root
          = Returns listing
          /\ list_directory (getcwd fs) (resolved fs path) (patterns_of ignore) (readable root)
             = Returns listing)
      /\ exists out, forward fs path ignore = Returns out)
  /\ (forall (fs : filesystem) (path : string) (ignore : option (list string)) (e : oserror),
        forward fs path ignore = Raises e -> caught e = false).
Proof.
  split.
  - intros fs path ignore root Hstat Hok.
    destruct (list_directory_returns (getcwd fs) (resolved fs path) (patterns_of ignore) root Hok)
      as [listing Hlist].
    split.
    + exists listing. split; [assumption | now apply list_directory_readable].
    + rewrite forward_eq, Hstat.
      destruct root as [name | name raises children]; [eexists; reflexivity|].
      rewrite Hlist. eexists. reflexivity.
  - intros fs path ignore e. rewrite forward_eq.
    destruct (stat fs (resolved fs path)) as [[name | name raises children]|]; try discriminate.
    destruct (list_directory _ _ _ _) as [listing|err|] eqn:L; try discriminate.
    intros [= <-]. now apply list_directory_raises in L.
Qed.

(** A directory that cannot be read and one that is gone. *)
Lemma caught_listing_errors_absorbed_witness :
  (exists listing,
      list_directory "/home" "/repo" [] partly_readable = Returns listing
      /\ list_directory "/home" "/repo" [] (readable partly_readable) = Returns listing)
  /\ exists out, forward (mount "/home" "/repo" partly_readable) "/repo" None = Returns out.
Proof.
  exact (proj1 caught_listing_errors_absorbed (mount "/home" "/repo" partly_readable) "/repo"
           None partly_readable eq_refl eq_refl).
Defined.

(** C7, as the specification states it, fails: the directory [docs]
    comes after the file [docs.md], since its entry is [docs/], and the
    names of the first level of the tree are not in increasing order. *)
Lemma names_not_in_order :
  valid_tree docs_and_file = true
  /\ list_directory "/home" "/repo" [] docs_and_file
     = Returns ["docs.md"; "docs/"; "docs/index.md"]
  /\ map tree_name (create_file_tree ["docs.md"; "docs/"; "docs/index.md"]) = ["docs.md"; "docs"]
  /\ ~ each_level (fun level => unique_names level /\ names_ordered level)
         (create_file_tree ["docs.md"; "docs/"; "docs/index.md"]).
Proof.
  repeat split.
  intros [[_ H] _]. unfold names_ordered in H.
  replace (map tree_name (create_file_tree ["docs.md"; "docs/"; "docs/index.md"]))
    with ["docs.md"; "docs"] in H by reflexivity.
  apply StronglySorted_inv in H as [_ H]. inversion H as [|? ? Hlt _]; subst.
  discriminate Hlt.
Qed.

(** C7, amended.  The listing is in strictly increasing order, and at
    every level of the tree built from it the names are unique and the
    nodes are in strictly increasing order of their labels, the label of
    a node being its name, followed by [/] for a directory: the order of
    their entries in the listing. *)
Theorem listing_and_tree_in_order :
  forall (cwd initial_path : string) (ignore_patterns : list string) (root : fsnode)
         (listing : list string),
    posixpath.isabs initial_path = true ->
    valid_tree root = true ->
    list_directory cwd initial_path ignore_patterns root = Returns listing ->
    StronglySorted str_lt listing
    /\ each_level (fun level => unique_names level /\ labels_ordered level)
         (create_file_tree listing).
Proof.
  intros cwd initial_path ignore_patterns root listing Habs Hvalid Hlist.
  pose proof (listing_strictly_sorted cwd initial_path ignore_patterns Habs root listing
                Hvalid Hlist) as Hsorted.
  split; [assumption|]. apply create_file_tree_ordered; [|assumption].
  apply Forall_forall. intros e He.
  apply (listing_entries cwd initial_path ignore_patterns Habs root listing Hvalid Hlist) in He
    as (ns & n & _ & Hns & Hne & _ & _ & ->).
  exists ns, (isdir n). split; [now apply valid_comp_ok | now split].
Qed.

(** The directory and the file whose name starts with the directory's. *)
Lemma listing_and_tree_in_order_witness :
  StronglySorted str_lt ["docs.md"; "docs/"; "docs/index.md"]
  /\ each_level (fun level => unique_names level /\ labels_ordered level)
       (create_file_tree ["docs.md"; "docs/"; "docs/index.md"]).
Proof.
  apply (listing_and_tree_in_order "/home" "/repo" [] docs_and_file); reflexivity.
Defined.

(** C8.  Scenario A: a root that holds [a.txt] and the directory [b],
    which holds [c.txt], none of them skipped, no pattern given.  The
    listing is [a.txt], [b/], [b/c.txt], and [forward] returns the line
    of the root, which is the marker and the absolute path of the root
    with its trailing separators replaced by one [/], then [- a.txt] and
    [- b/] after two spaces, then [- c.txt] after four.  Whatever the
    tree: the first line is that line of the root; a file is printed as
    the prefix, the marker and its name; a directory is printed the same
    with [/] after its name, and then its children with two more spaces
    of prefix. *)
Theorem scenario_a_rendering :
  (forall (fs : filesystem) (path rname : string) (children : list fsnode),
      posixpath.isabs (getcwd fs) = true ->
      stat fs (resolved fs path) = Some (Dir rname None children) ->
      Permutation [File "a.txt"; Dir "b" None [File "c.txt"]] children ->
      should_skip (resolved fs path) [] = false ->
      should_skip (path_of (resolved fs path) ["a.txt"]) [] = false ->
      should_skip (path_of (resolved fs path) ["b"]) [] = false ->
      should_skip (path_of (resolved fs path) ["b"; "c.txt"]) [] = false ->
      list_directory (getcwd fs) (resolved fs path) [] (Dir rname None children)
      = Returns ["a.txt"; "b/"; "b/c.txt"]
      /\ forward fs path None
         = Returns ("- " ++ Str.rstrip "/" (resolved fs path) ++ "/" ++ Str.nl
                    ++ "  - a.txt" ++ Str.nl
                    ++ "  - b/" ++ Str.nl
                    ++ "    - c.txt" ++ Str.nl)%string
      /\ posixpath.isabs (resolved fs path) = true
      /\ Str.endswith (Str.rstrip "/" (resolved fs path)) "/" = false)
  /\ (forall (tree : list tree_node) (root_path : string),
        print_tree tree root_path 0 ""
        = ("- " ++ Str.rstrip "/" root_path ++ "/" ++ Str.nl
           ++ String.concat "" (map (print_node root_path 0 "  ") tree))%string)
  /\ (forall (root_path : string) (level : nat) (prefix name path : string),
        print_node root_path level prefix (FileNode name path)
        = (prefix ++ "- " ++ name ++ Str.nl)%string)
  /\ (forall (root_path : string) (level : nat) (prefix name path : string)
             (children : list tree_node),
        print_node root_path level prefix (DirNode name path children)
        = (prefix ++ "- " ++ name ++ "/" ++ Str.nl
           ++ String.concat ""
                (map (print_node root_path (level + 1) (prefix ++ "  ")) children))%string).
Proof.
  assert (Hroot : forall (tree : list tree_node) (root_path : string),
             print_tree tree root_path 0 ""
             = ("- " ++ Str.rstrip "/" root_path ++ "/" ++ Str.nl
                ++ String.concat "" (map (print_node root_path 0 "  ") tree))%string).
  { intros tree root_path. unfold print_tree, root_line, level_prefix.
    cbn [Nat.eqb posixpath.sep]. now rewrite !append_assoc. }
  split; [|split; [exact Hroot | split; [reflexivity | apply print_node_dir]]].
  intros fs path rname children Hcwd Hstat Hperm Hskip Ha Hb Hc.
  pose proof (isabs_resolved fs path Hcwd) as Habs.
  pose proof (scenario_a_listing (getcwd fs) (resolved fs path) rname children
                Habs Hperm Hskip Ha Hb Hc) as Hlist.
  repeat split; try assumption; [|apply rstrip_no_trailing].
  rewrite forward_eq, Hstat. cbn [patterns_of]. rewrite Hlist.
  replace (MAX_FILES <=? length ["a.txt"; "b/"; "b/c.txt"]) with false by reflexivity.
  rewrite Hroot. reflexivity.
Qed.

(** Scenario A on the root [/repo]. *)
Lemma scenario_a_rendering_witness :
  list_directory "/home" "/repo" [] scenario_a = Returns ["a.txt"; "b/"; "b/c.txt"]
  /\ forward (mount "/home" "/repo" scenario_a) "/repo" None
     = Returns ("- /repo/" ++ Str.nl
                ++ "  - a.txt" ++ Str.nl
                ++ "  - b/" ++ Str.nl
                ++ "    - c.txt" ++ Str.nl)%string
  /\ posixpath.isabs "/repo" = true
  /\ Str.endswith "/repo" "/" = false.
Proof.
  apply (proj1 scenario_a_rendering (mount "/home" "/repo" scenario_a) "/repo" "repo"
           [File "a.txt"; Dir "b" None [File "c.txt"]]); reflexivity.
Defined.

(** ** What the loop of the scan keeps *)

Lemma reaches_snoc (root n : fsnode) (ns : list string) :
  reaches root ns n ->
  forall name children c,
    n = Dir name None children -> In c children -> reaches root (ns ++ [node_name c]) c.
Proof.
  induction 1 as [n|name0 children0 c0 names n Hin Hr IH]; intros name children c -> Hc.
  - cbn [app]. apply (reaches_child name children c [] c Hc). constructor.
  - cbn [app]. apply reaches_child; [assumption|]. now apply (IH name children).
Qed.

Lemma enqueued_in (ignore_patterns : list string) (path : string) (children : list fsnode)
      (e : string * fsnode) :
  In e (enqueued ignore_patterns path children) ->
  exists c, In c children /\ e = (posixpath.join path (node_name c), c).
Proof.
  unfold enqueued. rewrite filter_In. intros [Hin _].
  apply (Permutation_in _ (sort_by_perm fst _)) in Hin.
  apply in_map_iff in Hin. destruct Hin as [c [<- Hc]]. now exists c.
Qed.

Lemma listed_in (ignore_patterns : list string) (path : string) (n : fsnode)
      (q : list (string * fsnode)) (e : string * fsnode) :
  listed ignore_patterns path n = Returns q -> In e q ->
  exists name children c,
    n = Dir name None children /\ In c children
    /\ e = (posixpath.join path (node_name c), c).
Proof.
  destruct n as [name|name [err|] children]; cbn [listed].
  - intros [= <-] [].
  - destruct (caught err); [intros [= <-] [] | discriminate].
  - intros [= <-] Hin. apply enqueued_in in Hin. destruct Hin as [c [Hc ->]].
    now exists name, children, c.
Qed.

Lemma is_file_entry_of (ns : list string) (d : bool) :
  Forall (fun x => valid_name x = true) ns -> ns <> [] ->
  is_file_entry (entry_of ns d) = negb d.
Proof.
  intros Hv Hne. unfold is_file_entry.
  rewrite endswith_entry_of; [reflexivity | now apply valid_comp_ok | assumption].
Qed.

Lemma entry_depth_of (ns : list string) (d : bool) :
  Forall (fun x => valid_name x = true) ns -> ns <> [] ->
  entry_depth (entry_of ns d) = length ns.
Proof.
  intros Hv Hne. unfold entry_depth.
  rewrite split_entry_of; [| now apply valid_comp_ok | assumption].
  rewrite filter_app, (filter_nonempty_ok ns) by now apply valid_comp_ok.
  destruct d; cbn [filter posixpath.nonempty String.eqb negb];
    rewrite ?app_nil_r; reflexivity.
Qed.

Lemma removelast_snoc {A : Type} (l : list A) (x : A) : removelast (l ++ [x]) = l.
Proof. apply removelast_last. Qed.

Section Invariant.
Variables (cwd initial_path : string) (ignore_patterns : list string) (root : fsnode).
Hypothesis Habs : posixpath.isabs initial_path = true.
Hypothesis Hvalid : valid_tree root = true.

Lemma scan_loop_guarded (I : scan_state -> Prop) :
  (forall path n rest st st',
      queue st = (path, n) :: rest -> file_count st < MAX_FILES -> I st ->
      scan_step cwd initial_path ignore_patterns path n rest st = Returns st' -> I st') ->
  forall fuel st st',
    I st -> scan_loop cwd initial_path ignore_patterns fuel st = Returns st' -> I st'.
Proof.
  intros Hstep fuel. induction fuel as [|fuel IH]; intros st st' Hst; rewrite scan_loop_eq;
    destruct (queue st) as [|[path n] rest] eqn:Q; try (now intros [= <-]);
    destruct (file_count st <? MAX_FILES) eqn:C; try (now intros [= <-]); try discriminate.
  destruct (scan_step cwd initial_path ignore_patterns path n rest st) as [st1| |] eqn:S1;
    try discriminate.
  apply IH. apply (Hstep path n rest st); try assumption. now apply Nat.ltb_lt.
Qed.

Lemma parent_listed_mono (res res' : list string) (ns : list string) :
  incl res res' -> parent_listed res ns -> parent_listed res' ns.
Proof. intros Hi H Hl. apply Hi, H, Hl. Qed.

Lemma queued_mono (res res' : list string) (depth : nat) (e : string * fsnode) :
  incl res res' -> queued initial_path root res depth e -> queued initial_path root res' depth e.
Proof.
  intros Hi [ns [H1 [H2 [H3 H4]]]]. exists ns. repeat split; try assumption.
  now apply (parent_listed_mono res).
Qed.

Lemma recorded_mono (res res' : list string) (depth depth' : nat) (e : string) :
  incl res res' -> depth <= depth' ->
  recorded root res depth e -> recorded root res' depth' e.
Proof.
  intros Hi Hd [ns [n [H1 [H2 [H3 [H4 H5]]]]]]. exists ns, n.
  repeat split; try assumption; [lia | now apply (parent_listed_mono res)].
Qed.

(** What a round does with the element [(path, n)] found [depth] names
    below the root. *)
Lemma scan_step_queued (path : string) (n : fsnode) (rest : list (string * fsnode))
      (st st' : scan_state) (depth : nat) :
  queued initial_path root (results st) depth (path, n) ->
  file_count st < MAX_FILES ->
  Forall (recorded root (results st) depth) (results st) ->
  file_count st = length (filter is_file_entry (results st)) ->
  scan_step cwd initial_path ignore_patterns path n rest st = Returns st' ->
  incl (results st) (results st')
  /\ (exists q, queue st' = rest ++ q
                /\ Forall (queued initial_path root (results st') (S depth)) q)
  /\ Forall (recorded root (results st') depth) (results st')
  /\ file_count st' = length (filter is_file_entry (results st'))
  /\ file_count st' <= MAX_FILES.
Proof.
  intros [ns [Hlen [Hpath [Hreach Hparent]]]] Hguard Hrec Hcount.
  cbn [fst snd] in Hpath, Hreach.
  destruct (reaches_valid root n ns Hreach Hvalid) as [Hns Hn].
  rewrite scan_step_spec. destruct (should_skip path ignore_patterns).
  - intros [= <-]. cbn [results queue file_count].
    split; [apply incl_refl|]. split; [exists []; now rewrite app_nil_r|].
    repeat split; try assumption. lia.
  - destruct (listed ignore_patterns path n) as [q| |] eqn:L; try discriminate.
    intros [= <-]. cbn [results queue file_count].
    assert (Hincl : incl (results st) (results st ++ own_entry cwd initial_path path n))
      by (intros x Hx; apply in_or_app; now left).
    split; [exact Hincl|].
    assert (Hown : own_entry cwd initial_path path n
                   = match ns with [] => [] | _ => [entry_of ns (isdir n)] end
                   /\ counted initial_path path n
                      = match ns with [] => 0 | _ => if isdir n then 0 else 1 end).
    { subst path. destruct ns as [|x ns'].
      - cbn [path_of fold_left]. unfold own_entry, counted.
        rewrite String.eqb_refl. now cbn [negb andb].
      - split; [now apply own_entry_below|]. unfold counted.
        assert (Hneq : path_of initial_path (x :: ns') <> initial_path)
          by now apply path_of_neq.
        apply String.eqb_neq in Hneq. rewrite Hneq. cbn [negb andb].
        now destruct (isdir n). }
    destruct Hown as [Hown Hcnt]. split; [|split; [|split]].
    + exists q. split; [reflexivity|]. apply Forall_forall. intros e He.
      destruct (listed_in _ _ _ _ _ L He) as [name [children [c [-> [Hc ->]]]]].
      exists (ns ++ [node_name c]). cbn [fst snd].
      split; [rewrite length_app; cbn [length]; lia|].
      split; [subst path; apply path_of_snoc|].
      split; [now apply (reaches_snoc root _ ns Hreach name children)|].
      intros Hl. rewrite removelast_snoc. apply in_or_app. right.
      rewrite Hown. destruct ns as [|x ns']; [cbn [length app] in Hl; lia|].
      cbn [isdir]. now left.
    + apply Forall_app. split.
      * eapply Forall_impl; [|exact Hrec]. intros e. now apply recorded_mono.
      * rewrite Hown. destruct ns as [|x ns']; constructor; [|constructor].
        exists (x :: ns'), n. repeat split; try easy; [lia|].
        apply (parent_listed_mono (results st)); [|assumption].
        intros y Hy. apply in_or_app. now left.
    + rewrite filter_app, length_app, <- Hcount, Hown, Hcnt.
      destruct ns as [|x ns']; [reflexivity|]. cbn [filter].
      rewrite is_file_entry_of by easy. now destruct (isdir n).
    + rewrite Hcnt. destruct ns; [lia|]. destruct (isdir n); lia.
Qed.

Lemma scan_step_invariant (path : string) (n : fsnode) (rest : list (string * fsnode))
      (st st' : scan_state) :
  queue st = (path, n) :: rest -> file_count st < MAX_FILES ->
  scan_invariant initial_path root st ->
  scan_step cwd initial_path ignore_patterns path n rest st = Returns st' ->
  scan_invariant initial_path root st'.
Proof.
  intros Q Hguard [depth [front [back [Hq [Hfront [Hback [Hrec [Hcount Hmax]]]]]]]] Hstep.
  rewrite Q in Hq. destruct front as [|h front].
  - cbn [app] in Hq. destruct back as [|h back]; [discriminate|].
    injection Hq as <- ->. apply Forall_cons_iff in Hback. destruct Hback as [Hh Hback].
    assert (Hrec' : Forall (recorded root (results st) (S depth)) (results st)).
    { eapply Forall_impl; [|exact Hrec]. intros e. apply recorded_mono; [apply incl_refl | lia]. }
    destruct (scan_step_queued path n back st st' (S depth) Hh Hguard Hrec' Hcount Hstep)
      as [Hincl [[q [Hq' Hnew]] [Hrec1 [Hcount1 Hmax1]]]].
    exists (S depth), back, q. repeat split; try assumption.
    eapply Forall_impl; [|exact Hback]. intros e. now apply queued_mono.
  - cbn [app] in Hq. injection Hq as <- ->.
    apply Forall_cons_iff in Hfront. destruct Hfront as [Hh Hfront].
    destruct (scan_step_queued path n (front ++ back) st st' depth Hh Hguard Hrec Hcount Hstep)
      as [Hincl [[q [Hq' Hnew]] [Hrec1 [Hcount1 Hmax1]]]].
    exists depth, front, (back ++ q). repeat split; try assumption.
    + now rewrite Hq', app_assoc.
    + eapply Forall_impl; [|exact Hfront]. intros e. now apply queued_mono.
    + apply Forall_app. split; [|assumption].
      eapply Forall_impl; [|exact Hback]. intros e. now apply queued_mono.
Qed.

(** The state the loop ends in, when [_list_directory] returns. *)
Lemma list_directory_state (listing : list string) :
  list_directory cwd initial_path ignore_patterns root = Returns listing ->
  exists st,
    listing = sort_strings (results st)
    /\ scan_invariant initial_path root st
    /\ (queue st = [] \/ MAX_FILES <= file_count st)
    /\ Permutation (results st ++ walk_queue cwd initial_path ignore_patterns (queue st))
         (walk cwd initial_path ignore_patterns initial_path root)
    /\ file_count st + queue_count initial_path ignore_patterns (queue st)
       = walk_count initial_path ignore_patterns initial_path root.
Proof.
  unfold list_directory.
  destruct (scan_loop _ _ _ _ _) as [st| |] eqn:L; try discriminate.
  intros [= <-]. exists st. split; [reflexivity|]. split; [|split; [|split]].
  - apply (scan_loop_guarded (scan_invariant initial_path root)
             scan_step_invariant _ _ _) in L; [exact L|].
    exists 0, [(initial_path, root)], []. cbn [results queue file_count filter length app].
    repeat split; try constructor; try constructor; try lia.
    exists []. cbn [fst snd length path_of fold_left]. repeat split; [constructor|].
    intros Hl. cbn [length] in Hl. lia.
  - exact (scan_loop_final _ _ _ _ _ _ L).
  - apply scan_loop_walk in L. cbn [results queue app] in L.
    unfold walk_queue at 2 in L. cbn [flat_map fst snd] in L. now rewrite app_nil_r in L.
  - apply scan_loop_count in L. cbn [file_count queue] in L.
    rewrite queue_count_cons in L. cbn [queue_count fold_right] in L. lia.
Qed.
End Invariant.

(** ** The listing and the cap *)

Lemma existsb_In (e : string) (l : list string) : existsb (String.eqb e) l = true -> In e l.
Proof.
  intros H. apply existsb_exists in H. destruct H as [x [Hx E]].
  apply String.eqb_eq in E. now subst.
Qed.

Lemma existsb_not_In (e : string) (l : list string) :
  existsb (String.eqb e) l = false -> ~ In e l.
Proof.
  intros H Hin. assert (E : existsb (String.eqb e) l = true).
  { apply existsb_exists. exists e. split; [assumption | apply String.eqb_refl]. }
  congruence.
Qed.

Lemma filter_length_perm {A : Type} (f : A -> bool) (l1 l2 : list A) :
  Permutation l1 l2 -> length (filter f l1) = length (filter f l2).
Proof.
  induction 1 as [|x l1 l2 _ IH|x y l|l1 l2 l3 _ IH1 _ IH2]; cbn [filter].
  - reflexivity.
  - destruct (f x); cbn [length]; now rewrite IH.
  - destruct (f x), (f y); reflexivity.
  - now rewrite IH1.
Qed.

Lemma in_sort_strings (e : string) (l : list string) : In e (sort_strings l) <-> In e l.
Proof.
  unfold sort_strings. split; intros H.
  - now apply (Permutation_in _ (sort_by_perm (fun s : string => s) l)).
  - now apply (Permutation_in _ (Permutation_sym (sort_by_perm (fun s : string => s) l))).
Qed.

Lemma walk_queue_in (cwd initial_path : string) (ignore_patterns : list string)
      (q : list (string * fsnode)) (e : string) :
  In e (walk_queue cwd initial_path ignore_patterns q) ->
  exists p n, In (p, n) q /\ In e (walk cwd initial_path ignore_patterns p n).
Proof.
  unfold walk_queue. rewrite in_flat_map. intros [[p n] [Hin He]]. now exists p, n.
Qed.

(** X1.  Every entry of the listing is the path, relative to the root,
    of a node of the file system that is reached from the root through
    directories that can be listed, neither the node nor any of those
    directories being skipped; it ends with [/] exactly when the node is
    a directory; and when it lies below the first level, the entry of
    the directory that holds it is in the listing as well, also when the
    cap has cut the listing short. *)
Theorem listing_entries_exist :
  forall (cwd initial_path : string) (ignore_patterns : list string) (root : fsnode)
         (listing : list string) (e : string),
    posixpath.isabs initial_path = true ->
    valid_tree root = true ->
    list_directory cwd initial_path ignore_patterns root = Returns listing ->
    In e listing ->
    exists (ns : list string) (n : fsnode),
      reaches root ns n /\ ns <> []
      /\ visible ignore_patterns initial_path ns = true
      /\ e = (Str.join "/" ns ++ if isdir n then "/" else "")%string
      /\ (2 <= length ns -> In (entry_of (removelast ns) true) listing).
Proof.
  intros cwd initial_path ignore_patterns root listing e Habs Hvalid Hlist Hin.
  destruct (list_directory_state cwd initial_path ignore_patterns root Habs Hvalid listing Hlist)
    as [st [-> [[depth [front [back [_ [_ [_ [Hrec _]]]]]]] _]]].
  apply (proj1 (in_sort_strings _ _)) in Hin. rewrite Forall_forall in Hrec.
  destruct (Hrec e Hin) as [ns [n [Hreach [Hne [_ [-> Hparent]]]]]].
  exists ns, n. split; [assumption|]. split; [assumption|]. split; [|split].
  - destruct (reaches_valid root n ns Hreach Hvalid) as [Hns _].
    apply (listed_visible cwd initial_path ignore_patterns Habs root _ Hvalid Hlist ns n);
      try assumption.
    rewrite rel_entry_path_of by assumption. now apply (proj2 (in_sort_strings _ _)).
  - reflexivity.
  - intros Hl. apply (proj2 (in_sort_strings _ _)). now apply Hparent.
Qed.

(** The file one level down in scenario A. *)
Lemma listing_entries_exist_witness :
  exists (ns : list string) (n : fsnode),
    reaches scenario_a ns n /\ ns <> []
    /\ visible [] "/repo" ns = true
    /\ "b/c.txt" = (Str.join "/" ns ++ if isdir n then "/" else "")%string
    /\ (2 <= length ns -> In (entry_of (removelast ns) true) ["a.txt"; "b/"; "b/c.txt"]).
Proof.
  apply (listing_entries_exist "/home" "/repo" [] scenario_a ["a.txt"; "b/"; "b/c.txt"]).
  - reflexivity.
  - reflexivity.
  - vm_compute. reflexivity.
  - cbn [In]. tauto.
Defined.

(** X2.  The number of entries of files in the listing is the number of
    files that are neither hidden nor excluded, or the cap when there
    are more of them: the listing never holds more than [MAX_FILES]
    entries of files, and it holds exactly [MAX_FILES] of them when the
    cap cuts it short. *)
Theorem file_entries_capped :
  forall (cwd initial_path : string) (ignore_patterns : list string) (root : fsnode)
         (listing : list string),
    posixpath.isabs initial_path = true ->
    valid_tree root = true ->
    list_directory cwd initial_path ignore_patterns root = Returns listing ->
    length (filter is_file_entry listing)
    = Nat.min (walk_count initial_path ignore_patterns initial_path root) MAX_FILES.
Proof.
  intros cwd initial_path ignore_patterns root listing Habs Hvalid Hlist.
  destruct (list_directory_state cwd initial_path ignore_patterns root Habs Hvalid listing Hlist)
    as [st [-> [[depth [front [back [_ [_ [_ [_ [Hcount Hmax]]]]]]]] [Hend [_ Hsum]]]]].
  rewrite (filter_length_perm _ _ _ (sort_by_perm (fun s : string => s) (results st))).
  rewrite <- Hcount. destruct Hend as [Hq | Hfull].
  - rewrite Hq in Hsum. cbn [queue_count fold_right] in Hsum. lia.
  - lia.
Qed.

(** Scenario E: 1200 files, 1000 of them listed. *)
Lemma file_entries_capped_witness :
  length (filter is_file_entry (firstn MAX_FILES (sort_strings (numbered "f" 1200))))
  = Nat.min (walk_count "/repo" [] "/repo" scenario_e) MAX_FILES.
Proof.
  apply (file_entries_capped "/home" "/repo" [] scenario_e).
  - reflexivity.
  - vm_compute. reflexivity.
  - vm_compute. reflexivity.
Defined.

(** X3.  The cap never works in silence: when an entry that the scan
    would record is missing from the listing, the listing holds
    [MAX_FILES] entries of files and [forward] puts the banner before
    the tree. *)
Theorem truncation_is_announced :
  forall (fs : filesystem) (path : string) (ignore : option (list string)) (root : fsnode)
         (listing : list string) (e : string),
    posixpath.isabs (getcwd fs) = true ->
    stat fs (resolved fs path) = Some root ->
    valid_tree root = true ->
    list_directory (getcwd fs) (resolved fs path) (patterns_of ignore) root = Returns listing ->
    In e (walk (getcwd fs) (resolved fs path) (patterns_of ignore) (resolved fs path) root) ->
    ~ In e listing ->
    length (filter is_file_entry listing) = MAX_FILES
    /\ has_banner (forward fs path ignore) = true.
Proof.
  intros fs path ignore root listing e Hcwd Hstat Hvalid Hlist Hwalk Hcut.
  pose proof (isabs_resolved fs path Hcwd) as Habs.
  destruct (list_directory_state _ _ _ root Habs Hvalid listing Hlist)
    as [st [-> [[depth [front [back [_ [_ [_ [_ [Hcount Hmax]]]]]]]] [Hend [Hperm _]]]]].
  assert (Hfull : MAX_FILES <= file_count st).
  { destruct Hend as [Hq | Hfull]; [|assumption]. exfalso. apply Hcut.
    rewrite Hq in Hperm. cbn [walk_queue flat_map] in Hperm. rewrite app_nil_r in Hperm.
    apply (proj2 (in_sort_strings _ _)). now apply (Permutation_in _ (Permutation_sym Hperm)). }
  assert (Hfiles : length (filter is_file_entry (sort_strings (results st))) = MAX_FILES).
  { rewrite (filter_length_perm _ _ _ (sort_by_perm (fun s : string => s) (results st))). lia. }
  split; [assumption|].
  rewrite forward_eq, Hstat. destruct root as [name|name raises children].
  - exfalso. rewrite walk_eq in Hwalk.
    destruct (should_skip (resolved fs path) (patterns_of ignore)); [easy|].
    unfold own_entry in Hwalk. rewrite String.eqb_refl in Hwalk. easy.
  - rewrite Hlist. cbn [has_banner].
    pose proof (filter_length_le is_file_entry (sort_strings (results st))) as Hle.
    replace (MAX_FILES <=? length (sort_strings (results st))) with true
      by (symmetry; apply Nat.leb_le; lia).
    apply startswith_app.
Qed.

(** X4.  The cap cuts the deepest entries first: an entry that the cap
    has cut from the listing lies at least as deep below the root as
    every entry that is listed. *)
Theorem cap_keeps_shallowest :
  forall (cwd initial_path : string) (ignore_patterns : list string) (root : fsnode)
         (listing : list string) (shown cut : string),
    posixpath.isabs initial_path = true ->
    valid_tree root = true ->
    list_directory cwd initial_path ignore_patterns root = Returns listing ->
    In shown listing ->
    In cut (walk cwd initial_path ignore_patterns initial_path root) ->
    ~ In cut listing ->
    entry_depth shown <= entry_depth cut.
Proof.
  intros cwd initial_path ignore_patterns root listing shown cut Habs Hvalid Hlist
         Hshown Hwalk Hcut.
  destruct (list_directory_state cwd initial_path ignore_patterns root Habs Hvalid listing Hlist)
    as [st [-> [[depth [front [back [Hq [Hfront [Hback [Hrec _]]]]]]] [_ [Hperm _]]]]].
  apply (proj1 (in_sort_strings _ _)) in Hshown.
  assert (Hcut' : ~ In cut (results st)) by (intros H; apply Hcut; now apply (proj2 (in_sort_strings _ _))).
  rewrite Forall_forall in Hrec.
  destruct (Hrec shown Hshown) as [ns [n [Hreach [Hne [Hdepth [-> _]]]]]].
  destruct (reaches_valid root n ns Hreach Hvalid) as [Hns _].
  rewrite entry_depth_of by assumption.
  apply (Permutation_in _ (Permutation_sym Hperm)) in Hwalk.
  apply in_app_or in Hwalk. destruct Hwalk as [Hin | Hin]; [contradiction|].
  apply walk_queue_in in Hin. destruct Hin as [p [m [Hpm Hcutin]]].
  assert (Hqueued : exists k, depth <= k /\ queued initial_path root (results st) k (p, m)).
  { rewrite Hq in Hpm. apply in_app_or in Hpm. rewrite Forall_forall in Hfront, Hback.
    destruct Hpm as [Hpm | Hpm]; [exists depth | exists (S depth)]; split; auto. }
  destruct Hqueued as [k [Hk [ns0 [Hlen [Hpath [Hreach0 _]]]]]]. cbn [fst snd] in *.
  destruct (reaches_valid root m ns0 Hreach0 Hvalid) as [Hns0 Hm]. subst p.
  destruct (walk_entries cwd initial_path ignore_patterns Habs m ns0 cut Hm Hns0 Hcutin)
    as [ns1 [n1 [_ [Hns1 [_ [_ [Hne1 ->]]]]]]].
  rewrite entry_depth_of; [| apply Forall_app; now split | assumption].
  rewrite length_app. lia.
Qed.

(** A thousand files at the first level fill the cap: the file one
    level down is cut. *)
Lemma cap_keeps_shallowest_witness : entry_depth "f1000" <= entry_depth "d/x".
Proof.
  apply (cap_keeps_shallowest "/home" "/repo" [] wide_and_deep
           ("d/" :: numbered "f" 1000)).
  - reflexivity.
  - vm_compute. reflexivity.
  - vm_compute. reflexivity.
  - apply existsb_In. vm_compute. reflexivity.
  - apply existsb_In. vm_compute. reflexivity.
  - apply existsb_not_In. vm_compute. reflexivity.
Defined.

(** The same tree, through [forward]. *)
Lemma truncation_is_announced_witness :
  length (filter is_file_entry ("d/" :: numbered "f" 1000)) = MAX_FILES
  /\ has_banner (forward (mount "/home" "/repo" wide_and_deep) "/repo" None) = true.
Proof.
  apply (truncation_is_announced (mount "/home" "/repo" wide_and_deep) "/repo" None
           wide_and_deep ("d/" :: numbered "f" 1000) "d/x").
  - reflexivity.
  - reflexivity.
  - vm_compute. reflexivity.
  - vm_compute. reflexivity.
  - apply existsb_In. vm_compute. reflexivity.
  - apply existsb_not_In. vm_compute. reflexivity.
Defined.

(** ** The tree, whatever the paths *)

Lemma well_formed_dir (cur n p : string) (children : list tree_node) :
  well_formed_node cur (DirNode n p children) <->
  comp_ok n /\ p = (under cur ++ n)%string /\ well_formed p children.
Proof.
  cbn [well_formed_node]. unfold well_formed.
  assert (E : forall l,
             (fix all (l : list tree_node) : Prop :=
                match l with
                | [] => True
                | c :: l' => well_formed_node p c /\ all l'
                end) l <-> Forall (well_formed_node p) l).
  { induction l as [|c l IH]; [split; [constructor | easy]|].
    rewrite Forall_cons_iff, IH. reflexivity. }
  rewrite E. tauto.
Qed.

Lemma tree_name_descended (f : list tree_node -> list tree_node) (x : tree_node) :
  tree_name (descended f x) = tree_name x.
Proof. now destruct x. Qed.

Lemma well_formed_nil (cur : string) : well_formed cur [].
Proof. split; constructor. Qed.

Lemma add_parts_well_formed (path : string) (nparts : nat) (parts : list string) :
  Forall (fun x => Str.contains "/" x = false) parts ->
  forall (i : nat) (cur : string) (level : list tree_node),
    well_formed cur level ->
    well_formed cur (add_parts path nparts i parts cur level).
Proof.
  induction parts as [|part parts IH]; intros Hparts i cur level Hwf; cbn [add_parts].
  - assumption.
  - apply Forall_cons_iff in Hparts. destruct Hparts as [Hpart Hparts].
    destruct (part =? "")%string eqn:E; [now apply IH|].
    apply String.eqb_neq in E.
    assert (Hcur : (if (cur =? "")%string then part else cur ++ "/" ++ part)%string
                   = (under cur ++ part)%string).
    { unfold under. destruct (cur =? "")%string; [reflexivity|].
      now rewrite append_assoc. }
    rewrite Hcur. set (cur' := (under cur ++ part)%string).
    destruct (descend part (add_parts path nparts (S i) parts cur') level) as [l|] eqn:D.
    + apply descend_some in D. destruct D as [l1 [x [l2 [-> [Hx ->]]]]].
      destruct Hwf as [Hu Hn]. split.
      * unfold unique_names in *. rewrite map_app in *. cbn [map] in *.
        now rewrite tree_name_descended.
      * apply Forall_app in Hn. destruct Hn as [Hn1 Hn2].
        apply Forall_cons_iff in Hn2. destruct Hn2 as [Hx' Hn2].
        apply Forall_app. split; [assumption|]. constructor; [|assumption].
        destruct x as [n p|n p children]; [exact Hx'|]. cbn [descended].
        apply well_formed_dir in Hx'. destruct Hx' as [Hc [Hp Hch]].
        apply well_formed_dir. split; [assumption|]. split; [assumption|].
        cbn [tree_name] in Hx. subst n. subst p. now apply IH.
    + apply descend_none in D. destruct Hwf as [Hu Hn]. split.
      * unfold unique_names in *. rewrite map_app. cbn [map].
        apply NoDup_app; [assumption | | ].
        -- constructor; [easy | constructor].
        -- intros a Ha [<- | []]. apply D.
           now destruct ((i <? nparts - 1) || Str.endswith path "/").
      * apply Forall_app. split; [assumption|]. constructor; [|constructor].
        destruct ((i <? nparts - 1) || Str.endswith path "/").
        -- apply well_formed_dir. split; [now split|]. split; [reflexivity|].
           apply IH; [assumption | apply well_formed_nil].
        -- now split.
Qed.

Lemma add_path_well_formed (level : list tree_node) (path : string) :
  well_formed "" level -> well_formed "" (add_path level path).
Proof.
  intros Hwf. unfold add_path. apply add_parts_well_formed; [|assumption].
  apply (split_parts_without "/"%char).
Qed.

Lemma fold_add_path_well_formed (paths : list string) :
  forall level, well_formed "" level -> well_formed "" (fold_left add_path paths level).
Proof.
  induction paths as [|p paths IH]; intros level Hwf; cbn [fold_left]; [assumption|].
  now apply IH, add_path_well_formed.
Qed.

Lemma tree_node_induction (P : tree_node -> Prop) :
  (forall n p, P (FileNode n p)) ->
  (forall n p children, Forall P children -> P (DirNode n p children)) ->
  forall x, P x.
Proof.
  intros Hfile Hdir. fix IH 1. intros [n p | n p children].
  - apply Hfile.
  - apply Hdir. induction children as [|c children IHc]; constructor; [apply IH | exact IHc].
Qed.

Lemma well_formed_each (x : tree_node) :
  forall cur, well_formed_node cur x ->
              each_node (fun level => unique_names level
                                      /\ Forall (fun c => comp_ok (tree_name c)) level) x.
Proof.
  induction x as [n p|n p children IH] using tree_node_induction; intros cur Hx.
  - exact I.
  - apply well_formed_dir in Hx. destruct Hx as [_ [_ [Hu Hn]]].
    apply each_node_dir. split.
    + split; [assumption|]. eapply Forall_impl; [|exact Hn].
      intros [m q|m q ch] Hc; cbn [tree_name]; [apply Hc | apply Hc].
    + rewrite Forall_forall in *. intros c Hc. apply (IH c Hc p). now apply Hn.
Qed.

(** ** The entries of the tree *)

Lemma append_inv_head (a b c : string) : (a ++ b = a ++ c)%string -> b = c.
Proof. induction a as [|x a IH]; cbn [String.append]; [easy|]. intros [= H]. now apply IH. Qed.

Lemma str_lt_prefix (a b : string) : b <> "" -> str_lt a (a ++ b).
Proof.
  intros Hb. unfold str_lt, String.ltb.
  rewrite <- (append_nil_r a) at 1. rewrite compare_app.
  destruct b; [contradiction | reflexivity].
Qed.

Lemma str_lt_asym (a b : string) : str_lt a b -> str_lt b a -> False.
Proof. intros H1 H2. apply (str_lt_irrefl a). now apply (str_lt_trans a b a). Qed.

Lemma str_lt_between (a y r : string) :
  str_lt a y -> str_lt y (a ++ r) -> exists s, y = (a ++ s)%string.
Proof.
  revert y. induction a as [|c a IH]; intros y; [now exists y|].
  unfold str_lt, String.ltb. destruct y as [|c' y]; cbn [String.append String.compare];
    [discriminate|].
  destruct (Ascii.compare c c') eqn:E1.
  - apply Ascii.compare_eq_iff in E1. subst c'. rewrite ascii_compare_refl.
    intros H1 H2. destruct (IH y H1 H2) as [s ->]. now exists s.
  - rewrite Ascii.compare_antisym, E1. cbn [CompOpp]. discriminate.
  - discriminate.
Qed.

Lemma name_rest_inj (n m r1 r2 : string) :
  Str.contains "/" n = false -> Str.contains "/" m = false ->
  (r1 = "" \/ exists r, r1 = String "/" r) -> (r2 = "" \/ exists r, r2 = String "/" r) ->
  (n ++ r1 = m ++ r2)%string -> n = m /\ r1 = r2.
Proof.
  revert m. induction n as [|c n IH]; intros m Hn Hm H1 H2; cbn [String.append].
  - destruct m as [|c' m]; cbn [String.append]; [easy|]. intros ->.
    destruct H1 as [H1 | [r [= -> _]]]; [discriminate|].
    rewrite contains_char_cons, Ascii.eqb_refl in Hm. discriminate.
  - destruct m as [|c' m]; cbn [String.append].
    + intros <-. destruct H2 as [H2 | [r [= -> _]]]; [discriminate|].
      rewrite contains_char_cons, Ascii.eqb_refl in Hn. discriminate.
    + intros [= <- E]. rewrite contains_char_cons in Hn, Hm.
      apply orb_false_iff in Hn, Hm. destruct (IH m (proj2 Hn) (proj2 Hm) H1 H2 E) as [-> ->].
      now split.
Qed.

Lemma StronglySorted_app_inv {A : Type} (R : A -> A -> Prop) (l1 l2 : list A) :
  StronglySorted R (l1 ++ l2) ->
  StronglySorted R l1 /\ StronglySorted R l2
  /\ forall x y, In x l1 -> In y l2 -> R x y.
Proof.
  induction l1 as [|a l1 IH]; cbn [app]; intros H.
  - split; [constructor|]. split; [assumption | easy].
  - apply StronglySorted_inv in H. destruct H as [H Ha].
    destruct (IH H) as [H1 [H2 H12]]. rewrite Forall_app in Ha. destruct Ha as [Ha1 Ha2].
    split; [now constructor|]. split; [assumption|].
    intros x y [<- | Hx] Hy; [|now apply H12].
    rewrite Forall_forall in Ha2. now apply Ha2.
Qed.

Lemma tree_entries_dir (n p : string) (children : list tree_node) :
  tree_entries (DirNode n p children) = (p ++ "/")%string :: forest_entries children.
Proof.
  cbn [tree_entries]. now f_equal.
Qed.

Lemma forest_entries_app (l1 l2 : list tree_node) :
  forest_entries (l1 ++ l2) = forest_entries l1 ++ forest_entries l2.
Proof. apply flat_map_app. Qed.

Lemma forest_entries_cons (x : tree_node) (l : list tree_node) :
  forest_entries (x :: l) = tree_entries x ++ forest_entries l.
Proof. reflexivity. Qed.

Lemma forest_entries_in (e : string) (level : list tree_node) :
  In e (forest_entries level) <-> exists x, In x level /\ In e (tree_entries x).
Proof. apply in_flat_map. Qed.

(** The entries of a node start with the path of the node. *)
Lemma tree_entries_shape (x : tree_node) :
  forall cur e,
    well_formed_node cur x -> In e (tree_entries x) ->
    exists rest, e = (under cur ++ tree_name x ++ rest)%string
                 /\ (rest = "" \/ exists r, rest = String "/" r).
Proof.
  induction x as [n p|n p children IH] using tree_node_induction; intros cur e Hx He.
  - destruct Hx as [_ ->]. destruct He as [<- | []]. exists "". cbn [tree_name].
    split; [now rewrite append_nil_r | now left].
  - apply well_formed_dir in Hx. destruct Hx as [Hn [-> [_ Hch]]].
    rewrite tree_entries_dir in He. cbn [tree_name]. destruct He as [<- | He].
    + exists "/". split; [now rewrite append_assoc | right; now exists ""].
    + apply forest_entries_in in He. destruct He as [c [Hc He]].
      rewrite Forall_forall in IH, Hch.
      destruct (IH c Hc _ e (Hch c Hc) He) as [rest [-> _]].
      rewrite under_nonempty by apply Hn.
      exists (String "/" (tree_name c ++ rest)). split; [|right; now eexists].
      now rewrite !append_assoc.
Qed.

(** An entry that starts with the name [n] is an entry of the node
    named [n]. *)
Lemma entry_node (cur n r e : string) (level : list tree_node) :
  well_formed cur level -> Str.contains "/" n = false ->
  (r = "" \/ exists r', r = String "/" r') ->
  In (under cur ++ n ++ r)%string (forest_entries level) ->
  exists x, In x level /\ tree_name x = n /\ In (under cur ++ n ++ r)%string (tree_entries x).
Proof.
  intros [_ Hwf] Hn Hr Hin. apply forest_entries_in in Hin. destruct Hin as [x [Hx He]].
  exists x. split; [assumption|]. split; [|assumption].
  rewrite Forall_forall in Hwf. pose proof (Hwf x Hx) as Hxw.
  destruct (tree_entries_shape x cur _ Hxw He) as [rest [E Hrest]].
  apply append_inv_head in E.
  assert (Hname : Str.contains "/" (tree_name x) = false).
  { destruct x as [m q|m q ch]; [apply Hxw|].
    apply well_formed_dir in Hxw. apply Hxw. }
  symmetry. now apply (name_rest_inj n (tree_name x) r rest).
Qed.

Lemma unique_middle (l1 l2 : list tree_node) (x y : tree_node) :
  unique_names (l1 ++ x :: l2) -> In y (l1 ++ x :: l2) -> tree_name y = tree_name x -> y = x.
Proof.
  unfold unique_names. rewrite map_app. cbn [map]. intros Hu Hy E.
  apply NoDup_remove_2 in Hu. apply in_app_or in Hy. destruct Hy as [Hy | [<- | Hy]].
  - exfalso. apply Hu. apply in_or_app. left. rewrite <- E. now apply in_map.
  - reflexivity.
  - exfalso. apply Hu. apply in_or_app. right. rewrite <- E. now apply in_map.
Qed.

Lemma own_entry_in (cur : string) (x : tree_node) :
  well_formed_node cur x ->
  exists d, In (under cur ++ tree_name x ++ suffix_of d)%string (tree_entries x).
Proof.
  destruct x as [n p|n p children]; intros Hx.
  - destruct Hx as [_ ->]. exists false. cbn [tree_name suffix_of tree_entries].
    left. now rewrite append_nil_r.
  - apply well_formed_dir in Hx. destruct Hx as [_ [-> _]]. exists true.
    rewrite tree_entries_dir. left. cbn [tree_name suffix_of]. now rewrite append_assoc.
Qed.

Lemma Forall_firstn_of {A : Type} (P : A -> Prop) (k : nat) (l : list A) :
  Forall P l -> Forall P (firstn k l).
Proof.
  intros H. apply Forall_forall. intros x Hx. rewrite Forall_forall in H.
  now apply H, (In_firstn k).
Qed.

Lemma entry_of_single (n : string) (d : bool) : entry_of [n] d = (n ++ suffix_of d)%string.
Proof. reflexivity. Qed.

Lemma entry_of_nonempty (ns : list string) (d : bool) :
  Forall comp_ok ns -> ns <> [] -> entry_of ns d <> "".
Proof.
  intros Hns Hne. destruct ns as [|n ns]; [contradiction|].
  apply Forall_cons_iff in Hns. destruct Hns as [[Hn _] _].
  destruct ns as [|m ns].
  - rewrite entry_of_single. destruct n; [contradiction | discriminate].
  - rewrite entry_of_cons by discriminate. destruct n; [contradiction | discriminate].
Qed.

Lemma entry_of_rest (ns : list string) (d : bool) :
  Forall comp_ok ns -> ns <> [] ->
  forall n, exists r, (n ++ "/" ++ entry_of ns d)%string = (n ++ String "/" r)%string.
Proof. intros _ _ n. now exists (entry_of ns d). Qed.

(** Adding the entry of [ns], greater than every entry of the level and
    with the directories above it among them, adds it after them. *)
Lemma insert_chain_entries (ns : list string) :
  forall (d : bool) (cur : string) (level : list tree_node),
    Forall comp_ok ns -> ns <> [] ->
    well_formed cur level ->
    StronglySorted str_lt (forest_entries level) ->
    (forall e', In e' (forest_entries level) -> str_lt e' (under cur ++ entry_of ns d)) ->
    (forall k, 0 < k < length ns ->
               In (under cur ++ entry_of (firstn k ns) true)%string (forest_entries level)) ->
    (d = true -> ~ In (under cur ++ entry_of ns false)%string (forest_entries level)) ->
    forest_entries (insert_chain d ns cur level)
    = forest_entries level ++ [(under cur ++ entry_of ns d)%string].
Proof.
  induction ns as [|n ns IH]; intros d cur level Hns Hne Hwf Hsorted Hlt Hanc Hkind;
    [contradiction|].
  apply Forall_cons_iff in Hns. destruct Hns as [[Hn0 Hn] Hns].
  cbn [insert_chain]. set (cur' := (under cur ++ n)%string).
  assert (Hcur' : under cur' = (under cur ++ n ++ "/")%string) by now apply under_nonempty.
  destruct (descend n (insert_chain d ns cur') level) as [l|] eqn:D.
  - apply descend_some in D. destruct D as [l1 [x [l2 [-> [Hx ->]]]]].
    pose proof Hwf as [Hu Hnodes].
    assert (Hxw : well_formed_node cur x).
    { rewrite Forall_forall in Hnodes. apply Hnodes. apply in_or_app. right. now left. }
    assert (Hlocate : forall r, (r = "" \/ exists r', r = String "/" r') ->
                                In (under cur ++ n ++ r)%string
                                   (forest_entries (l1 ++ x :: l2)) ->
                                In (under cur ++ n ++ r)%string (tree_entries x)).
    { intros r Hr Hin. destruct (entry_node cur n r "" _ Hwf Hn Hr Hin) as [y [Hy [Ey Hiny]]].
      rewrite <- Hx in Ey. now rewrite <- (unique_middle l1 l2 x y Hu Hy Ey). }
    destruct ns as [|m ns].
    + (* the entry of a child of this level *)
      exfalso. rewrite entry_of_single in Hlt.
      destruct (own_entry_in cur x Hxw) as [dx Hown]. rewrite Hx in Hown.
      assert (Hin : In (under cur ++ n ++ suffix_of dx)%string (forest_entries (l1 ++ x :: l2))).
      { apply forest_entries_in. exists x. split; [|assumption].
        apply in_or_app. right. now left. }
      pose proof (Hlt _ Hin) as Hlt'. unfold str_lt, String.ltb in Hlt'.
      rewrite compare_app, compare_app in Hlt'.
      destruct dx, d; cbn [suffix_of] in Hlt'; try discriminate.
      apply (Hkind eq_refl). rewrite entry_of_single. exact Hin.
    + (* an entry further down *)
      assert (Hdir : In (under cur ++ n ++ "/")%string (tree_entries x)).
      { apply Hlocate; [right; now exists ""|].
        specialize (Hanc 1). cbn [firstn length] in Hanc.
        rewrite entry_of_single in Hanc. apply Hanc. lia. }
      destruct x as [nx p|nx p children]; cbn [tree_name] in Hx; subst nx.
      * exfalso. destruct Hxw as [_ ->]. destruct Hdir as [E | []].
        apply append_inv_head in E. rewrite <- (append_nil_r n) in E at 1.
        apply append_inv_head in E. discriminate.
      * apply well_formed_dir in Hxw. destruct Hxw as [_ [Hp Hch]]. fold cur' in Hp. subst p.
        cbn [descended].
        assert (Hentry : forall dd, (under cur ++ entry_of (n :: m :: ns) dd
                                     = under cur' ++ entry_of (m :: ns) dd)%string).
        { intros dd. rewrite entry_of_cons by discriminate. rewrite Hcur'.
          now rewrite !append_assoc. }
        rewrite forest_entries_app, forest_entries_cons, tree_entries_dir in Hsorted, Hlt.
        destruct (StronglySorted_app_inv _ _ _ Hsorted) as [_ [Hs2 _]].
        cbn [app] in Hs2. apply StronglySorted_inv in Hs2. destruct Hs2 as [Hs2 Hfirst].
        destruct (StronglySorted_app_inv _ _ _ Hs2) as [Hsch _].
        assert (Hl2 : l2 = []).
        { destruct l2 as [|y l2]; [reflexivity|]. exfalso.
          assert (Hyw : well_formed_node cur y).
          { rewrite Forall_forall in Hnodes. apply Hnodes. apply in_or_app. right. right. now left. }
          destruct (own_entry_in cur y Hyw) as [dy Hown].
          assert (Hafter : In (under cur ++ tree_name y ++ suffix_of dy)%string
                              (forest_entries children ++ forest_entries (y :: l2))).
          { apply in_or_app. right. rewrite forest_entries_cons. apply in_or_app. now left. }
          rewrite Forall_forall in Hfirst. pose proof (Hfirst _ Hafter) as Hlow.
          assert (Hhigh : str_lt (under cur ++ tree_name y ++ suffix_of dy)
                                 (under cur ++ entry_of (n :: m :: ns) d)).
          { apply Hlt. apply in_or_app. right. cbn [app]. right. exact Hafter. }
          rewrite Hentry, Hcur' in Hhigh. fold cur' in Hlow.
          replace (cur' ++ "/")%string with (under cur ++ n ++ "/")%string in Hlow
            by (unfold cur'; now rewrite append_assoc).
          destruct (str_lt_between _ _ _ Hlow Hhigh) as [s E].
          rewrite !append_assoc in E. apply append_inv_head in E.
          assert (Hyname : Str.contains "/" (tree_name y) = false).
          { destruct y as [q1 q2|q1 q2 q3]; [apply Hyw|].
            apply well_formed_dir in Hyw. apply Hyw. }
          apply name_rest_inj in E; try assumption.
          - destruct E as [E _]. unfold unique_names in Hu. rewrite map_app in Hu.
            cbn [map tree_name] in Hu. apply NoDup_remove_2 in Hu. apply Hu.
            apply in_or_app. right. left. exact E.
          - destruct dy; [right; now exists "" | now left].
          - right. now eexists. }
        subst l2. cbn [forest_entries flat_map] in *.
        rewrite !forest_entries_app, !forest_entries_cons, !tree_entries_dir.
        cbn [forest_entries flat_map app]. rewrite !app_nil_r.
        rewrite (IH d cur' children); try assumption; try discriminate.
        -- rewrite Hentry. now rewrite <- app_assoc.
        -- intros e' He'. rewrite <- Hentry. apply Hlt.
           apply in_or_app. right. right. apply in_or_app. now left.
        -- intros k Hk.
           assert (Hin : In (under cur ++ n ++ String "/" (entry_of (firstn k (m :: ns)) true))%string
                            (tree_entries (DirNode n cur' children))).
           { apply Hlocate; [right; now eexists|].
             specialize (Hanc (S k)). cbn [firstn length] in Hanc.
             assert (Hf : firstn k (m :: ns) <> []) by (destruct k; [lia | discriminate]).
             rewrite entry_of_cons in Hanc by assumption.
             apply Hanc. cbn [length] in Hk. lia. }
           rewrite tree_entries_dir in Hin. rewrite Hcur'. destruct Hin as [E | Hin].
           ++ exfalso. unfold cur' in E. rewrite append_assoc in E.
              apply append_inv_head in E. apply append_inv_head in E.
              injection E as E. symmetry in E. revert E. apply entry_of_nonempty.
              ** now apply Forall_firstn_of.
              ** destruct k; [lia | discriminate].
           ++ now rewrite !append_assoc.
        -- intros Hd Hin. apply (Hkind Hd). rewrite Hentry.
           rewrite forest_entries_app, forest_entries_cons, tree_entries_dir.
           apply in_or_app. right. right. apply in_or_app. now left.
  - apply descend_none in D. rewrite forest_entries_app. f_equal.
    destruct ns as [|m ns].
    + rewrite entry_of_single. cbn [orb]. rewrite orb_false_r.
      destruct d; cbn [forest_entries flat_map suffix_of]; rewrite ?tree_entries_dir;
        cbn [tree_entries forest_entries flat_map app insert_chain];
        unfold cur'; now rewrite ?append_assoc, ?append_nil_r.
    + exfalso. apply D. specialize (Hanc 1). cbn [firstn length] in Hanc.
      rewrite entry_of_single in Hanc. cbn [suffix_of] in Hanc.
      destruct (entry_node cur n "/" "" level Hwf Hn) as [x [Hx [Ex _]]].
      * right. now exists "".
      * apply Hanc. lia.
      * rewrite <- Ex. now apply in_map.
Qed.

(** ** From the listing to the tree and back *)

Lemma entry_of_app (a b : list string) (d : bool) :
  a <> [] -> b <> [] -> entry_of (a ++ b) d = (entry_of a true ++ entry_of b d)%string.
Proof.
  induction a as [|x a IH]; intros Ha Hb; [contradiction|].
  destruct a as [|y a].
  - cbn [app]. rewrite entry_of_cons by assumption. rewrite entry_of_single.
    cbn [suffix_of]. now rewrite append_assoc.
  - cbn [app]. rewrite entry_of_cons by discriminate.
    rewrite (entry_of_cons x (y :: a)) by discriminate.
    cbn [app] in IH. rewrite IH by (discriminate || assumption).
    now rewrite !append_assoc.
Qed.

Lemma entry_of_above (ns : list string) (d : bool) (k : nat) :
  Forall comp_ok ns -> 0 < k < length ns ->
  str_lt (entry_of (firstn k ns) true) (entry_of ns d).
Proof.
  intros Hns Hk. rewrite <- (firstn_skipn k ns) at 2.
  assert (H1 : firstn k ns <> []).
  { destruct ns as [|x ns]; [cbn [length] in Hk; lia|].
    destruct k; [lia | discriminate]. }
  assert (H2 : skipn k ns <> []).
  { intros E. pose proof (length_skipn k ns) as L. rewrite E in L. cbn [length] in L. lia. }
  rewrite entry_of_app by assumption. apply str_lt_prefix.
  apply entry_of_nonempty; [|assumption].
  apply Forall_forall. intros x Hx. rewrite Forall_forall in Hns.
  apply Hns. rewrite <- (firstn_skipn k ns). apply in_or_app. now right.
Qed.

(** A list of entries that [_create_file_tree] can take: in strictly
    increasing order, with the entry of every directory above an entry,
    and with no path both of a file and of a directory. *)
Lemma fold_add_path_entries (rest : list string) :
  forall (done : list string) (level : list tree_node),
    StronglySorted str_lt (done ++ rest) ->
    (forall e, In e (done ++ rest) ->
               exists ns d,
                 Forall comp_ok ns /\ ns <> [] /\ e = entry_of ns d
                 /\ (forall k, 0 < k < length ns ->
                               In (entry_of (firstn k ns) true) (done ++ rest))
                 /\ (d = true -> ~ In (entry_of ns false) (done ++ rest))) ->
    well_formed "" level ->
    forest_entries level = done ->
    forest_entries (fold_left add_path rest level) = done ++ rest.
Proof.
  induction rest as [|e rest IH]; intros done level Hsorted Hclosed Hwf Hdone;
    cbn [fold_left].
  - now rewrite app_nil_r.
  - replace (done ++ e :: rest) with ((done ++ [e]) ++ rest) in *
      by now rewrite <- app_assoc.
    apply IH; try assumption; [now apply add_path_well_formed|].
    destruct (Hclosed e) as [ns [d [Hns [Hne [-> [Hanc Hkind]]]]]].
    { apply in_or_app. left. apply in_or_app. right. now left. }
    rewrite add_path_entry by assumption.
    destruct (StronglySorted_app_inv _ _ _ Hsorted) as [Hs1 [_ _]].
    destruct (StronglySorted_app_inv _ _ _ Hs1) as [Hsd [_ Hbelow]].
    assert (Hnotin : forall a, str_lt a (entry_of ns d) ->
                               In a ((done ++ [entry_of ns d]) ++ rest) -> In a done).
    { intros a Ha Hin. apply in_app_or in Hin. destruct Hin as [Hin | Hin].
      - apply in_app_or in Hin. destruct Hin as [Hin | [<- | []]]; [assumption|].
        now apply str_lt_irrefl in Ha.
      - exfalso. destruct (StronglySorted_app_inv _ _ _ Hsorted) as [_ [_ Habove]].
        apply (str_lt_asym a (entry_of ns d)); [assumption|].
        apply Habove; [|assumption]. apply in_or_app. right. now left. }
    rewrite (insert_chain_entries ns d "" level); try assumption.
    + now rewrite Hdone.
    + now rewrite Hdone.
    + rewrite Hdone. intros e' He'. apply Hbelow; [assumption | now left].
    + rewrite Hdone. intros k Hk. apply Hnotin; [now apply entry_of_above | now apply Hanc].
    + rewrite Hdone. intros Hd Hin. apply (Hkind Hd).
      apply in_or_app. left. apply in_or_app. now left.
Qed.

Lemma reaches_functional (root n1 : fsnode) (ns : list string) :
  reaches root ns n1 -> valid_tree root = true ->
  forall n2, reaches root ns n2 -> n1 = n2.
Proof.
  induction 1 as [n|name children c names n Hc Hr IH]; intros Hvalid n2 H2.
  - now inversion H2.
  - inversion H2 as [|name' children' c' names' n' Hc' Hr' E1 E2 E3]; subst.
    apply valid_tree_dir in Hvalid. destruct Hvalid as [_ [Hnd Hch]].
    assert (c' = c).
    { clear - Hnd Hc Hc' E2. induction children as [|a children IHc]; [easy|].
      cbn [map] in Hnd. apply NoDup_cons_iff in Hnd. destruct Hnd as [Ha Hnd].
      destruct Hc as [-> | Hc], Hc' as [-> | Hc'].
      - reflexivity.
      - exfalso. apply Ha. rewrite <- E2. now apply in_map.
      - exfalso. apply Ha. rewrite E2. now apply in_map.
      - now apply IHc. }
    subst c'. apply IH; [|assumption]. rewrite Forall_forall in Hch. now apply Hch.
Qed.

Section Closed.
Variables (root : fsnode) (res : list string) (depth : nat).
Hypothesis Hvalid : valid_tree root = true.
Hypothesis Hrec : Forall (recorded root res depth) res.

Lemma recorded_names (ns : list string) (d : bool) :
  Forall (fun x => valid_name x = true) ns -> ns <> [] ->
  In (entry_of ns d) res ->
  exists n, reaches root ns n /\ isdir n = d /\ parent_listed res ns.
Proof.
  intros Hns Hne Hin. rewrite Forall_forall in Hrec.
  destruct (Hrec _ Hin) as [ns0 [n0 [Hreach [Hne0 [_ [E Hparent]]]]]].
  destruct (reaches_valid root n0 ns0 Hreach Hvalid) as [Hns0 _].
  destruct (entry_of_inj ns ns0 d (isdir n0) Hns Hns0 Hne Hne0 E) as [-> ->].
  now exists n0.
Qed.

Lemma ancestors_listed (len : nat) :
  forall (ns : list string) (d : bool),
    length ns <= len ->
    Forall (fun x => valid_name x = true) ns -> ns <> [] ->
    In (entry_of ns d) res ->
    forall k, 0 < k < length ns -> In (entry_of (firstn k ns) true) res.
Proof.
  induction len as [|len IH]; intros ns d Hlen Hns Hne Hin k Hk; [lia|].
  destruct (recorded_names ns d Hns Hne Hin) as [n [_ [_ Hparent]]].
  assert (Hp : In (entry_of (removelast ns) true) res) by (apply Hparent; lia).
  destruct (Nat.eq_dec k (pred (length ns))) as [-> | Hneq].
  - now rewrite <- removelast_firstn_len.
  - rewrite <- (firstn_removelast ns) by lia.
    assert (Hl : length (removelast ns) = pred (length ns)).
    { rewrite removelast_firstn_len, length_firstn. lia. }
    apply (IH (removelast ns) true); try assumption; try lia.
    + now apply Forall_removelast.
    + intros E. rewrite E in Hl. cbn [length] in Hl. lia.
Qed.

Lemma kinds_apart (ns : list string) :
  Forall (fun x => valid_name x = true) ns -> ns <> [] ->
  In (entry_of ns true) res -> ~ In (entry_of ns false) res.
Proof.
  intros Hns Hne H1 H2.
  destruct (recorded_names ns true Hns Hne H1) as [n1 [R1 [D1 _]]].
  destruct (recorded_names ns false Hns Hne H2) as [n2 [R2 [D2 _]]].
  rewrite (reaches_functional root n1 ns R1 Hvalid n2 R2) in D1. congruence.
Qed.
End Closed.

Lemma listing_closed (cwd initial_path : string) (ignore_patterns : list string)
      (root : fsnode) (listing : list string) :
  posixpath.isabs initial_path = true -> valid_tree root = true ->
  list_directory cwd initial_path ignore_patterns root = Returns listing ->
  forall e, In e listing ->
            exists ns d,
              Forall comp_ok ns /\ ns <> [] /\ e = entry_of ns d
              /\ (forall k, 0 < k < length ns -> In (entry_of (firstn k ns) true) listing)
              /\ (d = true -> ~ In (entry_of ns false) listing).
Proof.
  intros Habs Hvalid Hlist e Hin.
  destruct (list_directory_state cwd initial_path ignore_patterns root Habs Hvalid listing Hlist)
    as [st [-> [[depth [front [back [_ [_ [_ [Hrec _]]]]]]] _]]].
  apply (proj1 (in_sort_strings _ _)) in Hin. pose proof Hrec as Hrec'.
  rewrite Forall_forall in Hrec'.
  destruct (Hrec' e Hin) as [ns [n [Hreach [Hne [_ [-> _]]]]]].
  destruct (reaches_valid root n ns Hreach Hvalid) as [Hns _].
  exists ns, (isdir n). split; [now apply valid_comp_ok|]. split; [assumption|].
  split; [reflexivity|]. split.
  - intros k Hk. apply (proj2 (in_sort_strings _ _)).
    now apply (ancestors_listed root (results st) depth Hvalid Hrec (length ns) ns (isdir n)).
  - intros Hd Hfile. apply (proj1 (in_sort_strings _ _)) in Hfile. rewrite Hd in Hin.
    now apply (kinds_apart root (results st) depth Hvalid Hrec ns Hns Hne).
Qed.

Lemma listing_tree_entries (cwd initial_path : string) (ignore_patterns : list string)
      (root : fsnode) (listing : list string) :
  posixpath.isabs initial_path = true -> valid_tree root = true ->
  list_directory cwd initial_path ignore_patterns root = Returns listing ->
  forest_entries (create_file_tree listing) = listing.
Proof.
  intros Habs Hvalid Hlist. unfold create_file_tree.
  apply (fold_add_path_entries listing [] []); cbn [app].
  - exact (listing_strictly_sorted cwd initial_path ignore_patterns Habs root listing
             Hvalid Hlist).
  - now apply (listing_closed cwd initial_path ignore_patterns root).
  - apply well_formed_nil.
  - reflexivity.
Qed.

(** ** The lines of the tree *)

Lemma concat_cons (x : string) (l : list string) :
  String.concat "" (x :: l) = (x ++ String.concat "" l)%string.
Proof. destruct l; cbn [String.concat]; [now rewrite append_nil_r | reflexivity]. Qed.

Lemma concat_app (l1 l2 : list string) :
  String.concat "" (l1 ++ l2) = (String.concat "" l1 ++ String.concat "" l2)%string.
Proof.
  induction l1 as [|x l1 IH]; [reflexivity|].
  cbn [app]. now rewrite !concat_cons, IH, append_assoc.
Qed.

Lemma indent_step (k : nat) : indent (S k) = ("  " ++ indent k)%string.
Proof. unfold indent. cbn [repeat]. apply concat_cons. Qed.

Lemma indent_succ (k : nat) : (indent k ++ "  ")%string = indent (S k).
Proof.
  induction k as [|k IH]; [reflexivity|].
  rewrite (indent_step (S k)). rewrite (indent_step k) at 1. now rewrite append_assoc, IH.
Qed.

Lemma join_snoc (cs : list string) (n : string) :
  cs <> [] -> Str.join "/" (cs ++ [n]) = (Str.join "/" cs ++ "/" ++ n)%string.
Proof.
  unfold Str.join. induction cs as [|c cs IH]; intros Hne; [contradiction|].
  destruct cs as [|c' cs]; [reflexivity|].
  cbn [app String.concat] in *. rewrite IH by discriminate. now rewrite !append_assoc.
Qed.

Lemma under_join (cs : list string) (n : string) :
  Forall comp_ok cs -> (under (Str.join "/" cs) ++ n)%string = Str.join "/" (cs ++ [n]).
Proof.
  intros Hcs. destruct cs as [|c cs]; [reflexivity|].
  rewrite join_snoc by discriminate. unfold under.
  replace (Str.join "/" (c :: cs) =? "")%string with false; [now rewrite append_assoc|].
  symmetry. apply String.eqb_neq.
  apply (entry_of_nonempty (c :: cs) false) in Hcs; [|discriminate].
  unfold entry_of in Hcs. now rewrite append_nil_r in Hcs.
Qed.

Lemma entry_line_of (ns : list string) (d : bool) :
  Forall comp_ok ns -> ns <> [] ->
  entry_line (entry_of ns d)
  = (indent (length ns) ++ "- " ++ last ns "" ++ suffix_of d ++ Str.nl)%string.
Proof.
  intros Hns Hne. unfold entry_line.
  rewrite split_entry_of, endswith_entry_of by assumption.
  rewrite filter_app, (filter_nonempty_ok ns) by assumption.
  destruct d; cbn [filter posixpath.nonempty String.eqb negb suffix_of];
    now rewrite app_nil_r.
Qed.

Lemma print_node_entries (root_path : string) (x : tree_node) :
  forall (cs : list string) (level : nat),
    Forall comp_ok cs -> well_formed_node (Str.join "/" cs) x ->
    print_node root_path level (indent (S (length cs))) x
    = String.concat "" (map entry_line (tree_entries x)).
Proof.
  induction x as [n p|n p children IH] using tree_node_induction; intros cs level Hcs Hx.
  - destruct Hx as [Hn ->]. cbn [print_node tree_entries map String.concat].
    rewrite under_join by assumption.
    replace (Str.join "/" (cs ++ [n])) with (entry_of (cs ++ [n]) false)
      by (unfold entry_of; apply append_nil_r).
    rewrite entry_line_of.
    + rewrite length_app, last_last. cbn [length suffix_of].
      now rewrite Nat.add_1_r.
    + apply Forall_app. split; [assumption | now constructor].
    + now destruct cs.
  - apply well_formed_dir in Hx. destruct Hx as [Hn [-> [_ Hch]]].
    rewrite print_node_dir, tree_entries_dir. cbn [map]. rewrite concat_cons.
    rewrite under_join in * by assumption.
    assert (Hcs' : Forall comp_ok (cs ++ [n]))
      by (apply Forall_app; split; [assumption | now constructor]).
    replace (Str.join "/" (cs ++ [n]) ++ "/")%string with (entry_of (cs ++ [n]) true)
      by reflexivity.
    rewrite entry_line_of; [|assumption | now destruct cs].
    rewrite length_app, last_last. cbn [length suffix_of]. rewrite !Nat.add_1_r.
    rewrite indent_succ, !append_assoc. do 5 f_equal. unfold forest_entries.
    clear Hn. induction children as [|c children IHc]; [reflexivity|].
    apply Forall_cons_iff in IH, Hch. destruct IH as [IHhead IHtail], Hch as [Hc Hch].
    cbn [map flat_map]. rewrite map_app, concat_cons, concat_app.
    rewrite (IHc IHtail Hch). f_equal.
    rewrite <- (IHhead (cs ++ [n]) (S level) Hcs' Hc).
    now rewrite length_app, Nat.add_1_r.
Qed.

Lemma print_tree_entries (root_path : string) (tree : list tree_node) :
  well_formed "" tree ->
  print_tree tree root_path 0 ""
  = (root_line root_path 0
     ++ String.concat "" (map entry_line (forest_entries tree)))%string.
Proof.
  intros [_ Hwf]. unfold print_tree. f_equal. cbn [level_prefix Nat.eqb].
  unfold forest_entries. induction tree as [|x tree IH]; [reflexivity|].
  apply Forall_cons_iff in Hwf. destruct Hwf as [Hx Hwf].
  cbn [map flat_map]. rewrite map_app, concat_cons, concat_app, (IH Hwf). f_equal.
  apply (print_node_entries root_path x [] 0); [constructor | exact Hx].
Qed.

(** ** The tree and its lines *)

(** X5.  Whatever the paths given to [_create_file_tree], in whatever
    order, with empty parts, twice the same or below the path of a file:
    at every level of the tree no two nodes have the same name, the name
    of a node is a part of a path, not empty and without [/], and the
    path of a node is the path of the node above, [/] and its name (its
    name alone at the first level). *)
Theorem tree_nodes_well_formed :
  forall paths : list string,
    well_formed "" (create_file_tree paths)
    /\ each_level (fun level => unique_names level
                                /\ Forall (fun c => comp_ok (tree_name c)) level)
         (create_file_tree paths).
Proof.
  intros paths.
  assert (Hwf : well_formed "" (create_file_tree paths))
    by (apply fold_add_path_well_formed, well_formed_nil).
  split; [exact Hwf|]. destruct Hwf as [Hu Hn]. split.
  - split; [assumption|]. eapply Forall_impl; [|exact Hn].
    intros [m q|m q ch] Hc; [apply Hc|]. apply well_formed_dir in Hc. apply Hc.
  - eapply Forall_impl; [|exact Hn]. intros x. apply well_formed_each.
Qed.

(** X6.  The tree built from the listing stands for the listing: its
    nodes, read in the order they are printed, each with its path and
    with [/] for a directory, are the entries of the listing, one node
    for each entry and in the same order. *)
Theorem tree_reads_back :
  forall (cwd initial_path : string) (ignore_patterns : list string) (root : fsnode)
         (listing : list string),
    posixpath.isabs initial_path = true ->
    valid_tree root = true ->
    list_directory cwd initial_path ignore_patterns root = Returns listing ->
    forest_entries (create_file_tree listing) = listing.
Proof.
  intros cwd initial_path ignore_patterns root listing Habs Hvalid Hlist.
  now apply (listing_tree_entries cwd initial_path ignore_patterns root).
Qed.

(** A directory and a file whose name starts with the directory's. *)
Lemma tree_reads_back_witness :
  forest_entries (create_file_tree ["docs.md"; "docs/"; "docs/index.md"])
  = ["docs.md"; "docs/"; "docs/index.md"].
Proof.
  apply (tree_reads_back "/home" "/repo" [] docs_and_file).
  - reflexivity.
  - reflexivity.
  - vm_compute. reflexivity.
Defined.

(** X7.  What [forward] returns for a directory is the listing line by
    line: the banner when the listing has [MAX_FILES] entries or more,
    the line of the root, and then one line for each entry of the
    listing, in the order of the listing: two spaces for each name of
    the entry, the marker, and the last name of the entry, with [/] for
    a directory. *)
Theorem forward_lines :
  forall (fs : filesystem) (path : string) (ignore : option (list string)) (root : fsnode)
         (listing : list string),
    posixpath.isabs (getcwd fs) = true ->
    stat fs (resolved fs path) = Some root ->
    isdir root = true ->
    valid_tree root = true ->
    list_directory (getcwd fs) (resolved fs path) (patterns_of ignore) root = Returns listing ->
    forward fs path ignore
    = Returns ((if (MAX_FILES <=? length listing)%nat then TRUNCATED_MESSAGE else "")
               ++ "- " ++ Str.rstrip "/" (resolved fs path) ++ "/" ++ Str.nl
               ++ String.concat "" (map entry_line listing))%string.
Proof.
  intros fs path ignore root listing Hcwd Hstat Hdir Hvalid Hlist.
  pose proof (isabs_resolved fs path Hcwd) as Habs.
  rewrite forward_eq, Hstat. destruct root as [name|name raises children]; [discriminate|].
  rewrite Hlist. f_equal. f_equal.
  rewrite print_tree_entries by apply fold_add_path_well_formed, well_formed_nil.
  rewrite (listing_tree_entries _ _ _ _ _ Habs Hvalid Hlist).
  unfold root_line, posixpath.sep. cbn [Nat.eqb]. now rewrite !append_assoc.
Qed.

(** Scenario A. *)
Lemma forward_lines_witness :
  forward (mount "/home" "/repo" scenario_a) "/repo" None
  = Returns ((if (MAX_FILES <=? length ["a.txt"; "b/"; "b/c.txt"])%nat then TRUNCATED_MESSAGE else "")
             ++ "- " ++ Str.rstrip "/" "/repo" ++ "/" ++ Str.nl
             ++ String.concat "" (map entry_line ["a.txt"; "b/"; "b/c.txt"]))%string.
Proof.
  apply (forward_lines (mount "/home" "/repo" scenario_a) "/repo" None scenario_a).
  - reflexivity.
  - reflexivity.
  - reflexivity.
  - reflexivity.
  - vm_compute. reflexivity.
Defined.

(** ** The order in which [os.listdir] returns the names *)

Lemma insert_sorted_ext_in {A : Type} (k1 k2 : A -> string) (x : A) (l : list A) :
  (forall b, In b l -> String.leb (k1 x) (k1 b) = String.leb (k2 x) (k2 b)) ->
  insert_sorted k1 x l = insert_sorted k2 x l.
Proof.
  induction l as [|y l IH]; intros H; cbn [insert_sorted]; [reflexivity|].
  rewrite (H y) by now left. destruct (String.leb (k2 x) (k2 y)); [reflexivity|].
  f_equal. apply IH. intros b Hb. apply H. now right.
Qed.

Lemma sort_by_ext_in {A : Type} (k1 k2 : A -> string) (l : list A) :
  (forall a b, In a l -> In b l -> String.leb (k1 a) (k1 b) = String.leb (k2 a) (k2 b)) ->
  sort_by k1 l = sort_by k2 l.
Proof.
  induction l as [|x l IH]; intros H; cbn [sort_by]; [reflexivity|].
  rewrite IH by (intros a b Ha Hb; apply H; now right).
  apply insert_sorted_ext_in. intros b Hb. apply H; [now left|]. right.
  now apply (Permutation_in _ (sort_by_perm k2 l)).
Qed.

Lemma sort_by_twice {A : Type} (key : A -> string) (l : list A) :
  sort_by key (sort_by key l) = sort_by key l.
Proof. apply sort_by_id, sort_by_sorted. Qed.

Lemma str_le_antisym (a b : string) : str_le a b -> str_le b a -> a = b.
Proof.
  unfold str_le, String.leb. rewrite (String.compare_antisym b a).
  destruct (String.compare a b) eqn:E; cbn [CompOpp]; try discriminate.
  intros _ _. now apply String.compare_eq_iff.
Qed.

Lemma same_keys_eq {A : Type} (key : A -> string) (l1 : list A) :
  forall l2, map key l1 = map key l2 -> Permutation l1 l2 -> NoDup (map key l1) -> l1 = l2.
Proof.
  induction l1 as [|a l1 IH]; intros [|b l2] Hk Hp Hnd; try discriminate; [reflexivity|].
  cbn [map] in Hk, Hnd. injection Hk as Hab Hk. apply NoDup_cons_iff in Hnd.
  destruct Hnd as [Ha Hnd].
  assert (a = b).
  { assert (Hin : In a (b :: l2)) by (apply (Permutation_in _ Hp); now left).
    destruct Hin as [-> | Hin]; [reflexivity|]. exfalso. apply Ha.
    assert (Hin' : In b (a :: l1)) by (apply (Permutation_in _ (Permutation_sym Hp)); now left).
    destruct Hin' as [<- | Hin']; [now apply (in_map key) in Hin; rewrite <- Hk in Hin|].
    rewrite Hab. now apply in_map. }
  subst b. f_equal. apply IH; try assumption. now apply Permutation_cons_inv in Hp.
Qed.

Lemma Sorted_map_key {A : Type} (key : A -> string) (l : list A) :
  Sorted (fun a b => str_le (key a) (key b)) l -> Sorted str_le (map key l).
Proof.
  induction 1 as [|x l Hl IH Hx]; cbn [map]; constructor; [assumption|].
  destruct Hx; cbn [map]; now constructor.
Qed.

Lemma sort_by_unique {A : Type} (key : A -> string) (l1 l2 : list A) :
  Permutation l1 l2 -> NoDup (map key l1) -> sort_by key l1 = sort_by key l2.
Proof.
  intros Hp Hnd.
  assert (Hperm : Permutation (sort_by key l1) (sort_by key l2)).
  { rewrite (sort_by_perm key l1), (sort_by_perm key l2). exact Hp. }
  apply (same_keys_eq key); [|assumption|].
  - apply sorted_perm_eq.
    + apply Sorted_map_key, sort_by_sorted.
    + apply Sorted_map_key, sort_by_sorted.
    + now apply Permutation_map.
  - apply (Permutation_NoDup (l := map key l1)); [|assumption].
    apply Permutation_map, Permutation_sym, sort_by_perm.
Qed.

Lemma by_name_name (n : fsnode) : node_name (by_name n) = node_name n.
Proof. now destruct n. Qed.

Lemma by_name_isdir (n : fsnode) : isdir (by_name n) = isdir n.
Proof. now destruct n. Qed.

Lemma sizes_perm (l1 l2 : list fsnode) :
  Permutation l1 l2 ->
  fold_right (fun c acc => node_size c + acc) 0 l1
  = fold_right (fun c acc => node_size c + acc) 0 l2.
Proof. induction 1; cbn [fold_right]; lia. Qed.

Lemma by_name_size (n : fsnode) : node_size (by_name n) = node_size n.
Proof.
  induction n as [name | name raises children IH] using fsnode_induction; [reflexivity|].
  cbn [by_name node_size]. f_equal.
  rewrite (sizes_perm _ _ (sort_by_perm node_name (map by_name children))).
  induction IH as [|c children Hc _ IHc]; cbn [map fold_right]; [reflexivity|].
  now rewrite Hc, IHc.
Qed.

Lemma filter_fst_map {B : Type} (keep : string -> bool) (h : B -> B) (l : list (string * B)) :
  filter (fun e => keep (fst e)) (map (fun e => (fst e, h (snd e))) l)
  = map (fun e => (fst e, h (snd e))) (filter (fun e => keep (fst e)) l).
Proof.
  induction l as [|e l IH]; [reflexivity|]. cbn [map filter fst].
  destruct (keep (fst e)); cbn [map]; now rewrite IH.
Qed.

Section ByName.
Variables (cwd initial_path : string) (ignore_patterns : list string).

Lemma join_leb (path : string) (a b : string) :
  path <> "" -> valid_name a = true -> valid_name b = true ->
  String.leb (posixpath.join path a) (posixpath.join path b) = String.leb a b.
Proof.
  intros Hp Ha Hb. rewrite !join_child_prefix by assumption. apply leb_app.
Qed.

Lemma enqueued_by_name (path : string) (children : list fsnode) :
  path <> "" -> Forall (fun c => valid_name (node_name c) = true) children ->
  enqueued ignore_patterns path (sort_by node_name (map by_name children))
  = named_queue (enqueued ignore_patterns path children).
Proof.
  intros Hp Hvalid. unfold enqueued, named_queue.
  set (g := fun c : fsnode => (posixpath.join path (node_name c), c)).
  assert (Hkeys : forall l : list fsnode,
             Forall (fun c => valid_name (node_name c) = true) l ->
             sort_by fst (map g l) = map g (sort_by node_name l)).
  { intros l Hl. rewrite sort_by_map. f_equal. apply sort_by_ext_in.
    intros a b Ha Hb. rewrite Forall_forall in Hl. unfold g. cbn [fst].
    apply join_leb; auto. }
  rewrite (Hkeys children Hvalid).
  rewrite (Hkeys (sort_by node_name (map by_name children))).
  - rewrite sort_by_twice.
    rewrite <- (filter_fst_map (fun p => negb (should_skip p ignore_patterns)) by_name).
    f_equal. rewrite sort_by_map.
    rewrite (sort_by_ext (fun a => node_name (by_name a)) node_name)
      by (intros a b; now rewrite !by_name_name).
    rewrite !map_map. apply map_ext. intros c. unfold g. cbn [fst snd].
    now rewrite by_name_name.
  - apply Forall_forall. intros c Hc.
    apply (Permutation_in _ (sort_by_perm node_name _)) in Hc.
    apply in_map_iff in Hc. destruct Hc as [c0 [<- Hc0]]. rewrite by_name_name.
    rewrite Forall_forall in Hvalid. now apply Hvalid.
Qed.

Lemma listed_by_name (path : string) (n : fsnode) :
  path <> "" -> valid_tree n = true ->
  listed ignore_patterns path (by_name n)
  = match listed ignore_patterns path n with
    | Returns q => Returns (named_queue q)
    | Raises e => Raises e
    | OutOfFuel => OutOfFuel
    end.
Proof.
  intros Hp Hvalid. destruct n as [name | name [e|] children]; cbn [listed by_name].
  - reflexivity.
  - now destruct (caught e).
  - apply valid_tree_dir in Hvalid. destruct Hvalid as [Hnames _].
    now rewrite enqueued_by_name.
Qed.

Lemma scan_step_by_name (path : string) (n : fsnode) (rest : list (string * fsnode))
      (st : scan_state) :
  path <> "" -> valid_tree n = true ->
  scan_step cwd initial_path ignore_patterns path (by_name n) (named_queue rest)
    (named_state st)
  = match scan_step cwd initial_path ignore_patterns path n rest st with
    | Returns st' => Returns (named_state st')
    | Raises e => Raises e
    | OutOfFuel => OutOfFuel
    end.
Proof.
  intros Hp Hvalid. rewrite !scan_step_spec. destruct (should_skip path ignore_patterns).
  - reflexivity.
  - rewrite listed_by_name by assumption.
    destruct (listed ignore_patterns path n) as [q| |]; try reflexivity.
    unfold own_entry, counted, rel_entry. rewrite by_name_isdir.
    unfold named_state, named_queue. cbn [results queue file_count].
    now rewrite map_app.
Qed.

Let sound (q : list (string * fsnode)) : Prop :=
  Forall (fun e => fst e <> "" /\ valid_tree (snd e) = true) q.

Lemma scan_step_sound (path : string) (n : fsnode) (rest : list (string * fsnode))
      (st st' : scan_state) :
  path <> "" -> valid_tree n = true -> sound rest ->
  scan_step cwd initial_path ignore_patterns path n rest st = Returns st' ->
  sound (queue st').
Proof.
  unfold sound. intros Hp Hvalid Hrest. rewrite scan_step_spec.
  destruct (should_skip path ignore_patterns); [now intros [= <-]|].
  destruct (listed ignore_patterns path n) as [q| |] eqn:L; try discriminate.
  intros [= <-]. cbn [queue]. apply Forall_app. split; [assumption|].
  apply Forall_forall. intros e He.
  destruct (listed_in _ _ _ _ _ L He) as [name [children [c [-> [Hc ->]]]]].
  apply valid_tree_dir in Hvalid. destruct Hvalid as [Hnames [_ Hch]].
  rewrite Forall_forall in Hnames, Hch. cbn [fst snd]. split; [|now apply Hch].
  destruct (join_extends path (node_name c) Hp (Hnames c Hc)) as [r ->].
  destruct path; [contradiction | discriminate].
Qed.

Lemma scan_loop_by_name (fuel : nat) :
  forall st : scan_state,
    sound (queue st) ->
    scan_loop cwd initial_path ignore_patterns fuel (named_state st)
    = match scan_loop cwd initial_path ignore_patterns fuel st with
      | Returns st' => Returns (named_state st')
      | Raises e => Raises e
      | OutOfFuel => OutOfFuel
      end.
Proof.
  induction fuel as [|fuel IH]; intros st Hsound; rewrite !scan_loop_eq;
    cbn [named_state queue file_count]; destruct (queue st) as [|[path n] rest] eqn:Q;
    cbn [named_queue map fst snd]; try (unfold named_state; now rewrite Q);
    destruct (file_count st <? MAX_FILES); try (unfold named_state; now rewrite Q);
    try reflexivity.
  apply Forall_cons_iff in Hsound. destruct Hsound as [[Hp Hn] Hrest]. cbn [fst snd] in Hp, Hn.
  fold (named_queue rest). rewrite (scan_step_by_name path n rest st Hp Hn).
  destruct (scan_step cwd initial_path ignore_patterns path n rest st) as [st1| |] eqn:S1;
    try reflexivity.
  apply IH. now apply (scan_step_sound path n rest st st1).
Qed.

Lemma list_directory_by_name (root : fsnode) :
  initial_path <> "" -> valid_tree root = true ->
  list_directory cwd initial_path ignore_patterns (by_name root)
  = list_directory cwd initial_path ignore_patterns root.
Proof.
  intros Hp Hvalid. unfold list_directory. rewrite by_name_size.
  pose proof (scan_loop_by_name (node_size root)
                {| results := []; queue := [(initial_path, root)]; file_count := 0 |}) as H.
  unfold named_state at 1 in H. cbn [results queue file_count named_queue map fst snd] in H.
  rewrite H by (constructor; [now split | constructor]). clear H.
  destruct (scan_loop cwd initial_path ignore_patterns (node_size root) _); reflexivity.
Qed.
End ByName.

Lemma reordered_name (n1 n2 : fsnode) : reordered n1 n2 -> node_name n1 = node_name n2.
Proof. now intros []. Qed.

Lemma reordered_by_name (n1 : fsnode) :
  forall n2, reordered n1 n2 -> valid_tree n1 = true -> by_name n1 = by_name n2.
Proof.
  induction n1 as [name | name raises children IH] using fsnode_induction;
    intros n2 Hr Hvalid; inversion Hr as [|name' raises' cs1 cs cs2 Hall Hperm]; subst;
    [reflexivity|].
  cbn [by_name]. f_equal. apply valid_tree_dir in Hvalid. destruct Hvalid as [_ [Hnd Hch]].
  assert (Hmap : map by_name children = map by_name cs /\ map node_name children = map node_name cs).
  { clear Hperm Hnd Hr. induction Hall as [|c1 c cs1 cs Hc Hall IHall]; [now split|].
    apply Forall_cons_iff in IH, Hch. destruct IH as [IHc IHcs], Hch as [Hc1 Hcs1].
    destruct (IHall IHcs Hcs1) as [E1 E2]. cbn [map].
    now rewrite (IHc c Hc Hc1), E1, E2, (reordered_name c1 c Hc). }
  destruct Hmap as [Hmap Hnames]. rewrite Hmap.
  apply sort_by_unique; [now apply Permutation_map|].
  rewrite map_map. rewrite (map_ext _ node_name) by apply by_name_name.
  now rewrite <- Hnames.
Qed.

(** X8.  The listing does not depend on the order in which [os.listdir]
    returns the names: two trees that differ only in the order of the
    children of their directories give the same result, the same
    listing or the same error, also when the cap cuts the listing
    short. *)
Theorem listdir_order_irrelevant :
  forall (cwd initial_path : string) (ignore_patterns : list string) (root root' : fsnode),
    posixpath.isabs initial_path = true ->
    valid_tree root = true ->
    valid_tree root' = true ->
    reordered root root' ->
    list_directory cwd initial_path ignore_patterns root
    = list_directory cwd initial_path ignore_patterns root'.
Proof.
  intros cwd initial_path ignore_patterns root root' Habs Hvalid Hvalid' Hr.
  pose proof (isabs_nonempty _ Habs) as Hne.
  rewrite <- (list_directory_by_name cwd initial_path ignore_patterns root Hne Hvalid).
  rewrite <- (list_directory_by_name cwd initial_path ignore_patterns root' Hne Hvalid').
  now rewrite (reordered_by_name root root' Hr Hvalid).
Qed.

(** Scenario A, the directory returned before the file. *)
Lemma listdir_order_irrelevant_witness :
  list_directory "/home" "/repo" [] scenario_a
  = list_directory "/home" "/repo" [] scenario_a_reordered.
Proof.
  apply listdir_order_irrelevant.
  - reflexivity.
  - reflexivity.
  - reflexivity.
  - apply (reordered_dir "repo" None _ [File "a.txt"; Dir "b" None [File "c.txt"]]).
    + constructor; [constructor|]. constructor; [|constructor].
      apply (reordered_dir "b" None _ [File "c.txt"]).
      * constructor; [constructor | constructor].
      * apply Permutation_refl.
    + apply perm_swap.
Defined.

(** ** A root that is skipped *)

Lemma list_directory_skipped (cwd initial_path : string) (ignore_patterns : list string)
      (root : fsnode) :
  should_skip initial_path ignore_patterns = true ->
  list_directory cwd initial_path ignore_patterns root = Returns [].
Proof.
  intros Hskip. unfold list_directory.
  assert (Hfuel : exists fuel, node_size root = S fuel)
    by (destruct root; cbn [node_size]; eexists; reflexivity).
  destruct Hfuel as [fuel ->].
  rewrite scan_loop_eq. cbn [queue file_count]. cbn [Nat.ltb Nat.leb MAX_FILES].
  rewrite scan_step_spec, Hskip. cbn [results file_count].
  rewrite scan_loop_eq. reflexivity.
Qed.

Lemma fnmatch_star (path : string) : fnmatch.fnmatch path "*" = true.
Proof.
  unfold fnmatch.fnmatch. change (fnmatch.translate "*") with [fnmatch.Star].
  cbn [fnmatch.matches]. induction path as [|c path IH]; [reflexivity|].
  cbn [orb]. exact IH.
Qed.

(** X9.  When the root itself is skipped, because its name starts with a
    dot, or it lies in a cache directory, or it matches a pattern to
    ignore, [forward] reports no error and lists nothing of what the
    directory holds: it returns the line of the root alone.  The
    pattern [*] matches every path, the root as well, and lists
    nothing. *)
Theorem skipped_root_lists_nothing :
  (forall (fs : filesystem) (path : string) (ignore : option (list string))
          (name : string) (raises : option oserror) (children : list fsnode),
      stat fs (resolved fs path) = Some (Dir name raises children) ->
      should_skip (resolved fs path) (patterns_of ignore) = true ->
      forward fs path ignore
      = Returns ("- " ++ Str.rstrip "/" (resolved fs path) ++ "/" ++ Str.nl)%string)
  /\ (forall (fs : filesystem) (path : string) (patterns : list string)
             (name : string) (raises : option oserror) (children : list fsnode),
        stat fs (resolved fs path) = Some (Dir name raises children) ->
        In "*" patterns ->
        forward fs path (Some patterns)
        = Returns ("- " ++ Str.rstrip "/" (resolved fs path) ++ "/" ++ Str.nl)%string).
Proof.
  assert (H : forall fs path ignore name raises children,
             stat fs (resolved fs path) = Some (Dir name raises children) ->
             should_skip (resolved fs path) (patterns_of ignore) = true ->
             forward fs path ignore
             = Returns ("- " ++ Str.rstrip "/" (resolved fs path) ++ "/" ++ Str.nl)%string).
  { intros fs path ignore name raises children Hstat Hskip.
    rewrite forward_eq, Hstat, list_directory_skipped by assumption.
    cbn [length Nat.leb MAX_FILES create_file_tree fold_left].
    unfold print_tree, root_line, posixpath.sep. cbn [Nat.eqb map String.concat Nat.leb].
    cbn [String.append]. now rewrite !append_assoc, append_nil_r. }
  split; [exact H|].
  intros fs path patterns name raises children Hstat Hin.
  apply (H fs path (Some patterns) name raises children Hstat).
  cbn [patterns_of]. apply (should_skip_pattern _ "*"); [assumption | apply fnmatch_star].
Qed.

(** A hidden directory given as the root. *)
Lemma skipped_root_lists_nothing_witness :
  forward (mount "/home" "/home/u/.config" hidden_root) "/home/u/.config" None
  = Returns ("- " ++ Str.rstrip "/" "/home/u/.config" ++ "/" ++ Str.nl)%string.
Proof.
  apply (proj1 skipped_root_lists_nothing
           (mount "/home" "/home/u/.config" hidden_root) "/home/u/.config" None
           ".config" None [File "settings.json"; Dir "app" None [File "app.ini"]]).
  - reflexivity.
  - reflexivity.
Defined.

(** ** More patterns *)

Section MorePatterns.
Variables (cwd initial_path : string) (ignore_patterns extra : list string).

Lemma should_skip_more (path : string) :
  should_skip path ignore_patterns = true ->
  should_skip path (extra ++ ignore_patterns) = true.
Proof.
  unfold should_skip. rewrite existsb_app.
  destruct (Str.startswith _ "." && negb _); [reflexivity|].
  destruct ((_ =? "__pycache__")%string || _); [reflexivity|].
  destruct (existsb _ ignore_patterns); [|discriminate].
  intros _. now rewrite orb_true_r.
Qed.

Lemma walk_more (n : fsnode) :
  forall path,
    incl (walk cwd initial_path (extra ++ ignore_patterns) path n)
         (walk cwd initial_path ignore_patterns path n).
Proof.
  induction n as [name | name raises children IH] using fsnode_induction; intros path;
    rewrite !walk_eq;
    destruct (should_skip path (extra ++ ignore_patterns)) eqn:S1; try (intros x []);
    destruct (should_skip path ignore_patterns) eqn:S2;
    try (apply should_skip_more in S2; congruence); try apply incl_refl.
  apply incl_app_app; [apply incl_refl|].
  destruct raises; [apply incl_refl|].
  intros e He. apply in_flat_map in He. destruct He as [c [Hc He]].
  apply in_flat_map. exists c. split; [assumption|].
  rewrite Forall_forall in IH. now apply (IH c Hc).
Qed.

Lemma walk_count_more (n : fsnode) :
  forall path,
    walk_count initial_path (extra ++ ignore_patterns) path n
    <= walk_count initial_path ignore_patterns path n.
Proof.
  induction n as [name | name raises children IH] using fsnode_induction; intros path;
    rewrite !walk_count_eq;
    destruct (should_skip path (extra ++ ignore_patterns)) eqn:S1; try lia;
    destruct (should_skip path ignore_patterns) eqn:S2;
    try (apply should_skip_more in S2; congruence); try lia.
  apply Nat.add_le_mono_l. destruct raises; [lia|].
  induction IH as [|c children Hc _ IHc]; cbn [fold_right]; [lia|].
  specialize (Hc (posixpath.join path (node_name c))). lia.
Qed.
End MorePatterns.

(** X10.  As long as the cap is not reached, more patterns to ignore
    never bring an entry into the listing: what is listed with the
    patterns [extra] added is among what is listed without them. *)
Theorem more_patterns_fewer_entries :
  forall (cwd initial_path : string) (ignore_patterns extra : list string) (root : fsnode)
         (listing listing' : list string),
    walk_count initial_path ignore_patterns initial_path root < MAX_FILES ->
    list_directory cwd initial_path ignore_patterns root = Returns listing ->
    list_directory cwd initial_path (extra ++ ignore_patterns) root = Returns listing' ->
    incl listing' listing.
Proof.
  intros cwd initial_path ignore_patterns extra root listing listing' Hcap Hlist Hlist'.
  pose proof (walk_count_more initial_path ignore_patterns extra root initial_path) as Hle.
  apply list_directory_complete in Hlist; [|assumption].
  apply list_directory_complete in Hlist'; [|lia].
  intros e He. apply (Permutation_in _ (Permutation_sym Hlist)).
  apply (walk_more cwd initial_path ignore_patterns extra root initial_path).
  now apply (Permutation_in _ Hlist').
Qed.

(** Scenario C, with and without the pattern. *)
Lemma more_patterns_fewer_entries_witness : incl ["app.py"] ["app.log"; "app.py"].
Proof.
  apply (more_patterns_fewer_entries "/home" "/repo" [] ["*.log"] scenario_c).
  - vm_compute. lia.
  - vm_compute. reflexivity.
  - vm_compute. reflexivity.
Defined.

(** ** Relative paths *)

Lemma norm_comps_app (b : bool) (l1 l2 : list string) :
  posixpath.norm_comps b (l1 ++ l2)
  = fold_left (posixpath.norm_step b) l2 (posixpath.norm_comps b l1).
Proof. unfold posixpath.norm_comps. apply fold_left_app. Qed.

(** What [normpath] makes of the slashes a path starts with. *)
Lemma normpath_eq (p q : string) :
  p <> "" -> q <> "" ->
  Str.startswith p "/" = Str.startswith q "/" ->
  Str.startswith p "//" = Str.startswith q "//" ->
  Str.startswith p "///" = Str.startswith q "///" ->
  posixpath.norm_comps (Str.startswith p "/") (Str.split posixpath.sep p)
  = posixpath.norm_comps (Str.startswith q "/") (Str.split posixpath.sep q) ->
  posixpath.normpath p = posixpath.normpath q.
Proof.
  intros Hp Hq H1 H2 H3 Hc. unfold posixpath.normpath.
  apply String.eqb_neq in Hp, Hq. rewrite Hp, Hq, Hc, H1, H2, H3. reflexivity.
Qed.

Lemma startswith_cons (a b : ascii) (p s : string) :
  Str.startswith (String b s) (String a p) = Ascii.eqb a b && Str.startswith s p.
Proof. unfold Str.startswith. apply prefix_cons. Qed.

Lemma endswith_slash_cons (a : ascii) (s : string) :
  s <> "" -> Str.endswith (String a s) "/" = Str.endswith s "/".
Proof.
  intros Hs. change (String a s) with (String a "" ++ s)%string.
  now apply endswith_app_r.
Qed.

(** A path that does not end with [/] starts with as many [/] when
    something is put after it. *)
Lemma slashes_open (k : nat) :
  forall (s r : string),
    s <> "" -> Str.endswith s "/" = false ->
    Str.startswith (s ++ r) (String.concat "" (repeat "/" k))
    = Str.startswith s (String.concat "" (repeat "/" k)).
Proof.
  induction k as [|k IH]; intros s r Hs He.
  - unfold Str.startswith. cbn [repeat String.concat]. now rewrite !prefix_nil.
  - replace (String.concat "" (repeat "/" (S k)))
      with (String "/" (String.concat "" (repeat "/" k)))
      by (cbn [repeat]; destruct (repeat "/" k); reflexivity).
    destruct s as [|a s]; [contradiction|]. cbn [String.append].
    rewrite !startswith_cons. destruct (Ascii.eqb "/" a) eqn:Ea; [|reflexivity].
    cbn [andb]. apply Ascii.eqb_eq in Ea. subst a.
    destruct s as [|b s]; [discriminate He|].
    apply IH; [discriminate|]. now rewrite <- (endswith_slash_cons "/").
Qed.

(** A path starts with as many [/] when something that starts with
    another character is put after it. *)
Lemma slashes_closed (k : nat) :
  forall (s : string) (c : ascii) (r : string),
    c <> "/"%char -> s <> "" ->
    Str.startswith (s ++ String c r) (String.concat "" (repeat "/" k))
    = Str.startswith s (String.concat "" (repeat "/" k)).
Proof.
  induction k as [|k IH]; intros s c r Hc Hs.
  - unfold Str.startswith. cbn [repeat String.concat]. now rewrite !prefix_nil.
  - replace (String.concat "" (repeat "/" (S k)))
      with (String "/" (String.concat "" (repeat "/" k)))
      by (cbn [repeat]; destruct (repeat "/" k); reflexivity).
    destruct s as [|a s]; [contradiction|]. cbn [String.append].
    rewrite !startswith_cons. destruct (Ascii.eqb "/" a); [|reflexivity]. cbn [andb].
    destruct s as [|b s]; [|apply IH; [assumption | discriminate]].
    cbn [String.append]. destruct k as [|k].
    + unfold Str.startswith. cbn [repeat String.concat]. now rewrite !prefix_nil.
    + replace (String.concat "" (repeat "/" (S k)))
        with (String "/" (String.concat "" (repeat "/" k)))
        by (cbn [repeat]; destruct (repeat "/" k); reflexivity).
      rewrite startswith_cons. apply Ascii.eqb_neq in Hc. rewrite Ascii.eqb_sym in Hc.
      rewrite Hc. reflexivity.
Qed.

Lemma normpath_join_blank (cwd x : string) :
  posixpath.isabs cwd = true -> x = "" \/ x = "." ->
  posixpath.normpath (posixpath.join cwd x) = posixpath.normpath cwd.
Proof.
  intros Habs Hx. pose proof (isabs_nonempty _ Habs) as Hne.
  assert (Hstep : forall b comps, posixpath.norm_step b comps x = comps).
  { intros b comps. unfold posixpath.norm_step. destruct Hx as [-> | ->]; reflexivity. }
  assert (Hsplit : Str.split posixpath.sep x = [x]) by (destruct Hx as [-> | ->]; reflexivity).
  unfold posixpath.join, posixpath.sep_str.
  replace (Str.startswith x "/") with false by (destruct Hx as [-> | ->]; reflexivity).
  apply String.eqb_neq in Hne. rewrite Hne. cbn [orb]. apply String.eqb_neq in Hne.
  destruct (Str.endswith cwd "/") eqn:E.
  - destruct Hx as [-> | ->]; [now rewrite append_nil_r|].
    apply endswith_iff in E. destruct E as [c' ->].
    apply normpath_eq.
    + destruct c'; discriminate.
    + assumption.
    + apply (slashes_closed 1); [discriminate | assumption].
    + apply (slashes_closed 2); [discriminate | assumption].
    + apply (slashes_closed 3); [discriminate | assumption].
    + rewrite (slashes_closed 1) by (discriminate || assumption).
      replace ((c' ++ "/") ++ ".")%string with (c' ++ String "/" ".")%string
        by now rewrite append_assoc.
      unfold posixpath.sep.
      rewrite !(split_app_sep "/"%char c'), !norm_comps_app. reflexivity.
  - apply normpath_eq.
    + destruct cwd; [contradiction | discriminate].
    + assumption.
    + now apply (slashes_open 1).
    + now apply (slashes_open 2).
    + now apply (slashes_open 3).
    + rewrite (slashes_open 1) by assumption. unfold posixpath.sep.
      change (cwd ++ "/" ++ x)%string with (cwd ++ String "/" x)%string.
      rewrite (split_app_sep "/"%char cwd x). fold posixpath.sep. rewrite Hsplit.
      rewrite norm_comps_app. cbn [fold_left]. apply Hstep.
Qed.

Lemma resolved_blank (fs : filesystem) (x : string) :
  posixpath.isabs (getcwd fs) = true ->
  posixpath.normpath (getcwd fs) = getcwd fs ->
  x = "" \/ x = "." ->
  resolved fs x = resolved fs (getcwd fs).
Proof.
  intros Habs Hnorm Hx. unfold resolved at 2. rewrite Habs.
  unfold resolved, posixpath.abspath.
  replace (posixpath.isabs x) with false by (destruct Hx as [-> | ->]; reflexivity).
  now rewrite normpath_join_blank.
Qed.

(** X11.  The path is taken from the current directory when it is not
    absolute, and an empty path is no error: the current directory
    being absolute and normalized, as [os.getcwd] returns it, [forward]
    on the empty path or on [.] is [forward] on the current
    directory. *)
Theorem empty_path_is_current_directory :
  forall (fs : filesystem) (ignore : option (list string)),
    posixpath.isabs (getcwd fs) = true ->
    posixpath.normpath (getcwd fs) = getcwd fs ->
    forward fs "" ignore = forward fs (getcwd fs) ignore
    /\ forward fs "." ignore = forward fs (getcwd fs) ignore.
Proof.
  intros fs ignore Habs Hnorm.
  split; rewrite !forward_eq; rewrite (resolved_blank fs _ Habs Hnorm) by auto; reflexivity.
Qed.

(** Scenario A, from inside the directory. *)
Lemma empty_path_is_current_directory_witness :
  forward (mount "/repo" "/repo" scenario_a) "" None
  = forward (mount "/repo" "/repo" scenario_a) "/repo" None
  /\ forward (mount "/repo" "/repo" scenario_a) "." None
     = forward (mount "/repo" "/repo" scenario_a) "/repo" None.
Proof.
  apply (empty_path_is_current_directory (mount "/repo" "/repo" scenario_a) None).
  - reflexivity.
  - reflexivity.
Defined.

(** ** What is visible is listed *)

Lemma walk_complete (cwd initial_path : string) (ignore_patterns : list string)
      (n n' : fsnode) (ns : list string) :
  posixpath.isabs initial_path = true ->
  reaches n ns n' ->
  forall ns0,
    valid_tree n = true -> Forall (fun x => valid_name x = true) ns0 ->
    should_skip (path_of initial_path ns0) ignore_patterns = false ->
    visible ignore_patterns (path_of initial_path ns0) ns = true ->
    ns0 ++ ns <> [] ->
    In (entry_of (ns0 ++ ns) (isdir n'))
       (walk cwd initial_path ignore_patterns (path_of initial_path ns0) n).
Proof.
  intros Habs. induction 1 as [n|name children c names n Hc Hr IH];
    intros ns0 Hvalid Hns0 Hskip Hvis Hne; rewrite walk_eq, Hskip; apply in_or_app.
  - left. rewrite app_nil_r in *. rewrite own_entry_below by assumption. now left.
  - right. apply in_flat_map. exists c. split; [assumption|].
    cbn [visible] in Hvis. apply andb_true_iff in Hvis. destruct Hvis as [Hs Hvis].
    apply negb_true_iff in Hs. rewrite path_of_snoc in *.
    apply valid_tree_dir in Hvalid. destruct Hvalid as [Hnames [_ Hch]].
    rewrite Forall_forall in Hnames, Hch.
    replace (ns0 ++ node_name c :: names) with ((ns0 ++ [node_name c]) ++ names)
      by now rewrite <- app_assoc.
    apply IH; try assumption.
    + now apply Hch.
    + apply Forall_app. split; [assumption|]. constructor; [now apply Hnames | constructor].
    + now destruct ns0.
Qed.

(** X12.  As long as the cap is not reached, everything visible is
    listed: the entry of every node that is reached from the root
    through directories that can be listed, when neither the root, nor
    the node, nor any directory between them is skipped. *)
Theorem visible_entries_listed :
  forall (cwd initial_path : string) (ignore_patterns : list string) (root : fsnode)
         (listing : list string) (ns : list string) (n : fsnode),
    posixpath.isabs initial_path = true ->
    valid_tree root = true ->
    walk_count initial_path ignore_patterns initial_path root < MAX_FILES ->
    list_directory cwd initial_path ignore_patterns root = Returns listing ->
    reaches root ns n -> ns <> [] ->
    should_skip initial_path ignore_patterns = false ->
    visible ignore_patterns initial_path ns = true ->
    In (Str.join "/" ns ++ if isdir n then "/" else "")%string listing.
Proof.
  intros cwd initial_path ignore_patterns root listing ns n Habs Hvalid Hcap Hlist
         Hreach Hne Hskip Hvis.
  apply list_directory_complete in Hlist; [|assumption].
  apply (Permutation_in _ (Permutation_sym Hlist)).
  apply (walk_complete cwd initial_path ignore_patterns root n ns Habs Hreach []);
    try assumption; constructor.
Qed.

(** The file one level down in scenario A. *)
Lemma visible_entries_listed_witness :
  In (Str.join "/" ["b"; "c.txt"] ++ if isdir (File "c.txt") then "/" else "")%string
     ["a.txt"; "b/"; "b/c.txt"].
Proof.
  apply (visible_entries_listed "/home" "/repo" [] scenario_a).
  - reflexivity.
  - reflexivity.
  - vm_compute. lia.
  - vm_compute. reflexivity.
  - apply lookup_reaches. reflexivity.
  - discriminate.
  - reflexivity.
  - reflexivity.
Defined.

(** ** Where errors come from *)



Section Raised.
Variables (cwd initial_path : string) (ignore_patterns : list string) (root : fsnode).




End Raised.



(** ** The current directory *)

Section Absolute.
Variables (cwd1 cwd2 initial_path : string) (ignore_patterns : list string).
Hypothesis Habs : posixpath.isabs initial_path = true.

Lemma rel_entry_absolute (path : string) (n : fsnode) :
  posixpath.isabs path = true ->
  rel_entry cwd1 initial_path path n = rel_entry cwd2 initial_path path n.
Proof.
  intros Hp. unfold rel_entry, posixpath.relpath, posixpath.abspath. now rewrite Hp, Habs.
Qed.

Lemma scan_step_absolute (path : string) (n : fsnode) (rest : list (string * fsnode))
      (st : scan_state) :
  posixpath.isabs path = true ->
  scan_step cwd1 initial_path ignore_patterns path n rest st
  = scan_step cwd2 initial_path ignore_patterns path n rest st.
Proof.
  intros Hp. rewrite !scan_step_spec. unfold own_entry. now rewrite rel_entry_absolute.
Qed.

Lemma scan_loop_absolute (fuel : nat) :
  forall st : scan_state,
    Forall (fun e => posixpath.isabs (fst e) = true) (queue st) ->
    scan_loop cwd1 initial_path ignore_patterns fuel st
    = scan_loop cwd2 initial_path ignore_patterns fuel st.
Proof.
  induction fuel as [|fuel IH]; intros st Hq; rewrite !scan_loop_eq;
    destruct (queue st) as [|[path n] rest] eqn:Q; try reflexivity.
  destruct (file_count st <? MAX_FILES); [|reflexivity].
  apply Forall_cons_iff in Hq. destruct Hq as [Hp Hrest]. cbn [fst] in Hp.
  rewrite <- scan_step_absolute by assumption.
  destruct (scan_step cwd1 initial_path ignore_patterns path n rest st) as [st'| |] eqn:S1;
    try reflexivity.
  apply IH.
  now apply (proj2 (scan_step_same cwd1 initial_path ignore_patterns ignore_patterns
                      (fun _ _ => eq_refl) path n rest st Hp Hrest)).
Qed.

Lemma list_directory_absolute (root : fsnode) :
  list_directory cwd1 initial_path ignore_patterns root
  = list_directory cwd2 initial_path ignore_patterns root.
Proof.
  unfold list_directory. rewrite scan_loop_absolute; [reflexivity|].
  cbn [queue]. constructor; [assumption | constructor].
Qed.
End Absolute.

(** X14.  With an absolute path the current directory plays no part:
    [forward] returns the same in two processes that find the same at
    every path, whatever their current directories. *)
Theorem absolute_path_ignores_cwd :
  forall (cwd1 cwd2 : string) (found : string -> option fsnode) (path : string)
         (ignore : option (list string)),
    posixpath.isabs path = true ->
    forward {| getcwd := cwd1; stat := found |} path ignore
    = forward {| getcwd := cwd2; stat := found |} path ignore.
Proof.
  intros cwd1 cwd2 found path ignore Habs. rewrite !forward_eq.
  unfold resolved. cbn [getcwd stat]. rewrite Habs.
  destruct (found path) as [[name|name raises children]|]; try reflexivity.
  now rewrite (list_directory_absolute cwd1 cwd2 path (patterns_of ignore) Habs).
Qed.

(** Scenario A, from two directories. *)
Lemma absolute_path_ignores_cwd_witness :
  forward {| getcwd := "/home"; stat := stat (mount "/" "/repo" scenario_a) |} "/repo" None
  = forward {| getcwd := "/tmp/x"; stat := stat (mount "/" "/repo" scenario_a) |} "/repo" None.
Proof.
  apply absolute_path_ignores_cwd. reflexivity.
Defined.

(** ** At the cap *)

(** X15.  The banner at the bound: a directory that holds files only,
    at most [MAX_FILES] of them and none skipped, is listed in full,
    and [forward] puts the banner before the tree exactly when the
    files are [MAX_FILES]: with as many files as the cap, nothing is
    cut and the banner is there all the same. *)
Theorem banner_at_the_cap :
  forall (fs : filesystem) (path rname : string) (names : list string),
    posixpath.isabs (getcwd fs) = true ->
    stat fs (resolved fs path) = Some (Dir rname None (map File names)) ->
    length names <= MAX_FILES ->
    NoDup names ->
    Forall (fun n => valid_name n = true) names ->
    should_skip (resolved fs path) [] = false ->
    Forall (fun n => should_skip (posixpath.join (resolved fs path) n) [] = false) names ->
    list_directory (getcwd fs) (resolved fs path) [] (Dir rname None (map File names))
    = Returns (sort_strings names)
    /\ forward fs path None
       = Returns ((if (length names =? MAX_FILES)%nat then TRUNCATED_MESSAGE else "")
                  ++ root_line (resolved fs path) 0
                  ++ String.concat "" (map file_line (sort_strings names)))%string.
Proof.
  intros fs path rname names Hcwd Hstat Hlen Hnd Hvalid Hroot Hkept.
  pose proof (isabs_resolved fs path Hcwd) as Habs.
  pose proof (list_directory_files (getcwd fs) (resolved fs path) rname names
                Habs Hvalid Hroot Hkept) as Hlist.
  assert (Hperm : Permutation (sort_strings names) names)
    by apply (sort_by_perm (fun s : string => s)).
  assert (Hsame : length (sort_strings names) = length names)
    by now apply Permutation_length.
  rewrite firstn_all2 in Hlist by lia.
  split; [assumption|].
  rewrite forward_eq, Hstat. cbn [patterns_of]. rewrite Hlist, Hsame.
  replace (MAX_FILES <=? length names) with (length names =? MAX_FILES).
  - rewrite create_file_tree_files, print_tree_files; [reflexivity | |].
    + apply valid_comp_ok. apply Forall_forall. intros n Hn.
      rewrite Forall_forall in Hvalid. apply Hvalid. now apply (Permutation_in _ Hperm).
    + now apply (Permutation_NoDup (Permutation_sym Hperm)).
  - destruct (length names =? MAX_FILES) eqn:E; symmetry.
    + apply Nat.eqb_eq in E. apply Nat.leb_le. lia.
    + apply Nat.eqb_neq in E. apply Nat.leb_gt. lia.
Qed.

(** A thousand files: all of them listed, and the banner. *)
Lemma banner_at_the_cap_witness :
  list_directory "/home" "/repo" [] just_full = Returns (sort_strings (numbered "f" 1000))
  /\ forward (mount "/home" "/repo" just_full) "/repo" None
     = Returns ((if (length (numbered "f" 1000) =? MAX_FILES)%nat then TRUNCATED_MESSAGE else "")
                ++ root_line "/repo" 0
                ++ String.concat "" (map file_line (sort_strings (numbered "f" 1000))))%string.
Proof.
  apply (banner_at_the_cap (mount "/home" "/repo" just_full) "/repo" "repo"
           (numbered "f" 1000)).
  - reflexivity.
  - reflexivity.
  - vm_compute. lia.
  - apply nodupb_NoDup. vm_compute. reflexivity.
  - apply forallb_Forall. vm_compute. reflexivity.
  - reflexivity.
  - apply forallb_Forall_false. vm_compute. reflexivity.
Defined.

(** ** The line read in the interactive mode *)

Lemma rstrip_blank (s : string) : Line.blank s = true -> Line.rstrip s = "".
Proof.
  induction s as [|c s IH]; [reflexivity|]. cbn [Line.blank Line.rstrip].
  intros H. apply andb_true_iff in H. destruct H as [Hc Hs]. now rewrite (IH Hs), Hc.
Qed.

Lemma rstrip_empty (s : string) : Line.rstrip s = "" -> Line.blank s = true.
Proof.
  induction s as [|c s IH]; [reflexivity|]. cbn [Line.blank Line.rstrip].
  destruct (Line.rstrip s); [|discriminate].
  destruct (Line.isspace c); [|discriminate]. intros _. now rewrite IH.
Qed.

Lemma lstrip_head (s : string) (c : ascii) (w : string) :
  Line.lstrip s = String c w -> Line.isspace c = false.
Proof.
  induction s as [|a s IH]; cbn [Line.lstrip]; [discriminate|].
  destruct (Line.isspace a) eqn:E; [assumption|]. now intros [= <- _].
Qed.

Lemma lstrip_empty (s : string) : Line.lstrip s = "" -> Line.blank s = true.
Proof.
  induction s as [|a s IH]; cbn [Line.lstrip Line.blank]; [reflexivity|].
  destruct (Line.isspace a); [assumption | discriminate].
Qed.

Lemma strip_empty (s : string) : Line.strip s = "" -> Line.blank s = true.
Proof.
  unfold Line.strip. intros H. apply rstrip_empty in H.
  destruct (Line.lstrip s) as [|c w] eqn:E; [now apply lstrip_empty|].
  apply lstrip_head in E. cbn [Line.blank] in H. now rewrite E in H.
Qed.

Lemma rstrip_length (s : string) : String.length (Line.rstrip s) <= String.length s.
Proof.
  induction s as [|c s IH]; [reflexivity|]. cbn [Line.rstrip String.length].
  destruct (Line.rstrip s); [destruct (Line.isspace c)|]; cbn [String.length] in *; lia.
Qed.

Lemma lstrip_length (s : string) : String.length (Line.lstrip s) <= String.length s.
Proof.
  induction s as [|c s IH]; [reflexivity|]. cbn [Line.lstrip String.length].
  destruct (Line.isspace c); cbn [String.length]; lia.
Qed.

Lemma rstrip_fixed (s : string) :
  String.length (Line.rstrip s) = String.length s -> Line.rstrip s = s.
Proof.
  induction s as [|c s IH]; [reflexivity|]. cbn [Line.rstrip String.length].
  pose proof (rstrip_length s) as Hle.
  destruct (Line.rstrip s) as [|a r] eqn:E.
  - destruct (Line.isspace c); cbn [String.length]; [discriminate|].
    intros [= H]. destruct s; [reflexivity | discriminate].
  - cbn [String.length] in *. intros [= H]. now rewrite IH.
Qed.

Lemma lstrip_fixed (s : string) :
  String.length (Line.lstrip s) = String.length s -> Line.lstrip s = s.
Proof.
  destruct s as [|c s]; [reflexivity|]. cbn [Line.lstrip String.length].
  destruct (Line.isspace c); [|reflexivity].
  pose proof (lstrip_length s). lia.
Qed.

Lemma strip_length (s : string) : String.length (Line.strip s) <= String.length s.
Proof.
  unfold Line.strip. pose proof (rstrip_length (Line.lstrip s)). pose proof (lstrip_length s). lia.
Qed.

Lemma strip_fixed (s : string) :
  String.length (Line.strip s) = String.length s -> Line.strip s = s.
Proof.
  unfold Line.strip. intros H.
  pose proof (rstrip_length (Line.lstrip s)). pose proof (lstrip_length s).
  assert (E : Line.lstrip s = s) by (apply lstrip_fixed; lia).
  rewrite E in *. now apply rstrip_fixed.
Qed.

Lemma rstrip_idem (s : string) : Line.rstrip (Line.rstrip s) = Line.rstrip s.
Proof.
  induction s as [|c s IH]; [reflexivity|]. cbn [Line.rstrip].
  destruct (Line.rstrip s) as [|a r] eqn:E.
  - destruct (Line.isspace c) eqn:Ec; [reflexivity|]. cbn [Line.rstrip]. now rewrite Ec.
  - cbn [Line.rstrip] in *. rewrite IH. reflexivity.
Qed.

Lemma lower_length (s : string) : String.length (Line.lower s) = String.length s.
Proof. induction s as [|c s IH]; cbn [Line.lower String.length]; congruence. Qed.

Lemma lower_char_space (c : ascii) : Line.lower_char c = " "%char -> c = " "%char.
Proof.
  unfold Line.lower_char. destruct ((65 <=? nat_of_ascii c) && (nat_of_ascii c <=? 90)) eqn:E;
    [|easy].
  apply andb_true_iff in E. destruct E as [E1 E2].
  apply Nat.leb_le in E1, E2. intros H. apply (f_equal nat_of_ascii) in H.
  rewrite nat_ascii_embedding in H by lia. cbn in H. lia.
Qed.

Lemma isspace_lower (c : ascii) : Line.isspace (Line.lower_char c) = Line.isspace c.
Proof.
  unfold Line.lower_char. destruct ((65 <=? nat_of_ascii c) && (nat_of_ascii c <=? 90)) eqn:E;
    [|reflexivity].
  apply andb_true_iff in E. destruct E as [E1 E2]. apply Nat.leb_le in E1, E2.
  unfold Line.isspace. rewrite nat_ascii_embedding by lia.
  replace (nat_of_ascii c + 32 <=? 13) with false by (symmetry; apply Nat.leb_gt; lia).
  replace (nat_of_ascii c + 32 <=? 32) with false by (symmetry; apply Nat.leb_gt; lia).
  replace (nat_of_ascii c <=? 13) with false by (symmetry; apply Nat.leb_gt; lia).
  replace (nat_of_ascii c <=? 32) with false by (symmetry; apply Nat.leb_gt; lia).
  now rewrite !andb_false_r.
Qed.

Lemma lower_lstrip (s : string) : Line.lower (Line.lstrip s) = Line.lstrip (Line.lower s).
Proof.
  induction s as [|c s IH]; [reflexivity|]. cbn [Line.lstrip Line.lower].
  rewrite isspace_lower. now destruct (Line.isspace c).
Qed.

Lemma lower_rstrip (s : string) : Line.lower (Line.rstrip s) = Line.rstrip (Line.lower s).
Proof.
  induction s as [|c s IH]; [reflexivity|]. cbn [Line.rstrip Line.lower].
  rewrite <- IH, isspace_lower.
  destruct (Line.rstrip s); cbn [Line.lower]; [now destruct (Line.isspace c) | reflexivity].
Qed.

Lemma lower_strip (s : string) : Line.lower (Line.strip s) = Line.strip (Line.lower s).
Proof. unfold Line.strip. now rewrite lower_rstrip, lower_lstrip. Qed.

(** What is left of a stripped line after [cd] and the space is not
    whitespace only. *)
Lemma after_cd (t : string) (a b c : ascii) (s' : string) :
  Line.rstrip t = String a (String b (String c s')) -> Line.isspace c = true ->
  Line.blank s' = false.
Proof.
  intros E Hc. destruct (Line.blank s') eqn:B; [|reflexivity]. exfalso.
  pose proof (rstrip_idem t) as H. rewrite E in H.
  assert (Hw : Line.rstrip (String c s') = "")
    by (apply rstrip_blank; cbn [Line.blank]; now rewrite Hc, B).
  cbn [Line.rstrip] in H, Hw. rewrite Hw in H.
  destruct (Line.isspace b); [destruct (Line.isspace a)|]; discriminate.
Qed.

(** X16.  The usage of [cd] is never printed: the line is stripped
    before it is tested for [cd ] and the space, so what follows the
    space is never empty, and the branch that prints the usage is never
    taken.  A line that is [cd] alone, with or without spaces around it,
    goes to the agent. *)
Theorem cd_usage_is_never_printed :
  (forall (fs : filesystem) (users : userdb) (query : string),
      Line.is_ascii query = true -> round_of fs users query <> Usage)
  /\ (forall (fs : filesystem) (users : userdb) (query : string),
        Line.is_ascii query = true ->
        Line.lower (Line.strip query) = "cd" -> round_of fs users query = Ask query).
Proof.
  split.
  - intros fs users query _. unfold round_of.
    destruct (existsb _ _); [discriminate|].
    destruct (Line.strip query =? "")%string; [discriminate|].
    destruct (Line.lower query =? "help")%string; [discriminate|].
    destruct (Str.startswith (Line.lower (Line.strip query)) "cd ") eqn:Hcd; [|discriminate].
    destruct (Line.strip (Line.drop 3 (Line.strip query)) =? "")%string eqn:E;
      [|discriminate]. exfalso.
    apply String.eqb_eq in E. apply strip_empty in E.
    unfold Line.strip in Hcd, E.
    destruct (Line.rstrip (Line.lstrip query)) as [|a [|b [|c s']]] eqn:S;
      cbn [Line.lower] in Hcd; unfold Str.startswith in Hcd;
      try (rewrite ?prefix_cons in Hcd; cbn in Hcd;
           rewrite ?andb_false_r in Hcd; discriminate).
    rewrite !prefix_cons, prefix_nil, andb_true_r in Hcd.
    apply andb_true_iff in Hcd. destruct Hcd as [_ Hcd].
    apply andb_true_iff in Hcd. destruct Hcd as [_ Hcd].
    apply Ascii.eqb_eq in Hcd. symmetry in Hcd. apply lower_char_space in Hcd. subst c.
    cbn [Line.drop] in E.
    now rewrite (after_cd (Line.lstrip query) a b " " s' S eq_refl) in E.
  - intros fs users query _ Hcd. unfold round_of. rewrite lower_strip in Hcd.
    destruct (existsb (String.eqb (Line.lower query)) ["exit"; "quit"]) eqn:E1.
    { exfalso. apply existsb_exists in E1. destruct E1 as [x [Hx E1]].
      apply String.eqb_eq in E1. rewrite E1 in Hcd.
      destruct Hx as [<- | [<- | []]]; discriminate. }
    destruct (Line.strip query =? "")%string eqn:E2.
    { apply String.eqb_eq in E2. rewrite <- lower_strip, E2 in Hcd. discriminate. }
    destruct (Line.lower query =? "help")%string eqn:E3.
    { apply String.eqb_eq in E3. rewrite E3 in Hcd. discriminate. }
    rewrite lower_strip, Hcd. reflexivity.
Qed.

(** A line that is [cd] alone, in capitals and with spaces around it. *)
Lemma cd_usage_is_never_printed_witness :
  round_of (mount "/home" "/repo" scenario_a) one_user "  CD " = Ask "  CD ".
Proof.
  apply (proj2 cd_usage_is_never_printed (mount "/home" "/repo" scenario_a) one_user "  CD ").
  - reflexivity.
  - reflexivity.
Defined.

(** X17.  [exit], [quit] and [help] are commands only when nothing
    surrounds them: the line is compared without being stripped, so
    with whitespace before or after, in small letters or capitals, they
    end nothing and print no help, and the line goes to the agent as it
    was read. *)
Theorem padded_commands_reach_the_agent :
  forall (fs : filesystem) (users : userdb) (query : string),
    Line.is_ascii query = true ->
    In (Line.lower (Line.strip query)) ["exit"; "quit"; "help"] ->
    query <> Line.strip query ->
    round_of fs users query = Ask query.
Proof.
  intros fs users query _ Hcmd Hpad.
  assert (Hlen : String.length (Line.strip query) = 4).
  { rewrite <- lower_length.
    destruct Hcmd as [<- | [<- | [<- | []]]]; reflexivity. }
  assert (Hlong : String.length (Line.lower query) <> 4).
  { rewrite lower_length. pose proof (strip_length query) as Hle. intros E.
    apply Hpad. symmetry. apply strip_fixed. lia. }
  unfold round_of.
  destruct (existsb (String.eqb (Line.lower query)) ["exit"; "quit"]) eqn:E1.
  { exfalso. apply existsb_exists in E1. destruct E1 as [x [Hx E1]].
    apply String.eqb_eq in E1. rewrite E1 in Hlong.
    destruct Hx as [<- | [<- | []]]; now apply Hlong. }
  destruct (Line.strip query =? "")%string eqn:E2.
  { apply String.eqb_eq in E2. rewrite E2 in Hlen. discriminate. }
  destruct (Line.lower query =? "help")%string eqn:E3.
  { exfalso. apply String.eqb_eq in E3. rewrite E3 in Hlong. now apply Hlong. }
  destruct Hcmd as [<- | [<- | [<- | []]]]; reflexivity.
Qed.

(** [exit] after a space. *)
Lemma padded_commands_reach_the_agent_witness :
  round_of (mount "/home" "/repo" scenario_a) one_user " exit" = Ask " exit".
Proof.
  apply (padded_commands_reach_the_agent (mount "/home" "/repo" scenario_a) one_user " exit").
  - reflexivity.
  - cbn. tauto.
  - discriminate.
Defined.

(** ** Where [cd] goes *)

Lemma last_in (l : list string) : l <> [] -> In (last l "") l.
Proof.
  intros Hne. destruct (exists_last Hne) as [l' [x ->]].
  rewrite last_last. apply in_or_app. right. now left.
Qed.

Lemma norm_step_valid (acc : list string) (comp : string) :
  Forall (fun x => valid_name x = true) acc -> Str.contains "/" comp = false ->
  Forall (fun x => valid_name x = true) (posixpath.norm_step true acc comp).
Proof.
  intros Hacc Hcomp. unfold posixpath.norm_step.
  destruct (comp =? "")%string eqn:E1; [exact Hacc|]. cbn [orb].
  destruct (comp =? ".")%string eqn:E2; [exact Hacc|].
  destruct (comp =? "..")%string eqn:E3; cbn [negb orb andb].
  - destruct acc as [|a acc]; [constructor|].
    replace (last (a :: acc) "" =? "..")%string with false; [now apply Forall_removelast|].
    symmetry. apply String.eqb_neq. intros E.
    assert (Hin : In (last (a :: acc) "") (a :: acc)) by (apply last_in; discriminate).
    rewrite Forall_forall in Hacc. apply Hacc in Hin. rewrite E in Hin. discriminate.
  - apply Forall_app. split; [exact Hacc|]. constructor; [|constructor].
    apply valid_name_iff. apply String.eqb_neq in E1, E2, E3. now repeat split.
Qed.

Lemma norm_comps_valid (l : list string) :
  Forall (fun x => Str.contains "/" x = false) l ->
  Forall (fun x => valid_name x = true) (posixpath.norm_comps true l).
Proof.
  unfold posixpath.norm_comps.
  generalize (@nil string) (Forall_nil (fun x => valid_name x = true)).
  induction l as [|x l IH]; intros acc Hacc H; [exact Hacc|].
  apply Forall_cons_iff in H. destruct H as [Hx Hl]. cbn [fold_left].
  apply IH; [|assumption]. now apply norm_step_valid.
Qed.

Lemma fold_norm_step_valid (b : bool) (l : list string) :
  forall acc, Forall (fun x => valid_name x = true) l ->
              fold_left (posixpath.norm_step b) l acc = acc ++ l.
Proof.
  induction l as [|x l IH]; intros acc Hl; cbn [fold_left]; [now rewrite app_nil_r|].
  apply Forall_cons_iff in Hl. destruct Hl as [Hx Hl].
  rewrite norm_step_name by assumption. rewrite IH by assumption. now rewrite <- app_assoc.
Qed.

Lemma join_head (c : string) (cs : list string) :
  valid_name c = true ->
  exists a r, a <> "/"%char /\ Str.join "/" (c :: cs) = String a r.
Proof.
  intros Hc. apply valid_name_iff in Hc. destruct Hc as [Hne [_ [_ Hs]]].
  destruct c as [|a c]; [contradiction|].
  rewrite contains_char_cons in Hs. apply orb_false_iff in Hs. destruct Hs as [Ha _].
  apply Ascii.eqb_neq in Ha. exists a. unfold Str.join.
  destruct cs; cbn [String.concat String.append]; eexists; split; try eassumption; reflexivity.
Qed.

Lemma norm_step_blank (b : bool) (acc : list string) : posixpath.norm_step b acc "" = acc.
Proof. reflexivity. Qed.

(** What [normpath] returns for an absolute path is left as it is by
    [normpath]. *)
Lemma normpath_idem (p : string) :
  posixpath.isabs p = true ->
  posixpath.normpath (posixpath.normpath p) = posixpath.normpath p.
Proof.
  intros Hp. pose proof (isabs_nonempty _ Hp) as Hne.
  pose proof (norm_comps_valid _ (split_parts_without posixpath.sep p)) as Hvalid.
  unfold posixpath.normpath at 2 3. apply String.eqb_neq in Hne. rewrite Hne.
  unfold posixpath.isabs, posixpath.sep_str in Hp. rewrite Hp.
  set (comps := posixpath.norm_comps true (Str.split posixpath.sep p)) in *.
  clearbody comps. unfold posixpath.sep_str.
  destruct comps as [|c cs].
  - destruct (Str.startswith p "//" && negb (Str.startswith p "///")); reflexivity.
  - pose proof Hvalid as Hvalid'. apply Forall_cons_iff in Hvalid'. destruct Hvalid' as [Hc _].
    destruct (join_head c cs Hc) as [a [r [Ha E]]].
    assert (Hsplit : Str.split "/" (Str.join "/" (c :: cs)) = c :: cs).
    { apply split_join; [|discriminate]. eapply Forall_impl; [|exact Hvalid].
      intros x Hx. apply valid_name_iff in Hx. apply Hx. }
    assert (Hfold : forall acc, fold_left (posixpath.norm_step true) (c :: cs) acc
                                = acc ++ c :: cs)
      by (intros acc; now apply fold_norm_step_valid).
    apply Ascii.eqb_neq in Ha.
    destruct (Str.startswith p "//" && negb (Str.startswith p "///"));
      cbn [String.append String.eqb Ascii.eqb Bool.eqb];
      unfold posixpath.normpath, posixpath.sep_str, posixpath.sep, posixpath.norm_comps;
      cbn [String.eqb Str.split Ascii.eqb Bool.eqb fold_left];
      unfold Str.startswith; rewrite !prefix_cons, ?prefix_nil;
      cbn [Ascii.eqb Bool.eqb andb]; rewrite E, ?prefix_cons;
      rewrite (Ascii.eqb_sym "/" a), Ha; cbn [andb negb];
      rewrite <- E, Hsplit;
      rewrite Hfold, !norm_step_blank; cbn [app String.append String.eqb];
      reflexivity.
Qed.

(** X18.  The directory [cd] hands to [recreate_agent_with_cwd]: the
    current directory being absolute, it is always an absolute path,
    and a normalized one, that [normpath] leaves as it is, whatever the
    line and whatever [expanduser] finds for the user. *)
Theorem cd_goes_to_an_absolute_path :
  forall (fs : filesystem) (users : userdb) (query new_path : string),
    posixpath.isabs (getcwd fs) = true ->
    round_of fs users query = ChangeDirectory new_path ->
    posixpath.isabs new_path = true
    /\ posixpath.normpath new_path = new_path.
Proof.
  intros fs users query new_path Hcwd. unfold round_of.
  destruct (existsb _ _); [discriminate|].
  destruct (Line.strip query =? "")%string; [discriminate|].
  destruct (Line.lower query =? "help")%string; [discriminate|].
  destruct (Str.startswith _ "cd "); [|discriminate].
  destruct (negb _); [|discriminate].
  set (target := expanduser users _). intros [= <-].
  assert (Habs : posixpath.isabs
                   (if negb (posixpath.isabs target) then posixpath.join (getcwd fs) target
                    else target) = true).
  { destruct (posixpath.isabs target) eqn:E; cbn [negb]; [assumption|].
    now apply isabs_join_any. }
  split; [now apply isabs_normpath | now apply normpath_idem].
Qed.

(** A directory given from the home of the user, with a step back. *)
Lemma cd_goes_to_an_absolute_path_witness :
  posixpath.isabs "/home/u/work" = true
  /\ posixpath.normpath "/home/u/work" = "/home/u/work".
Proof.
  apply (cd_goes_to_an_absolute_path (mount "/srv" "/repo" scenario_a) one_user
           "cd ~/src/../work/").
  - reflexivity.
  - vm_compute. reflexivity.
Defined.
